(** * Dominance tree for PEG graphs (libfirm, ir/ana/peg_dom.c)

    A shallow embedding of the dominator-tree construction of
    [peg_dom.c] and of its query interface, followed by the properties
    of the construction that the analysis relies on. *)

From stdpp Require Import gmap list relations.
From Stdlib Require Import ZArith Lia.

(** ** Outcomes

    The C code can abort on a failed [assert], and it can dereference a
    null [pd_node] pointer.  Loops and recursions of the model are
    bounded by a fuel argument; running out of it is an outcome of its
    own. *)

Inductive result (A : Type) : Type :=
| Done (a : A)
| AssertFail
| Fault
| OutOfFuel.

Arguments Done {A} a.
Arguments AssertFail {A}.
Arguments Fault {A}.
Arguments OutOfFuel {A}.

#[global] Instance result_ret : MRet result := fun A a => Done a.
#[global] Instance result_bind : MBind result := fun A B f m =>
  match m with
  | Done a => f a
  | AssertFail => AssertFail
  | Fault => Fault
  | OutOfFuel => OutOfFuel
  end.

(** [assert(b)] *)
Definition assert (b : bool) : result unit :=
  if b then Done tt else AssertFail.

(** A [for] / [foreach] loop whose body threads a state and may stop
    the whole computation. *)
Fixpoint for_each {A S : Type} (body : S → A → result S) (s : S) (l : list A)
  : result S :=
  match l with
  | [] => Done s
  | x :: l => s' ← body s x; for_each body s' l
  end.

(** ** The dependence graph

    Nodes ([ir_node *]) are identified by natural numbers. *)

Abbreviation ir_node := nat (only parsing).

(** Modelled from the spec: the interface of the dependence graph that
    [peg_dom.c] reads and whose code is not part of the sources at hand
    ([get_irg_end_block], [get_Block_cfgpred], [is_Return],
    [get_irn_arity] / [get_irn_n], [foreach_out_edge] /
    [get_edge_src_irn]).  [irg_ret] is predecessor 0 of the end block,
    [irg_ins] gives the ordered dependencies (operands) of a node and
    [irg_outs] the source nodes of its out edges (its uses) in the
    order in which the edge list enumerates them. *)
Record ir_graph := mk_ir_graph {
  irg_ret : ir_node;
  irg_returns : gset ir_node;
  irg_ins : gmap ir_node (list ir_node);
  irg_outs : gmap ir_node (list ir_node)
}.

Definition is_Return (g : ir_graph) (n : ir_node) : bool :=
  bool_decide (n ∈ irg_returns g).

(** [get_irn_n(irn, 0) .. get_irn_n(irn, get_irn_arity(irn) - 1)] *)
Definition get_irn_ins (g : ir_graph) (n : ir_node) : list ir_node :=
  default [] (irg_ins g !! n).

(** the [get_edge_src_irn] of the edges of [foreach_out_edge(irn, edge)] *)
Definition get_irn_outs (g : ir_graph) (n : ir_node) : list ir_node :=
  default [] (irg_outs g !! n).

(** ** Dominator-tree nodes

    The phase keeps one [pd_node] per [ir_node], so a [pd_node *] is
    modelled by the key under which the phase stores the record; null
    pointers are [None].  [children] is the [plist_t] of child
    pointers. *)

Record pd_node := mk_pd_node {
  irn : option ir_node;
  defined : bool;
  index : Z;
  max_index : Z;
  children : list ir_node;
  parent : option ir_node
}.

Definition set_irn (v : option ir_node) (n : pd_node) : pd_node :=
  mk_pd_node v (defined n) (index n) (max_index n) (children n) (parent n).
Definition set_defined (v : bool) (n : pd_node) : pd_node :=
  mk_pd_node (irn n) v (index n) (max_index n) (children n) (parent n).
Definition set_index (v : Z) (n : pd_node) : pd_node :=
  mk_pd_node (irn n) (defined n) v (max_index n) (children n) (parent n).
Definition set_max_index (v : Z) (n : pd_node) : pd_node :=
  mk_pd_node (irn n) (defined n) (index n) v (children n) (parent n).
Definition set_children (v : list ir_node) (n : pd_node) : pd_node :=
  mk_pd_node (irn n) (defined n) (index n) (max_index n) v (parent n).
Definition set_parent (v : option ir_node) (n : pd_node) : pd_node :=
  mk_pd_node (irn n) (defined n) (index n) (max_index n) (children n) v.

(** The state that the construction mutates: the visited flags of the
    graph (the nodes whose visited counter equals the graph's) and the
    phase data. *)
Record pd_state := mk_pd_state {
  visited : gset ir_node;
  phase : gmap ir_node pd_node
}.

(** PEG dominator tree. *)
Record pd_tree := mk_pd_tree {
  root : ir_node;
  tree_phase : gmap ir_node pd_node
}.

(** Modelled from the spec: the visited flags of the graph
    ([irn_visited], [mark_irn_visited], [inc_irg_visited]), whose code
    is not part of the sources at hand. *)
Definition irn_visited (st : pd_state) (n : ir_node) : bool :=
  bool_decide (n ∈ visited st).
Definition mark_irn_visited (st : pd_state) (n : ir_node) : pd_state :=
  mk_pd_state ({[n]} ∪ visited st) (phase st).
Definition inc_irg_visited (st : pd_state) : pd_state :=
  mk_pd_state ∅ (phase st).

(** [pd_init_node]: a zeroed record with a fresh, empty child list. *)
Definition pd_init_node : pd_node :=
  mk_pd_node None false 0 0 [] None.

(** Modelled from the spec: the phase lookup ([phase_get_irn_data],
    null when the node has no data) and the creating lookup
    ([phase_get_or_set_irn_data], which calls [pd_init_node] for a node
    without data), whose code is not part of the sources at hand. *)
Definition phase_get_irn_data (ph : gmap ir_node pd_node) (n : ir_node)
  : option pd_node := ph !! n.
Definition phase_get_or_set_irn_data (ph : gmap ir_node pd_node) (n : ir_node)
  : gmap ir_node pd_node :=
  match ph !! n with
  | Some _ => ph
  | None => <[n := pd_init_node]> ph
  end.

(** Reading through a [pd_node] pointer. *)
Definition deref (ph : gmap ir_node pd_node) (p : ir_node) : result pd_node :=
  match ph !! p with
  | Some n => Done n
  | None => Fault
  end.

(** Modelled from the spec: the pointer list [plist_t], whose code is
    not part of the sources at hand.  An element pointer is the
    position of the element; [plist_find_value] returns the first
    element holding the value, [plist_erase] unlinks an element,
    [plist_insert_back] appends and [plist_count] is the number of
    elements. *)
Fixpoint plist_find_value (l : list ir_node) (v : ir_node) : option nat :=
  match l with
  | [] => None
  | x :: l => if decide (x = v) then Some O else S <$> plist_find_value l v
  end.
Definition plist_erase (l : list ir_node) (it : nat) : list ir_node :=
  delete it l.
Definition plist_insert_back (l : list ir_node) (v : ir_node) : list ir_node :=
  l ++ [v].
Definition plist_count (l : list ir_node) : Z := Z.of_nat (length l).

(** ** Construction *)

(** [pd_set_parent(parent, child)] *)
Definition pd_set_parent (ph : gmap ir_node pd_node) (new_parent child : ir_node)
  : result (gmap ir_node pd_node) :=
  c ← deref ph child;
  (* Detach from the old parent if needed. *)
  ph ← match parent c with
       | Some old =>
           o ← deref ph old;
           match plist_find_value (children o) child with
           | None => AssertFail
           | Some it =>
               Done (<[old := set_children (plist_erase (children o) it) o]> ph)
           end
       | None => Done ph
       end;
  (* Add to the new parent. *)
  c ← deref ph child;
  let ph := <[child := set_parent (Some new_parent) c]> ph in
  p ← deref ph new_parent;
  Done (<[new_parent := set_children (plist_insert_back (children p) child) p]> ph).

(** [pd_compute_indices_post(pdt, irn, counter)]: post-order indices.
    The counter is an [int] in the code and an integer without bounds
    here; the two agree as long as the counter stays within the range
    of [int], which [pd_compute_indices_post_counter] bounds by the
    number of nodes that a call marks. *)
Fixpoint pd_compute_indices_post (fuel : nat) (g : ir_graph) (st : pd_state)
    (n : ir_node) (counter : Z) : result (pd_state * Z) :=
  match fuel with
  | O => OutOfFuel
  | S fuel =>
      if irn_visited st n then Done (st, counter) else
      let st := mark_irn_visited st n in
      '(st, counter) ←
        for_each (fun '(st, counter) dep =>
                    pd_compute_indices_post fuel g st dep counter)
                 (st, counter) (get_irn_ins g n);
      (* Postorder indices. *)
      let ph := phase_get_or_set_irn_data (phase st) n in
      pdn ← deref ph n;
      let ph := <[n := set_index counter (set_irn (Some n) pdn)]> ph in
      Done (mk_pd_state (visited st) ph, (counter + 1)%Z)
  end.

(** [pd_compute_indices_dom(pdn, counter)]: indices for queries. *)
Fixpoint pd_compute_indices_dom (fuel : nat) (ph : gmap ir_node pd_node)
    (pdn : ir_node) (counter : Z) : result (gmap ir_node pd_node * Z) :=
  match fuel with
  | O => OutOfFuel
  | S fuel =>
      n ← deref ph pdn;
      let ph := <[pdn := set_index counter n]> ph in
      '(ph, counter) ←
        for_each (fun '(ph, counter) it =>
                    pd_compute_indices_dom fuel ph it (counter + 1)%Z)
                 (ph, counter) (children n);
      n ← deref ph pdn;
      Done (<[pdn := set_max_index counter n]> ph, counter)
  end.

(** The inner loops of [pd_compute_intersect]:
    [while (x->index < y->index) x = x->parent;] *)
Fixpoint pd_climb (fuel : nat) (ph : gmap ir_node pd_node) (x y : ir_node)
  : result ir_node :=
  match fuel with
  | O => OutOfFuel
  | S fuel =>
      xn ← deref ph x;
      yn ← deref ph y;
      if bool_decide (index xn < index yn)%Z then
        match parent xn with
        | Some p => pd_climb fuel ph p y
        | None => Fault
        end
      else Done x
  end.

(** [pd_compute_intersect(lhs, rhs)] *)
Fixpoint pd_compute_intersect (fuel : nat) (ph : gmap ir_node pd_node)
    (lhs rhs : ir_node) : result ir_node :=
  match fuel with
  | O => OutOfFuel
  | S fuel =>
      if bool_decide (lhs ≠ rhs) then
        lhs ← pd_climb fuel ph lhs rhs;
        rhs ← pd_climb fuel ph rhs lhs;
        pd_compute_intersect fuel ph lhs rhs
      else Done lhs
  end.

(** First loop of [pd_compute]: the first use with a defined
    [pd_node]. *)
Fixpoint pd_find_idom (ph : gmap ir_node pd_node) (uses : list ir_node)
  : option ir_node :=
  match uses with
  | [] => None
  | ir_src :: uses =>
      match phase_get_irn_data ph ir_src with
      | None => pd_find_idom ph uses
      | Some pd_src =>
          if defined pd_src then Some ir_src else pd_find_idom ph uses
      end
  end.

(** Second loop of [pd_compute]: intersect with all other defined
    uses. *)
Definition pd_intersect_uses (fuel : nat) (ph : gmap ir_node pd_node)
    (uses : list ir_node) (pd_idom : ir_node) : result ir_node :=
  for_each (fun pd_idom ir_src =>
              match phase_get_irn_data ph ir_src with
              | None => Done pd_idom
              | Some pd_src =>
                  if bool_decide (ir_src ≠ pd_idom) && defined pd_src
                  then pd_compute_intersect fuel ph ir_src pd_idom
                  else Done pd_idom
              end)
           pd_idom uses.

(** The candidate that [pd_compute] computes for a node: both loops and
    the assertion between them. *)
Definition pd_new_idom (fuel : nat) (g : ir_graph) (ph : gmap ir_node pd_node)
    (n : ir_node) : result ir_node :=
  match pd_find_idom ph (get_irn_outs g n) with
  | None => AssertFail
  | Some pd_idom => pd_intersect_uses fuel ph (get_irn_outs g n) pd_idom
  end.

(** The part of [pd_compute] between marking the node and descending
    into its dependencies; the flag is [changed]. *)
Definition pd_compute_node (fuel : nat) (g : ir_graph) (rt : ir_node)
    (ph : gmap ir_node pd_node) (n : ir_node)
  : result (gmap ir_node pd_node * bool) :=
  r ← deref ph rt;
  if bool_decide (Some n ≠ irn r) then
    match phase_get_irn_data ph n with
    | None => AssertFail
    | Some pdn =>
        pd_idom ← pd_new_idom fuel g ph n;
        (* Link new_idom to the node. *)
        if bool_decide (parent pdn ≠ Some pd_idom) then
          ph ← pd_set_parent ph pd_idom n;
          pdn ← deref ph n;
          Done (<[n := set_defined true pdn]> ph, true)
        else Done (ph, false)
    end
  else Done (ph, false).

(** [pd_compute(pdt, irn)].  [loops] bounds each intersection walk,
    [fuel] the depth of the recursion. *)
Fixpoint pd_compute (loops fuel : nat) (g : ir_graph) (rt : ir_node)
    (st : pd_state) (n : ir_node) : result (pd_state * bool) :=
  match fuel with
  | O => OutOfFuel
  | S fuel =>
      if irn_visited st n then Done (st, false) else
      let st := mark_irn_visited st n in
      '(ph, changed) ← pd_compute_node loops g rt (phase st) n;
      for_each (fun '(st, changed) dep =>
                  '(st, c) ← pd_compute loops fuel g rt st dep;
                  Done (st, changed || c))
               (mk_pd_state (visited st) ph, changed) (get_irn_ins g n)
  end.

(** The [do ... while (changed)] loop of [pd_init]. *)
Fixpoint pd_init_loop (loops fuel : nat) (g : ir_graph) (rt : ir_node)
    (st : pd_state) : result pd_state :=
  match fuel with
  | O => OutOfFuel
  | S fuel =>
      let st := inc_irg_visited st in
      '(st, changed) ← pd_compute loops loops g rt st (irg_ret g);
      if (changed : bool) then pd_init_loop loops fuel g rt st else Done st
  end.

(** The state of [pd_init] when the root node has been set up. *)
Definition pd_init_root (g : ir_graph) : pd_state :=
  let ret := irg_ret g in
  let ph := phase_get_or_set_irn_data ∅ ret in
  mk_pd_state ∅ (alter (fun r => set_defined true (set_irn (Some ret) r)) ret ph).

(** [pd_init(irg)].  Activating and deactivating the out edges does not
    affect the tree and is left out; [irg_outs] are the edges as
    [edges_assure] provides them. *)
Definition pd_init (fuel : nat) (g : ir_graph) : result pd_tree :=
  let ret := irg_ret g in
  _ ← assert (is_Return g ret);
  (* Setup the root node. *)
  let st := pd_init_root g in
  let rt := ret in
  (* Index nodes in post-order for the algorithm. *)
  let st := inc_irg_visited st in
  '(st, _) ← pd_compute_indices_post fuel g st ret 0;
  (* Compute the dominance tree. *)
  st ← pd_init_loop fuel fuel g rt st;
  (* Index nodes for fast queries. *)
  '(ph, _) ← pd_compute_indices_dom fuel (phase st) rt 0;
  Done (mk_pd_tree rt ph).

(** ** Queries *)

(** [pd_dominates(pdt, lhs, rhs)] *)
Definition pd_dominates (pdt : pd_tree) (lhs rhs : ir_node) : result bool :=
  match phase_get_irn_data (tree_phase pdt) lhs,
        phase_get_irn_data (tree_phase pdt) rhs with
  | Some lhs_node, Some rhs_node =>
      Done (bool_decide (index rhs_node >= index lhs_node)%Z &&
            bool_decide (index rhs_node <= max_index lhs_node)%Z)
  | _, _ => Fault
  end.

(** [pd_get_parent(pdt, irn)] *)
Definition pd_get_parent (pdt : pd_tree) (n : ir_node)
  : result (option ir_node) :=
  match phase_get_irn_data (tree_phase pdt) n with
  | None => AssertFail
  | Some pdn =>
      match parent pdn with
      | Some p => pn ← deref (tree_phase pdt) p; Done (irn pn)
      | None => Done None
      end
  end.

(** [pd_get_children_count(pdt, irn)] *)
Definition pd_get_children_count (pdt : pd_tree) (n : ir_node) : result Z :=
  match phase_get_irn_data (tree_phase pdt) n with
  | None => AssertFail
  | Some pdn => Done (plist_count (children pdn))
  end.

(** A [pd_children_iter] is a pointer to a list element or null: the
    elements from that one on. *)
Abbreviation pd_children_iter := (list ir_node) (only parsing).

(** [pd_children_iter_init(pdt, irn, it)] *)
Definition pd_children_iter_init (pdt : pd_tree) (n : ir_node)
  : result pd_children_iter :=
  match phase_get_irn_data (tree_phase pdt) n with
  | None => AssertFail
  | Some pdn => Done (children pdn)
  end.

(** [pd_children_iter_next(it)]: the node, or null, and the advanced
    iterator. *)
Definition pd_children_iter_next (pdt : pd_tree) (it : pd_children_iter)
  : result (option ir_node * pd_children_iter) :=
  match it with
  | [] => Done (None, [])
  | p :: it => pdn ← deref (tree_phase pdt) p; Done (irn pdn, it)
  end.

(** [pd_get_root(pdt)] *)
Definition pd_get_root (pdt : pd_tree) : result (option ir_node) :=
  r ← deref (tree_phase pdt) (root pdt); Done (irn r).

(** ** Example graphs *)

(** The sink [0] uses [1] and [2], which both use [3]; the arguments
    give the order of the operands of the sink and the order in which
    the out edges of [3] are enumerated. *)
Definition diamond (sink_ins shared_outs : list ir_node) : ir_graph :=
  mk_ir_graph 0 {[0]}
    (list_to_map [(0, sink_ins); (1, [3]); (2, [3])])
    (list_to_map [(1, [0]); (2, [0]); (3, shared_outs)]).

(** ** Graph notions used by the statements *)

(** [dep g u d]: [d] is a dependency (operand) of [u]. *)
Definition dep (g : ir_graph) (u d : ir_node) : Prop := d ∈ get_irn_ins g u.

(** Reachable from the sink via dependency edges. *)
Definition reachable (g : ir_graph) (v : ir_node) : Prop :=
  rtc (dep g) (irg_ret g) v.

(** No dependency cycle. *)
Definition acyclic (g : ir_graph) : Prop := ∀ v, ¬ tc (dep g) v v.

(** The out edges are the reverse of the dependency edges. *)
Definition edges_consistent (g : ir_graph) : Prop :=
  ∀ u d, u ∈ get_irn_outs g d ↔ d ∈ get_irn_ins g u.

(** All nodes that occur in the dependency structure. *)
Definition irg_nodes (g : ir_graph) : gset ir_node :=
  {[irg_ret g]} ∪ dom (irg_ins g) ∪
  ⋃ ((λ kl, list_to_set kl.2) <$> map_to_list (irg_ins g)).

(** The [index] field of the [pd_node] of a node. *)
Definition index_of (ph : gmap ir_node pd_node) (v : ir_node) : Z :=
  from_option index 0%Z (ph !! v).

(** The invariant of the post-order indexing: [B] is the set of nodes
    whose index has been assigned, [c] the next index. *)
Record post_inv (g : ir_graph) (st : pd_state) (c : Z) (B : gset ir_node)
  : Prop := mk_post_inv {
  pi_sub : B ⊆ visited st;
  pi_deps : ∀ b d, b ∈ B → dep g b d →
    d ∈ B ∧ (index_of (phase st) d < index_of (phase st) b)%Z;
  pi_range : ∀ b, b ∈ B →
    is_Some (phase st !! b) ∧ (0 ≤ index_of (phase st) b < c)%Z;
  pi_inj : ∀ b b', b ∈ B → b' ∈ B →
    index_of (phase st) b = index_of (phase st) b' → b = b';
  pi_count : c = Z.of_nat (size B);
  pi_fresh : ∀ v pv, phase st !! v = Some pv →
    (v ∈ B ∨ v = irg_ret g) ∧ irn pv = Some v ∧ parent pv = None ∧
    children pv = [] ∧ (defined pv = true ↔ v = irg_ret g);
  pi_root : is_Some (phase st !! irg_ret g);
  pi_reach : ∀ v, v ∈ visited st → reachable g v
}.

(** A rank that decreases along dependencies, checked on the edge map. *)
Definition rank_ok (rk : ir_node → nat) (g : ir_graph) : bool :=
  forallb (λ ul, forallb (λ d, rk d <? rk ul.1) ul.2)
          (map_to_list (irg_ins g)).

(** The edge maps mention each other's edges. *)
Definition edges_consistentb (g : ir_graph) : bool :=
  forallb (λ ul, forallb (λ d, bool_decide (ul.1 ∈ get_irn_outs g d)) ul.2)
          (map_to_list (irg_ins g)) &&
  forallb (λ dl, forallb (λ u, bool_decide (dl.1 ∈ get_irn_ins g u)) dl.2)
          (map_to_list (irg_outs g)).

(** A well-formed input: the sink is a Return, the dependencies are
    acyclic and the out edges mirror them. *)
Record well_formed (g : ir_graph) : Prop := mk_well_formed {
  wf_return : is_Return g (irg_ret g) = true;
  wf_acyclic : acyclic g;
  wf_edges : edges_consistent g
}.

(** The edges of the tree under construction. *)
Definition parent_edge (ph : gmap ir_node pd_node) (v p : ir_node) : Prop :=
  ∃ pv, ph !! v = Some pv ∧ parent pv = Some p.
Definition child_edge (ph : gmap ir_node pd_node) (p c : ir_node) : Prop :=
  ∃ pp, ph !! p = Some pp ∧ c ∈ children pp.

(** What the post-order indexing establishes and the solver never
    changes. *)
Record indexed (g : ir_graph) (ph : gmap ir_node pd_node) : Prop := mk_indexed {
  ix_dom : ∀ v, is_Some (ph !! v) ↔ reachable g v;
  ix_irn : ∀ v pv, ph !! v = Some pv → irn pv = Some v;
  ix_inj : ∀ v w, is_Some (ph !! v) → is_Some (ph !! w) →
    index_of ph v = index_of ph w → v = w;
  ix_range : ∀ v, is_Some (ph !! v) →
    (0 ≤ index_of ph v ≤ index_of ph (irg_ret g))%Z;
  ix_root : (index_of ph (irg_ret g) < Z.of_nat (size (irg_nodes g)))%Z;
  ix_dep : ∀ u d, is_Some (ph !! u) → dep g u d →
    is_Some (ph !! d) ∧ (index_of ph d < index_of ph u)%Z
}.

(** The shape of the tree under construction; [rk] is a rank that
    grows towards the root. *)
Record tree_shape (rk : ir_node → Z) (rt : ir_node)
    (ph : gmap ir_node pd_node) : Prop := mk_tree_shape {
  ts_root : ∃ pr, ph !! rt = Some pr ∧ parent pr = None ∧ defined pr = true;
  ts_parent : ∀ v pv p, ph !! v = Some pv → parent pv = Some p →
    defined pv = true ∧
    (∃ pp, ph !! p = Some pp ∧ defined pp = true) ∧ (rk v < rk p)%Z;
  ts_defined : ∀ v pv, ph !! v = Some pv → defined pv = true →
    v = rt ∨ is_Some (parent pv);
  ts_children : ∀ p pp, ph !! p = Some pp →
    NoDup (children pp) ∧ ∀ c, c ∈ children pp ↔ parent_edge ph c p
}.

(** The invariant of the solver. *)
Definition solver_inv (g : ir_graph) (ph : gmap ir_node pd_node) : Prop :=
  indexed g ph ∧ tree_shape (index_of ph) (irg_ret g) ph.

(** The [pd_node] of [k] after [n] has been moved from its old parent
    [old] (if any) to [p] and marked as defined. *)
Definition reparent_node (n p : ir_node) (old : option ir_node)
    (k : ir_node) (pk : pd_node) : pd_node :=
  if decide (k = n) then set_defined true (set_parent (Some p) pk)
  else if decide (k = p) then
    set_children (plist_insert_back (children pk) n) pk
  else if decide (old = Some k) then
    set_children
      (plist_erase (children pk)
         (default 0 (plist_find_value (children pk) n))) pk
  else pk.

(** Two phases hold the same nodes with the same [irn] and [index]. *)
Definition same_index (ph ph' : gmap ir_node pd_node) : Prop :=
  ∀ k, option_Forall2 (λ a b, irn b = irn a ∧ index b = index a)
         (ph !! k) (ph' !! k).

(** The phases that occur during construction: the one the post-order
    indexing leaves, and those that steps of the solver (on any node,
    in any order) make of them. *)
Inductive construction_state (g : ir_graph)
  : gmap ir_node pd_node → Prop :=
| cs_indexed fuel st c :
    pd_compute_indices_post fuel g (inc_irg_visited (pd_init_root g))
      (irg_ret g) 0 = Done (st, c) →
    construction_state g (phase st)
| cs_step fuel ph n ph' ch :
    construction_state g ph →
    pd_compute_node fuel g (irg_ret g) ph n = Done (ph', ch) →
    construction_state g ph'.

(** The node has a [pd_node] that is marked as defined. *)
Definition defined_at (ph : gmap ir_node pd_node) (v : ir_node) : Prop :=
  ∃ pv, ph !! v = Some pv ∧ defined pv = true.

(** The fields that the intersection walk reads. *)
Definition same_links (a b : pd_node) : Prop :=
  defined b = defined a ∧ index b = index a ∧ parent b = parent a.

(** Two phases agree on what the walk reads at the nodes of [S]. *)
Definition agree_on (S : gset ir_node) (ph ph' : gmap ir_node pd_node) : Prop :=
  ∀ k, k ∈ S → option_Forall2 same_links (ph !! k) (ph' !! k).

(** [S] is closed under taking parents. *)
Definition parent_closed (S : gset ir_node) (ph : gmap ir_node pd_node) : Prop :=
  ∀ v p, v ∈ S → parent_edge ph v p → p ∈ S.

(** The nodes of [S] have reached their final place: [S] holds the
    root, is closed under taking uses that have a [pd_node], and the
    solver recomputes for each node of [S] the parent the node already
    has, which is in [S] again. *)
Record settled (loops : nat) (g : ir_graph) (ph : gmap ir_node pd_node)
    (S : gset ir_node) : Prop := mk_settled {
  se_root : irg_ret g ∈ S;
  se_shadow : ∀ v, v ∈ S → is_Some (ph !! v);
  se_users : ∀ v u, v ∈ S → v ≠ irg_ret g → u ∈ get_irn_outs g v →
    is_Some (ph !! u) → u ∈ S;
  se_stable : ∀ v pv, v ∈ S → v ≠ irg_ret g → ph !! v = Some pv →
    ∃ p, pd_new_idom loops g ph v = Done p ∧ parent pv = Some p ∧ p ∈ S
}.

(** The uses of a node are in [S] or have no [pd_node]. *)
Definition uses_in (S : gset ir_node) (ph ph' : gmap ir_node pd_node)
    (uses : list ir_node) : Prop :=
  ∀ u, u ∈ uses → u ∈ S ∨ (ph !! u = None ∧ ph' !! u = None).

(** The [max_index] field of the [pd_node] of a node. *)
Definition max_index_of (ph : gmap ir_node pd_node) (v : ir_node) : Z :=
  from_option max_index 0%Z (ph !! v).

(** Two phases hold the same tree: they differ in [index] and
    [max_index] at most. *)
Definition same_tree (ph ph' : gmap ir_node pd_node) : Prop :=
  ∀ k, option_Forall2
         (λ a b, irn b = irn a ∧ defined b = defined a ∧
                 children b = children a ∧ parent b = parent a)
         (ph !! k) (ph' !! k).

(** The interval of [k] lies within [lo .. hi]. *)
Definition interval_in (ph : gmap ir_node pd_node) (lo hi : Z) (k : ir_node)
  : Prop :=
  (lo ≤ index_of ph k ∧ index_of ph k ≤ max_index_of ph k ∧
   max_index_of ph k ≤ hi)%Z.

(** The interval of the child [k] lies within that of [p], behind the
    index of [p]. *)
Definition nested (ph : gmap ir_node pd_node) (p k : ir_node) : Prop :=
  (index_of ph p < index_of ph k ∧
   max_index_of ph k ≤ max_index_of ph p)%Z.

(** What the indexing of the subtree of [v], started with counter [c]
    in phase [ph] and returning counter [c'] and phase [ph'],
    establishes.  [ph0] fixes the tree. *)
Record dom_indexed (ph0 ph ph' : gmap ir_node pd_node) (v : ir_node)
    (c c' : Z) : Prop := mk_dom_indexed {
  di_same : same_tree ph0 ph';
  di_frame : ∀ k, ¬ rtc (parent_edge ph0) k v → ph' !! k = ph !! k;
  di_index : index_of ph' v = c;
  di_max_index : max_index_of ph' v = c';
  di_range : ∀ k, rtc (parent_edge ph0) k v →
    interval_in ph' c c' k ∧ (k ≠ v → (c < index_of ph' k)%Z);
  di_nested : ∀ k p, rtc (parent_edge ph0) p v → parent_edge ph0 k p →
    nested ph' p k;
  di_sep : ∀ x y, rtc (parent_edge ph0) x v → rtc (parent_edge ph0) y v →
    (index_of ph' x ≤ index_of ph' y ≤ max_index_of ph' x)%Z →
    rtc (parent_edge ph0) y x
}.

(** The state of the loop over the children in
    [pd_compute_indices_dom]: the subtrees of the children in [done]
    are indexed. *)
Record dom_loop_inv (ph0 ph1 phA : gmap ir_node pd_node)
    (done : list ir_node) (c cA : Z) : Prop := mk_dom_loop_inv {
  dl_le : (c ≤ cA)%Z;
  dl_frame : ∀ k, (∀ ch, ch ∈ done → ¬ rtc (parent_edge ph0) k ch) →
    phA !! k = ph1 !! k;
  dl_range : ∀ ch k, ch ∈ done → rtc (parent_edge ph0) k ch →
    interval_in phA (c + 1) cA k;
  dl_nested : ∀ ch k p, ch ∈ done → rtc (parent_edge ph0) p ch →
    parent_edge ph0 k p → nested phA p k;
  dl_sep : ∀ ch ch' x y, ch ∈ done → ch' ∈ done →
    rtc (parent_edge ph0) x ch → rtc (parent_edge ph0) y ch' →
    (index_of phA x ≤ index_of phA y ≤ max_index_of phA x)%Z →
    rtc (parent_edge ph0) y x
}.

(** What [pd_init] returns for a well-formed graph: the root is the
    sink, and the phase is the indexing, from the root with counter 0,
    of a phase [ph] that the solver left, in which every reachable node
    is defined. *)
Record built (g : ir_graph) (pdt : pd_tree) (ph : gmap ir_node pd_node)
    (last : Z) : Prop := mk_built {
  bt_root : root pdt = irg_ret g;
  bt_state : construction_state g ph;
  bt_defined : ∀ v, reachable g v → defined_at ph v;
  bt_indexed : dom_indexed ph ph (tree_phase pdt) (irg_ret g) 0 last
}.

(** [n] calls of [pd_children_iter_next] in a row: the nodes they return
    and the iterator they leave. *)
Fixpoint pd_children_iter_nexts (pdt : pd_tree) (n : nat)
    (it : pd_children_iter)
  : result (list (option ir_node) * pd_children_iter) :=
  match n with
  | O => Done ([], it)
  | S n =>
      '(x, it) ← pd_children_iter_next pdt it;
      '(xs, it) ← pd_children_iter_nexts pdt n it;
      Done (x :: xs, it)
  end.

(** [pd_dump_node(pdn, f, indent)].  The text of a line is determined
    by the indentation and by the node whose operation name and node
    number are printed; the stream [f] is modelled by the list of these
    pairs, one per line written. *)
Fixpoint pd_dump_node (fuel : nat) (ph : gmap ir_node pd_node)
    (pdn : ir_node) (indent : Z) (f : list (Z * ir_node))
  : result (list (Z * ir_node)) :=
  match fuel with
  | O => OutOfFuel
  | S fuel =>
      n ← deref ph pdn;
      i ← match irn n with Some i => Done i | None => Fault end;
      let f := f ++ [(indent, i)] in
      for_each (λ f it, pd_dump_node fuel ph it (indent + 1)%Z f)
               f (children n)
  end.

(** [pd_dump(pdt, f)] *)
Definition pd_dump (fuel : nat) (pdt : pd_tree) (f : list (Z * ir_node))
  : result (list (Z * ir_node)) :=
  pd_dump_node fuel (tree_phase pdt) (root pdt) 0 f.

(** What the dump of the subtree of [v] appends to the stream: a line
    for [v] first, and one line for each node of the subtree, indented
    by its depth below [v]. *)
Record dumped (ph : gmap ir_node pd_node) (v : ir_node) (indent : Z)
    (L : list (Z * ir_node)) : Prop := mk_dumped {
  du_nodup : NoDup L.*2;
  du_nodes : ∀ k, k ∈ L.*2 ↔ rtc (parent_edge ph) k v;
  du_depth : ∀ d k, (d, k) ∈ L →
    ∃ m, nsteps (parent_edge ph) m k v ∧ d = (indent + Z.of_nat m)%Z
}.

(** The lines written for the children in [done] of [v]. *)
Definition dumped_children (ph : gmap ir_node pd_node) (v : ir_node)
    (indent : Z) (done : list ir_node) (L : list (Z * ir_node)) : Prop :=
  NoDup L.*2 ∧
  (∀ k, k ∈ L.*2 ↔ ∃ ch, ch ∈ done ∧ rtc (parent_edge ph) k ch) ∧
  (∀ d k, (d, k) ∈ L →
     ∃ m, nsteps (parent_edge ph) m k v ∧ d = (indent + Z.of_nat m)%Z).

(** Two nodes that depend on each other below the sink. *)
Definition cyclic_graph : ir_graph :=
  mk_ir_graph 0 {[0]} (list_to_map [(0, [1]); (1, [2]); (2, [1])])
    (list_to_map [(1, [0; 2]); (2, [1])]).

(** The uses that have a [pd_node]. *)
Definition uses_with_data (ph : gmap ir_node pd_node) (uses : list ir_node)
  : list ir_node :=
  filter (λ u, is_Some (ph !! u)) uses.



(** The largest and the smallest value of a C [int] (32 bits on the
    targets of libfirm). *)
Definition INT_MAX : Z := 2147483647.
Definition INT_MIN : Z := (-2147483648).

(** ** Basic facts about the outcome monad *)

Lemma bind_Done {A B} (m : result A) (f : A → result B) b :
  m ≫= f = Done b ↔ ∃ a, m = Done a ∧ f a = Done b.
Proof.
  destruct m; simpl; split; try (intros [? [? ?]]); try done; eauto.
  by simplify_eq.
Qed.

Lemma bind_Done_l {A B} (a : A) (f : A → result B) : Done a ≫= f = f a.
Proof. done. Qed.

Lemma for_each_inv {A S} (I : S → Prop) (body : S → A → result S) l s s' :
  for_each body s l = Done s' →
  I s →
  (∀ s x s', x ∈ l → I s → body s x = Done s' → I s') →
  I s'.
Proof.
  revert s. induction l as [|x l IH]; intros s Hrun Hs Hbody.
  - simpl in Hrun. by simplify_eq.
  - simpl in Hrun. apply bind_Done in Hrun as (s1 & Hx & Hrun).
    eapply IH; [done| |].
    + eapply Hbody; [apply list_elem_of_here|done..].
    + intros ? ? ? ?. apply Hbody. by apply list_elem_of_further.
Qed.

Lemma deref_Done ph p n : deref ph p = Done n ↔ ph !! p = Some n.
Proof. unfold deref. destruct (ph !! p); naive_solver. Qed.

(** ** Queries on a built tree *)

(** The tree of a sink without dependencies. *)
Lemma pd_init_root_eq g :
  pd_init_root g =
    mk_pd_state ∅ {[irg_ret g := mk_pd_node (Some (irg_ret g)) true 0 0 [] None]}.
Proof.
  unfold pd_init_root, phase_get_or_set_irn_data.
  rewrite lookup_empty, insert_empty, alter_singleton_eq. done.
Qed.

Lemma pd_init_single fuel g :
  is_Return g (irg_ret g) = true →
  get_irn_ins g (irg_ret g) = [] →
  pd_init (S fuel) g =
    Done (mk_pd_tree (irg_ret g)
            {[irg_ret g := mk_pd_node (Some (irg_ret g)) true 0 0 [] None]}).
Proof.
  intros Hret Hins. unfold pd_init. rewrite Hret, pd_init_root_eq.
  set (r := irg_ret g) in *.
  set (n0 := mk_pd_node (Some r) true 0 0 [] None).
  assert (Hpost : pd_compute_indices_post (S fuel) g
                    (inc_irg_visited (mk_pd_state ∅ {[r := n0]})) r 0
                  = Done (mk_pd_state ({[r]} ∪ ∅) {[r := n0]}, 1%Z)).
  { simpl. unfold irn_visited. simpl.
    rewrite bool_decide_eq_false_2 by set_solver.
    rewrite Hins. simpl.
    unfold phase_get_or_set_irn_data, deref.
    by repeat (rewrite ?lookup_singleton_eq, ?insert_singleton_eq; simpl). }
  assert (Hloop : ∀ V, pd_init_loop (S fuel) (S fuel) g r
                    (mk_pd_state V {[r := n0]})
                  = Done (mk_pd_state ({[r]} ∪ ∅) {[r := n0]})).
  { intros V. simpl. unfold irn_visited. simpl.
    rewrite bool_decide_eq_false_2 by set_solver.
    unfold pd_compute_node, deref. rewrite lookup_singleton_eq. simpl.
    rewrite bool_decide_eq_false_2 by (intros H; by apply H).
    simpl. fold r. by rewrite Hins. }
  assert (Hdom : pd_compute_indices_dom (S fuel) {[r := n0]} r 0
                 = Done ({[r := n0]}, 0%Z)).
  { simpl. unfold deref.
    by repeat (rewrite ?lookup_singleton_eq, ?insert_singleton_eq; simpl). }
  unfold assert. rewrite bind_Done_l.
  cbv zeta. rewrite Hpost, bind_Done_l. cbv beta iota.
  rewrite Hloop, bind_Done_l. cbv beta iota.
  simpl phase. by rewrite Hdom.
Qed.

(** C8: for a graph whose sink has no dependencies (and so no node that
    could use it is reached), construction succeeds, the tree holds the
    root alone, the root has no children and dominates itself. *)
Theorem pd_init_single_node fuel g :
  is_Return g (irg_ret g) = true →
  get_irn_ins g (irg_ret g) = [] →
  ∃ pdt,
    pd_init (S fuel) g = Done pdt ∧
    root pdt = irg_ret g ∧
    dom (tree_phase pdt) = {[irg_ret g]} ∧
    pd_get_parent pdt (root pdt) = Done None ∧
    pd_get_children_count pdt (root pdt) = Done 0%Z ∧
    pd_children_iter_init pdt (root pdt) = Done [] ∧
    pd_dominates pdt (root pdt) (root pdt) = Done true.
Proof.
  intros Hret Hins. eexists. split; [by apply pd_init_single|]. simpl.
  split; [done|]. split; [by rewrite dom_singleton_L|].
  unfold pd_get_parent, pd_get_children_count, pd_children_iter_init,
    pd_dominates, phase_get_irn_data. simpl.
  by rewrite lookup_singleton_eq.
Qed.

Lemma pd_init_single_node_witness :
  ∃ pdt,
    pd_init 1 (mk_ir_graph 0 {[0]} ∅ ∅) = Done pdt ∧
    root pdt = 0 ∧
    dom (tree_phase pdt) = {[0]} ∧
    pd_get_parent pdt (root pdt) = Done None ∧
    pd_get_children_count pdt (root pdt) = Done 0%Z ∧
    pd_children_iter_init pdt (root pdt) = Done [] ∧
    pd_dominates pdt (root pdt) (root pdt) = Done true.
Proof.
  apply (pd_init_single_node 0 (mk_ir_graph 0 {[0]} ∅ ∅)); reflexivity.
Defined.

(** What C7 expects of the tree of a diamond graph. *)
Definition diamond_tree_ok (pdt : pd_tree) : Prop :=
  pd_get_parent pdt 1 = Done (Some 0) ∧
  pd_get_parent pdt 2 = Done (Some 0) ∧
  pd_get_parent pdt 3 = Done (Some 0) ∧
  pd_get_parent pdt 0 = Done None ∧
  pd_get_children_count pdt 0 = Done 3%Z ∧
  pd_get_children_count pdt 1 = Done 0%Z ∧
  pd_get_children_count pdt 2 = Done 0%Z ∧
  pd_dominates pdt 0 3 = Done true ∧
  pd_dominates pdt 1 3 = Done false ∧
  pd_dominates pdt 3 1 = Done false.

(** C7: in the graph where the sink R = 0 uses A = 1 and B = 2, and A
    and B both use C = 3, the nodes A, B and C all become children of R;
    R dominates C, A does not dominate C and C does not dominate A.
    This holds for either order of the operands of R and either order
    of the out edges of C. *)
Theorem pd_init_diamond :
  Forall (λ g, ∃ pdt, pd_init 4 g = Done pdt ∧ diamond_tree_ok pdt)
    [diamond [1; 2] [1; 2]; diamond [1; 2] [2; 1];
     diamond [2; 1] [1; 2]; diamond [2; 1] [2; 1]].
Proof.
  repeat apply Forall_cons_2; [..|apply Forall_nil_2];
    (eexists; split; [vm_compute; reflexivity|];
     unfold diamond_tree_ok; repeat split; vm_compute; reflexivity).
Qed.

(** C9: querying a node without a [pd_node] aborts on the assertion in
    [pd_get_parent], [pd_get_children_count] and
    [pd_children_iter_init], whereas [pd_dominates] has no assertion
    and reads through the null pointer. *)
Theorem pd_dominates_unchecked :
  ∃ pdt,
    pd_init 4 (diamond [1; 2] [1; 2]) = Done pdt ∧
    tree_phase pdt !! 7 = None ∧
    pd_get_parent pdt 7 = AssertFail ∧
    pd_get_children_count pdt 7 = AssertFail ∧
    pd_children_iter_init pdt 7 = AssertFail ∧
    pd_dominates pdt 0 7 = Fault ∧
    pd_dominates pdt 7 0 = Fault.
Proof. eexists. repeat split; vm_compute; reflexivity. Qed.

(** The state of the diamond graph after the post-order indexing. *)
Definition diamond_indexed : result (pd_state * Z) :=
  pd_compute_indices_post 4 (diamond [1; 2] [1; 2])
    (inc_irg_visited (pd_init_root (diamond [1; 2] [1; 2]))) 0 0.

(** ** The post-order indexing *)

Lemma index_of_insert ph k pk v :
  index_of (<[k := pk]> ph) v =
    if decide (k = v) then index pk else index_of ph v.
Proof.
  unfold index_of. rewrite lookup_insert. by destruct (decide (k = v)).
Qed.

Lemma phase_get_or_set_lookup ph n :
  phase_get_or_set_irn_data ph n !! n = Some (default pd_init_node (ph !! n)).
Proof.
  unfold phase_get_or_set_irn_data.
  destruct (ph !! n) eqn:E; simpl; [done|]. by rewrite lookup_insert_eq.
Qed.

Lemma phase_get_or_set_lookup_ne ph n k :
  n ≠ k → phase_get_or_set_irn_data ph n !! k = ph !! k.
Proof.
  intros. unfold phase_get_or_set_irn_data.
  destruct (ph !! n) eqn:E; simpl; [done|]. by rewrite lookup_insert_ne.
Qed.

Lemma post_inv_mark g st c B n :
  post_inv g st c B → reachable g n → post_inv g (mark_irn_visited st n) c B.
Proof.
  intros [] Hn. split; simpl; try done.
  - intros x Hx. apply elem_of_union. right. by apply pi_sub0.
  - intros v [->%elem_of_singleton|Hv]%elem_of_union; auto.
Qed.

(** Assigning the next index to a node all of whose dependencies have
    one. *)
Lemma post_inv_finish g st c B n pdn :
  post_inv g st c B →
  n ∈ visited st → n ∉ B →
  (∀ d, dep g n d → d ∈ B) →
  phase_get_or_set_irn_data (phase st) n !! n = Some pdn →
  post_inv g
    (mk_pd_state (visited st)
       (<[n := set_index c (set_irn (Some n) pdn)]>
          (phase_get_or_set_irn_data (phase st) n)))
    (c + 1) (B ∪ {[n]}).
Proof.
  intros [] Hvis HnB Hdeps Hpdn.
  assert (Hne : ∀ b, b ∈ B → n ≠ b) by (intros b Hb ->; done).
  assert (Hidx : ∀ b, n ≠ b →
    index_of (<[n := set_index c (set_irn (Some n) pdn)]>
                (phase_get_or_set_irn_data (phase st) n)) b
    = index_of (phase st) b).
  { intros b Hb. rewrite index_of_insert, decide_False by done.
    unfold index_of. by rewrite phase_get_or_set_lookup_ne. }
  assert (Hidxn :
    index_of (<[n := set_index c (set_irn (Some n) pdn)]>
                (phase_get_or_set_irn_data (phase st) n)) n = c).
  { by rewrite index_of_insert, decide_True. }
  split; simpl.
  - intros x [Hx| ->%elem_of_singleton]%elem_of_union; auto.
  - intros b d [Hb| ->%elem_of_singleton]%elem_of_union Hd.
    + destruct (pi_deps0 b d Hb Hd) as [HdB Hlt].
      split; [apply elem_of_union; auto|].
      rewrite !Hidx by auto. done.
    + pose proof (Hdeps d Hd) as HdB.
      split; [apply elem_of_union; auto|].
      rewrite Hidxn, Hidx by auto. apply pi_range0 in HdB. lia.
  - intros b [Hb| ->%elem_of_singleton]%elem_of_union.
    + rewrite Hidx by auto. rewrite lookup_insert_ne by auto.
      rewrite phase_get_or_set_lookup_ne by auto.
      apply pi_range0 in Hb. split; [tauto|lia].
    + rewrite Hidxn, lookup_insert_eq. split; [eauto|].
      lia.
  - intros b b' [Hb| ->%elem_of_singleton]%elem_of_union
      [Hb'| ->%elem_of_singleton]%elem_of_union;
      rewrite ?Hidxn, ?Hidx by auto; auto.
    + intros E. apply pi_range0 in Hb. lia.
    + intros E. apply pi_range0 in Hb'. lia.
  - rewrite size_union, size_singleton by (apply disjoint_singleton_r; done).
    lia.
  - intros v pv. rewrite lookup_insert.
    destruct (decide (n = v)) as [<-|Hv].
    + intros [= <-]. simpl. split; [left; apply elem_of_union; right;
        by apply elem_of_singleton|].
      rewrite phase_get_or_set_lookup in Hpdn.
      destruct (phase st !! n) as [pn|] eqn:Hn; simpl in Hpdn;
        injection Hpdn as <-.
      * destruct (pi_fresh0 n pn Hn) as ([?| ->] & ? & ? & ? & ?); [done|].
        done.
      * simpl. repeat split; try done. intros ->.
        destruct pi_root0 as [? ?]; congruence.
    + rewrite phase_get_or_set_lookup_ne by done. intros Hpv.
      destruct (pi_fresh0 v pv Hpv) as ([?| ->] & ?); split; try done.
      * left. apply elem_of_union; auto.
      * by right.
  - rewrite lookup_insert. destruct (decide (n = irg_ret g)); [eauto|].
    by rewrite phase_get_or_set_lookup_ne.
  - done.
Qed.

Lemma irn_visited_true st n : irn_visited st n = true ↔ n ∈ visited st.
Proof. apply bool_decide_eq_true. Qed.

Lemma irn_visited_false st n : irn_visited st n = false ↔ n ∉ visited st.
Proof. apply bool_decide_eq_false. Qed.

(** The indexing of the nodes below [n], started when every node that
    is visited but not yet indexed has a dependency path to [n]. *)
Lemma pd_compute_indices_post_spec g fuel :
  acyclic g →
  ∀ st n c B st' c',
    pd_compute_indices_post fuel g st n c = Done (st', c') →
    post_inv g st c B →
    reachable g n →
    (∀ x, x ∈ visited st → x ∉ B → rtc (dep g) x n) →
    ∃ B', post_inv g st' c' B' ∧ B ⊆ B' ∧
          (∀ x, x ∈ visited st' ∧ x ∉ B' ↔ x ∈ visited st ∧ x ∉ B) ∧
          n ∈ visited st' ∧
          (n ∉ visited st →
             n ∈ B' ∧ index_of (phase st') n = (c' - 1)%Z).
Proof.
  intros Hac. induction fuel as [|fuel IH]; intros st n c B st' c' Hrun Hinv Hn Hgray;
    [done|].
  simpl in Hrun. destruct (irn_visited st n) eqn:Hvis.
  { apply irn_visited_true in Hvis. injection Hrun as <- <-.
    exists B. split_and!; auto. done. }
  apply irn_visited_false in Hvis.
  apply bind_Done in Hrun as ([st1 c1] & Hdeps & Hrun).
  apply bind_Done in Hrun as (pdn & Hpdn%deref_Done & Hrun).
  injection Hrun as <- <-.
  assert (Hfold : ∀ l stA cA BA,
    (∀ d, d ∈ l → dep g n d) →
    for_each (λ '(st, counter) dep,
                pd_compute_indices_post fuel g st dep counter)
             (stA, cA) l = Done (st1, c1) →
    post_inv g stA cA BA →
    (∀ x, x ∈ visited stA → x ∉ BA → rtc (dep g) x n) →
    ∃ B1, post_inv g st1 c1 B1 ∧ BA ⊆ B1 ∧
          (∀ x, x ∈ visited st1 ∧ x ∉ B1 ↔ x ∈ visited stA ∧ x ∉ BA) ∧
          (∀ d, d ∈ l → d ∈ visited st1)).
  { clear Hdeps Hinv Hgray Hpdn.
    induction l as [|d l IHl]; intros stA cA BA Hl Hrun HinvA HgrayA.
    - injection Hrun as <- <-. exists BA. split_and!; auto.
      intros d Hd. by apply elem_of_nil in Hd.
    - simpl in Hrun. apply bind_Done in Hrun as ([stB cB] & Hd & Hrun).
      assert (dep g n d) as Hnd by (apply Hl, list_elem_of_here).
      destruct (IH _ _ _ BA _ _ Hd HinvA) as (BB & HinvB & HsubB & HgrayB & HdB & _).
      { eapply rtc_r; done. }
      { intros x Hx HxB. eapply rtc_r; [by apply HgrayA|done]. }
      destruct (IHl stB cB BB) as (B1 & Hinv1 & Hsub1 & Hgray1 & Hl1); auto.
      { intros d' Hd'. by apply Hl, list_elem_of_further. }
      { intros x Hx HxB. apply HgrayA; by apply HgrayB. }
      exists B1. split_and!; auto.
      + etrans; done.
      + intros x. rewrite Hgray1. apply HgrayB.
      + intros d' [Heq|Hd']%elem_of_cons; [subst d'|by apply Hl1].
        destruct (decide (d ∈ B1)) as [Hin|Hout].
        * by apply (pi_sub _ _ _ _ Hinv1).
        * assert (d ∉ BB) as HoutB by (intros ?; by apply Hout, Hsub1).
          destruct (Hgray1 d) as [_ Hg]. by destruct Hg. }
  destruct (Hfold (get_irn_ins g n) (mark_irn_visited st n) c B)
    as (B1 & Hinv1 & Hsub1 & Hgray1 & Hl1); auto.
  { by apply post_inv_mark. }
  { simpl. intros x [->%elem_of_singleton|Hx]%elem_of_union HxB; [done|].
    by apply Hgray. }
  assert (n ∈ visited st1 ∧ n ∉ B1) as [Hn1 HnB1].
  { apply Hgray1. simpl. split; [apply elem_of_union; left;
      by apply elem_of_singleton|].
    intros HnB. by apply Hvis, (pi_sub _ _ _ _ Hinv). }
  assert (Hblack : ∀ d, dep g n d → d ∈ B1).
  { intros d Hd. destruct (decide (d ∈ B1)) as [|Hout]; [done|].
    destruct (Hgray1 d) as [Hg _]. destruct Hg as [Hg1 Hg2]; [by auto|].
    simpl in Hg1. exfalso. apply (Hac n).
    eapply tc_rtc_r; [by apply tc_once|].
    apply elem_of_union in Hg1 as [->%elem_of_singleton|Hg1]; [done|].
    by apply Hgray. }
  exists (B1 ∪ {[n]}). split_and!.
  - by apply post_inv_finish.
  - intros x Hx. apply elem_of_union. left. by apply Hsub1.
  - simpl. intros x. rewrite not_elem_of_union, not_elem_of_singleton.
    split.
    + intros (Hx & HxB & Hxn). destruct (Hgray1 x) as [Hg _].
      destruct Hg as [Hg1 Hg2]; [done|]. simpl in Hg1.
      apply elem_of_union in Hg1 as [?%elem_of_singleton|Hg1]; done.
    + intros [Hx HxB]. assert (x ≠ n) by (by intros ->).
      destruct (Hgray1 x) as [_ Hg]. destruct Hg as [Hg1 Hg2]; [|done].
      split; [|done]. simpl. apply elem_of_union; auto.
  - done.
  - intros _. split; [apply elem_of_union; right; by apply elem_of_singleton|].
    simpl. rewrite index_of_insert, decide_True by done. simpl. lia.
Qed.

Lemma irg_nodes_ret g : irg_ret g ∈ irg_nodes g.
Proof.
  unfold irg_nodes. apply elem_of_union; left. apply elem_of_union; left.
  by apply elem_of_singleton.
Qed.

Lemma irg_nodes_dep g u d : dep g u d → d ∈ irg_nodes g.
Proof.
  unfold dep, get_irn_ins. intros Hd.
  destruct (irg_ins g !! u) as [l|] eqn:Hu; simpl in Hd;
    [|by apply elem_of_nil in Hd].
  unfold irg_nodes. apply elem_of_union; right.
  apply elem_of_union_list. exists (list_to_set l). split.
  - apply list_elem_of_fmap. exists (u, l). split; [done|].
    by apply elem_of_map_to_list.
  - by apply elem_of_list_to_set.
Qed.

Lemma reachable_irg_nodes g v : reachable g v → v ∈ irg_nodes g.
Proof.
  intros H. apply rtc_inv_r in H as [<-|(u & _ & Hd)].
  - apply irg_nodes_ret.
  - by eapply irg_nodes_dep.
Qed.

Lemma size_difference_mark (U V : gset nat) n :
  n ∈ U → n ∉ V → size (U ∖ ({[n]} ∪ V)) < size (U ∖ V).
Proof.
  intros HU HV. apply subset_size. split.
  - intros x. rewrite !elem_of_difference, not_elem_of_union. tauto.
  - intros H. specialize (H n). rewrite !elem_of_difference in H.
    rewrite not_elem_of_union, not_elem_of_singleton in H. tauto.
Qed.

(** The indexing returns when the fuel exceeds the number of unvisited
    nodes. *)
Lemma pd_compute_indices_post_total g fuel :
  ∀ st n c,
    n ∈ irg_nodes g →
    size (irg_nodes g ∖ visited st) < fuel →
    ∃ st' c', pd_compute_indices_post fuel g st n c = Done (st', c') ∧
              visited st ⊆ visited st'.
Proof.
  induction fuel as [|fuel IH]; intros st n c Hn Hsize; [lia|].
  simpl. destruct (irn_visited st n) eqn:Hvis; [by eauto|].
  apply irn_visited_false in Hvis.
  pose proof (size_difference_mark _ _ _ Hn Hvis) as Hlt.
  assert (Hfold : ∀ l stA cA,
    (∀ d, d ∈ l → d ∈ irg_nodes g) →
    {[n]} ∪ visited st ⊆ visited stA →
    ∃ st1 c1,
      for_each (λ '(st, counter) dep,
                  pd_compute_indices_post fuel g st dep counter)
               (stA, cA) l = Done (st1, c1) ∧
      visited stA ⊆ visited st1).
  { induction l as [|d l IHl]; intros stA cA Hl Hsub; [by eauto|].
    simpl. destruct (IH stA d cA) as (stB & cB & -> & HsubB).
    { apply Hl, list_elem_of_here. }
    { assert (size (irg_nodes g ∖ visited stA)
              ≤ size (irg_nodes g ∖ ({[n]} ∪ visited st))); [|lia].
      apply subseteq_size. intros x. rewrite !elem_of_difference.
      intros [? Hx]; split; [done|]. intros ?; by apply Hx, Hsub. }
    rewrite bind_Done_l.
    destruct (IHl stB cB) as (st1 & c1 & -> & Hsub1).
    { intros d' Hd'. by apply Hl, list_elem_of_further. }
    { etrans; done. }
    exists st1, c1. split; [done|]. etrans; done. }
  destruct (Hfold (get_irn_ins g n) (mark_irn_visited st n) c)
    as (st1 & c1 & -> & Hsub1).
  { intros d Hd. by eapply irg_nodes_dep. }
  { done. }
  rewrite bind_Done_l. unfold deref. rewrite phase_get_or_set_lookup.
  rewrite bind_Done_l. eexists _, _. split; [done|]. simpl.
  intros x Hx. apply Hsub1. simpl. apply elem_of_union; auto.
Qed.

Lemma post_inv_init g :
  post_inv g (inc_irg_visited (pd_init_root g)) 0 ∅.
Proof.
  rewrite pd_init_root_eq. split; simpl; try done.
  - intros v pv [<- <-]%lookup_singleton_Some. simpl. split_and!; auto.
    done.
  - by rewrite lookup_singleton_eq.
Qed.

(** The outcome of the post-order indexing of the whole graph. *)
Lemma pd_compute_indices_post_done g fuel st c :
  acyclic g →
  pd_compute_indices_post fuel g (inc_irg_visited (pd_init_root g))
    (irg_ret g) 0 = Done (st, c) →
  ∃ R,
    c = Z.of_nat (size R) ∧
    post_inv g st (Z.of_nat (size R)) R ∧
    visited st = R ∧
    (∀ v, v ∈ R ↔ reachable g v) ∧
    index_of (phase st) (irg_ret g) = (Z.of_nat (size R) - 1)%Z.
Proof.
  intros Hac Hrun.
  destruct (pd_compute_indices_post_spec g fuel Hac _ _ _ ∅ _ _ Hrun)
    as (R & Hinv & _ & Hgray & Hret & Hidx).
  { apply post_inv_init. }
  { apply rtc_refl. }
  { simpl. intros x Hx. by apply not_elem_of_empty in Hx. }
  destruct Hidx as [HretR Hidx]; [simpl; apply not_elem_of_empty|].
  pose proof (pi_count _ _ _ _ Hinv) as ->.
  assert (visited st = R) as HR.
  { apply set_eq. intros x. split; [|by apply (pi_sub _ _ _ _ Hinv)].
    intros Hx. destruct (decide (x ∈ R)) as [|Hout]; [done|].
    destruct (Hgray x) as [Hg _]. destruct Hg as [Hg _]; [done|].
    simpl in Hg. by apply not_elem_of_empty in Hg. }
  exists R. split_and!; try done.
  intros v. split.
  - intros Hv. apply (pi_reach _ _ _ _ Hinv). by rewrite HR.
  - unfold reachable. revert v. apply rtc_ind_r; [done|].
    intros u d Hu Hd IHv. by apply (pi_deps _ _ _ _ Hinv u d).
Qed.

Lemma pd_compute_indices_post_init g fuel :
  acyclic g →
  size (irg_nodes g) < fuel →
  ∃ st R,
    pd_compute_indices_post fuel g (inc_irg_visited (pd_init_root g))
      (irg_ret g) 0 = Done (st, Z.of_nat (size R)) ∧
    post_inv g st (Z.of_nat (size R)) R ∧
    visited st = R ∧
    (∀ v, v ∈ R ↔ reachable g v) ∧
    index_of (phase st) (irg_ret g) = (Z.of_nat (size R) - 1)%Z.
Proof.
  intros Hac Hfuel.
  destruct (pd_compute_indices_post_total g fuel
              (inc_irg_visited (pd_init_root g)) (irg_ret g) 0)
    as (st & c & Hrun & _).
  { apply irg_nodes_ret. }
  { simpl. eapply Nat.le_lt_trans; [|done]. apply subseteq_size.
    intros x. rewrite elem_of_difference. tauto. }
  destruct (pd_compute_indices_post_done g fuel st c Hac Hrun)
    as (R & -> & ?). by exists st, R.
Qed.

(** C6: on an acyclic graph, the post-order indexing from the sink
    returns, marks exactly the nodes reachable from the sink via
    dependency edges, attaches a [pd_node] to exactly those, hands out
    one index per reachable node (the returned counter is their
    number), the indices of the reachable nodes form a permutation of
    [0 .. n-1], and the index of a node is larger than the indices of
    its dependencies. *)
Theorem pd_compute_indices_post_permutation g fuel :
  acyclic g →
  size (irg_nodes g) < fuel →
  ∃ st R,
    pd_compute_indices_post fuel g (inc_irg_visited (pd_init_root g))
      (irg_ret g) 0 = Done (st, Z.of_nat (size R)) ∧
    (∀ v, v ∈ R ↔ reachable g v) ∧
    visited st = R ∧
    dom (phase st) = R ∧
    index_of (phase st) <$> elements R ≡ₚ seqZ 0 (Z.of_nat (size R)) ∧
    (∀ v pv, phase st !! v = Some pv → irn pv = Some v) ∧
    (∀ u d, reachable g u → dep g u d →
            (index_of (phase st) d < index_of (phase st) u)%Z).
Proof.
  intros Hac Hfuel.
  destruct (pd_compute_indices_post_init g fuel Hac Hfuel)
    as (st & R & Hrun & Hinv & Hvis & HR & Hroot).
  exists st, R. split_and!; try done.
  - apply set_eq. intros v. rewrite elem_of_dom. split.
    + intros [pv Hpv]. destruct (pi_fresh _ _ _ _ Hinv v pv Hpv) as ([?| ->] & _);
        [done|]. apply HR, rtc_refl.
    + intros Hv. by apply (pi_range _ _ _ _ Hinv).
  - apply submseteq_length_Permutation.
    + apply NoDup_submseteq.
      * apply NoDup_fmap_2_strong; [|apply NoDup_elements].
        intros x y Hx%elem_of_elements Hy%elem_of_elements.
        by apply (pi_inj _ _ _ _ Hinv).
      * intros i (v & -> & Hv%elem_of_elements)%list_elem_of_fmap.
        apply elem_of_seqZ. apply (pi_range _ _ _ _ Hinv) in Hv. lia.
    + rewrite length_fmap, length_seqZ. unfold size, set_size. simpl. lia.
  - intros v pv Hpv. by apply (pi_fresh _ _ _ _ Hinv v pv Hpv).
  - intros u d Hu%HR Hd. by apply (pi_deps _ _ _ _ Hinv u d).
Qed.

(** ** Checking that a graph is well formed *)

Lemma rank_ok_dep rk g u d : rank_ok rk g = true → dep g u d → rk d < rk u.
Proof.
  unfold rank_ok, dep, get_irn_ins. intros Hok Hd.
  destruct (irg_ins g !! u) as [l|] eqn:Hu; simpl in Hd;
    [|by apply elem_of_nil in Hd].
  rewrite forallb_forall in Hok.
  specialize (Hok (u, l)). simpl in Hok.
  rewrite forallb_forall in Hok.
  apply Nat.ltb_lt, Hok; [|by apply list_elem_of_In].
  by apply list_elem_of_In, elem_of_map_to_list.
Qed.

Lemma rank_acyclic (rk : nat → nat) g :
  (∀ u d, dep g u d → rk d < rk u) → acyclic g.
Proof.
  intros Hrk v Hv.
  assert (∀ x y, tc (dep g) x y → rk y < rk x) as Htc.
  { induction 1 as [x y H|x y z H _ IH]; [by apply Hrk|].
    apply Hrk in H. lia. }
  apply Htc in Hv. lia.
Qed.

Lemma rank_ok_acyclic rk g : rank_ok rk g = true → acyclic g.
Proof. intros Hok. apply (rank_acyclic rk). intros u d. by apply rank_ok_dep. Qed.

Lemma edges_consistentb_spec g :
  edges_consistentb g = true → edges_consistent g.
Proof.
  unfold edges_consistentb. rewrite andb_true_iff, !forallb_forall.
  intros [Hin Hout] u d. unfold get_irn_outs at 1, get_irn_ins at 1. split.
  - intros Hu. destruct (irg_outs g !! d) as [l|] eqn:Hd; simpl in Hu;
      [|by apply elem_of_nil in Hu].
    specialize (Hout (d, l)). simpl in Hout. rewrite forallb_forall in Hout.
    eapply bool_decide_eq_true, Hout; [|by apply list_elem_of_In].
    by apply list_elem_of_In, elem_of_map_to_list.
  - intros Hd. destruct (irg_ins g !! u) as [l|] eqn:Hu; simpl in Hd;
      [|by apply elem_of_nil in Hd].
    specialize (Hin (u, l)). simpl in Hin. rewrite forallb_forall in Hin.
    eapply bool_decide_eq_true, Hin; [|by apply list_elem_of_In].
    by apply list_elem_of_In, elem_of_map_to_list.
Qed.

Lemma well_formed_check rk g :
  is_Return g (irg_ret g) = true →
  rank_ok rk g = true →
  edges_consistentb g = true →
  well_formed g.
Proof.
  intros. split; [done|by eapply rank_ok_acyclic|by apply edges_consistentb_spec].
Qed.

(** The diamond graphs are well formed. *)
Lemma diamond_well_formed : well_formed (diamond [1; 2] [1; 2]).
Proof. apply (well_formed_check (λ v, 3 - v)); vm_compute; reflexivity. Qed.

Lemma pd_compute_indices_post_permutation_witness :
  ∃ st R,
    pd_compute_indices_post 6 (diamond [1; 2] [1; 2])
      (inc_irg_visited (pd_init_root (diamond [1; 2] [1; 2])))
      (irg_ret (diamond [1; 2] [1; 2])) 0 = Done (st, Z.of_nat (size R)) ∧
    (∀ v, v ∈ R ↔ reachable (diamond [1; 2] [1; 2]) v) ∧
    visited st = R ∧
    dom (phase st) = R ∧
    index_of (phase st) <$> elements R ≡ₚ seqZ 0 (Z.of_nat (size R)) ∧
    (∀ v pv, phase st !! v = Some pv → irn pv = Some v) ∧
    (∀ u d, reachable (diamond [1; 2] [1; 2]) u →
            dep (diamond [1; 2] [1; 2]) u d →
            (index_of (phase st) d < index_of (phase st) u)%Z).
Proof.
  apply (pd_compute_indices_post_permutation (diamond [1; 2] [1; 2]) 6).
  - apply (rank_ok_acyclic (λ v, 3 - v)). vm_compute; reflexivity.
  - vm_compute. lia.
Defined.

(** ** The state handed to the solver *)

Lemma post_inv_solver_inv g st R :
  post_inv g st (Z.of_nat (size R)) R →
  (∀ v, v ∈ R ↔ reachable g v) →
  index_of (phase st) (irg_ret g) = (Z.of_nat (size R) - 1)%Z →
  solver_inv g (phase st).
Proof.
  intros Hinv HR Hroot.
  assert (irg_ret g ∈ R) as HretR by apply HR, rtc_refl.
  assert (∀ v, is_Some (phase st !! v) → v ∈ R) as HdomR.
  { intros v [pv Hpv].
    by destruct (pi_fresh _ _ _ _ Hinv v pv Hpv) as ([?| ->] & _). }
  split; split.
  - intros v. split; [by intros ?%HdomR%HR|].
    intros Hv%HR. by apply (pi_range _ _ _ _ Hinv).
  - intros v pv Hpv. by apply (pi_fresh _ _ _ _ Hinv v pv Hpv).
  - intros v w Hv%HdomR Hw%HdomR. by apply (pi_inj _ _ _ _ Hinv).
  - intros v Hv%HdomR. rewrite Hroot.
    apply (pi_range _ _ _ _ Hinv) in Hv. lia.
  - rewrite Hroot.
    assert (size R ≤ size (irg_nodes g)); [|lia].
    apply subseteq_size. intros v Hv%HR. by apply reachable_irg_nodes.
  - intros u d Hu%HdomR Hd.
    destruct (pi_deps _ _ _ _ Hinv u d Hu Hd) as [HdR Hlt].
    split; [|done]. by apply (pi_range _ _ _ _ Hinv).
  - destruct (pi_root _ _ _ _ Hinv) as [pr Hpr]. exists pr.
    destruct (pi_fresh _ _ _ _ Hinv _ pr Hpr) as (_ & _ & ? & _ & Hdef).
    split_and!; [done..|]. by apply Hdef.
  - intros v pv p Hpv Hp.
    destruct (pi_fresh _ _ _ _ Hinv _ pv Hpv) as (_ & _ & ? & _). congruence.
  - intros v pv Hpv Hdef.
    destruct (pi_fresh _ _ _ _ Hinv _ pv Hpv) as (_ & _ & _ & _ & Hd).
    left. by apply Hd.
  - intros p pp Hpp.
    destruct (pi_fresh _ _ _ _ Hinv _ pp Hpp) as (_ & _ & _ & -> & _).
    split; [apply NoDup_nil_2|]. intros c. split.
    + by intros ?%elem_of_nil.
    + intros (pc & Hpc & Hc).
      destruct (pi_fresh _ _ _ _ Hinv _ pc Hpc) as (_ & _ & ? & _). congruence.
Qed.

(** ** The intersection walk: what it returns *)

Lemma index_of_lookup ph v pv : ph !! v = Some pv → index_of ph v = index pv.
Proof. unfold index_of. by intros ->. Qed.

Lemma pd_climb_spec ph fuel :
  ∀ x y x',
    pd_climb fuel ph x y = Done x' →
    rtc (parent_edge ph) x x' ∧ is_Some (ph !! x') ∧ is_Some (ph !! y) ∧
    (index_of ph y ≤ index_of ph x')%Z.
Proof.
  induction fuel as [|fuel IH]; intros x y x' Hrun; [done|].
  simpl in Hrun.
  apply bind_Done in Hrun as (xn & Hx%deref_Done & Hrun).
  apply bind_Done in Hrun as (yn & Hy%deref_Done & Hrun).
  case_bool_decide as Hlt.
  - destruct (parent xn) as [p|] eqn:Hp; [|done].
    destruct (IH _ _ _ Hrun) as (Hrtc & ? & ? & ?).
    split_and!; try done. eapply rtc_l; [|done]. by exists xn.
  - injection Hrun as <-.
    rewrite (index_of_lookup _ _ _ Hx), (index_of_lookup _ _ _ Hy).
    split_and!; eauto; [done|lia].
Qed.

Lemma pd_compute_intersect_spec ph fuel :
  ∀ lhs rhs r,
    pd_compute_intersect fuel ph lhs rhs = Done r →
    rtc (parent_edge ph) lhs r ∧ rtc (parent_edge ph) rhs r.
Proof.
  induction fuel as [|fuel IH]; intros lhs rhs r Hrun; [done|].
  simpl in Hrun. case_bool_decide as Hne.
  - apply bind_Done in Hrun as (lhs' & Hl & Hrun).
    apply bind_Done in Hrun as (rhs' & Hr & Hrun).
    apply pd_climb_spec in Hl as (Hl & _). apply pd_climb_spec in Hr as (Hr & _).
    destruct (IH _ _ _ Hrun). split; etrans; done.
  - injection Hrun as <-. by subst rhs.
Qed.

Lemma pd_find_idom_Some ph uses u :
  pd_find_idom ph uses = Some u →
  u ∈ uses ∧ ∃ pu, ph !! u = Some pu ∧ defined pu = true.
Proof.
  induction uses as [|s uses IH]; [done|]. simpl. unfold phase_get_irn_data.
  destruct (ph !! s) as [ps|] eqn:Hs.
  - destruct (defined ps) eqn:Hdef.
    + intros [= <-]. split; [apply list_elem_of_here|eauto].
    + intros [? ?]%IH. split; [by apply list_elem_of_further|done].
  - intros [? ?]%IH. split; [by apply list_elem_of_further|done].
Qed.

Lemma pd_intersect_uses_spec ph fuel uses :
  ∀ pd_idom r,
    pd_intersect_uses fuel ph uses pd_idom = Done r →
    rtc (parent_edge ph) pd_idom r.
Proof.
  unfold pd_intersect_uses.
  induction uses as [|s uses IH]; intros pd_idom r Hrun.
  - by injection Hrun as <-.
  - simpl in Hrun. apply bind_Done in Hrun as (q & Hq & Hrun).
    apply IH in Hrun. etrans; [|done].
    unfold phase_get_irn_data in Hq. destruct (ph !! s) as [ps|].
    + destruct (bool_decide (s ≠ pd_idom) && defined ps).
      * by apply pd_compute_intersect_spec in Hq as [_ ?].
      * by injection Hq as <-.
    + by injection Hq as <-.
Qed.

(** The candidate is a tree ancestor (or the node itself) of a defined
    use. *)
Lemma pd_new_idom_spec fuel g ph n p :
  pd_new_idom fuel g ph n = Done p →
  ∃ u pu, u ∈ get_irn_outs g n ∧ ph !! u = Some pu ∧ defined pu = true ∧
          rtc (parent_edge ph) u p.
Proof.
  unfold pd_new_idom.
  destruct (pd_find_idom ph (get_irn_outs g n)) as [u|] eqn:Hu; [|done].
  intros Hrun%pd_intersect_uses_spec.
  apply pd_find_idom_Some in Hu as (? & pu & ? & ?). by exists u, pu.
Qed.

(** Walking up from a defined node stays among defined nodes and does
    not decrease the rank. *)
Lemma tree_shape_ancestor rk rt ph v a :
  tree_shape rk rt ph →
  rtc (parent_edge ph) v a →
  (∃ pv, ph !! v = Some pv ∧ defined pv = true) →
  (∃ pa, ph !! a = Some pa ∧ defined pa = true) ∧ (rk v ≤ rk a)%Z.
Proof.
  intros Hts. induction 1 as [|v w a (pv & Hpv & Hw) _ IH]; intros Hv.
  - split; [done|lia].
  - destruct (ts_parent _ _ _ Hts v pv w Hpv Hw) as (_ & Hpw & Hlt).
    destruct (IH Hpw). split; [done|lia].
Qed.

(** ** Reparenting *)

Lemma plist_find_value_Some l v i :
  plist_find_value l v = Some i →
  ∃ l1 l2, l = l1 ++ v :: l2 ∧ length l1 = i ∧ v ∉ l1.
Proof.
  revert i. induction l as [|x l IH]; intros i; [done|]. simpl.
  destruct (decide (x = v)) as [->|Hne].
  - intros [= <-]. exists [], l. split_and!; [done..|]. by intros ?%elem_of_nil.
  - destruct (plist_find_value l v) as [j|]; [|done]. intros [= <-].
    destruct (IH j eq_refl) as (l1 & l2 & -> & <- & Hv).
    exists (x :: l1), l2. split_and!; [done..|].
    intros [?|?]%elem_of_cons; congruence.
Qed.

Lemma plist_find_value_None l v : plist_find_value l v = None ↔ v ∉ l.
Proof.
  induction l as [|x l IH]; simpl.
  - split; [intros _ ?%elem_of_nil; done|done].
  - rewrite not_elem_of_cons. destruct (decide (x = v)) as [->|Hne].
    + split; [done|]. intros []; done.
    + destruct (plist_find_value l v); simpl.
      * split; [done|]. intros [_ H]. by apply IH in H.
      * split; [|done]. intros _. split; [congruence|by apply IH].
Qed.

Lemma plist_erase_spec l v i :
  NoDup l → plist_find_value l v = Some i →
  NoDup (plist_erase l i) ∧ ∀ c, c ∈ plist_erase l i ↔ c ∈ l ∧ c ≠ v.
Proof.
  intros Hnd (l1 & l2 & -> & <- & Hv)%plist_find_value_Some.
  unfold plist_erase. rewrite delete_middle.
  apply NoDup_app in Hnd as (Hnd1 & Hdisj & [Hv2 Hnd2]%NoDup_cons).
  split.
  - apply NoDup_app. split_and!; [done| |done].
    intros x Hx Hx2. apply (Hdisj x Hx). by apply list_elem_of_further.
  - intros c. rewrite !elem_of_app, elem_of_cons. split.
    + intros [Hc|Hc]; (split; [tauto|]); intros ->; done.
    + intros [[Hc|[Hc|Hc]] Hne]; auto. done.
Qed.

Lemma pd_compute_node_unchanged fuel g rt ph n ph' :
  pd_compute_node fuel g rt ph n = Done (ph', false) → ph' = ph.
Proof.
  unfold pd_compute_node. intros (r & _ & Hrun)%bind_Done.
  case_bool_decide; [|by injection Hrun as <-].
  destruct (phase_get_irn_data ph n) as [pdn|]; [|done].
  apply bind_Done in Hrun as (p & _ & Hrun).
  case_bool_decide; [|by injection Hrun as <-].
  apply bind_Done in Hrun as (? & _ & Hrun).
  by apply bind_Done in Hrun as (? & _ & Hrun).
Qed.

(** The candidate of a node has a defined [pd_node] and a larger
    post-order index than the node. *)
Lemma pd_new_idom_rank fuel g ph n p :
  solver_inv g ph → edges_consistent g →
  pd_new_idom fuel g ph n = Done p →
  (∃ pp, ph !! p = Some pp ∧ defined pp = true) ∧
  (index_of ph n < index_of ph p)%Z.
Proof.
  intros [Hix Hts] Hedges (u & pu & Hu & Hpu & Hdef & Hrtc)%pd_new_idom_spec.
  destruct (tree_shape_ancestor _ _ _ _ _ Hts Hrtc) as [Hp Hle]; [by eauto|].
  split; [done|].
  apply Hedges in Hu. destruct (ix_dep _ _ Hix u n) as [_ Hlt]; [by eauto|done|].
  lia.
Qed.

(** The effect of a step of the solver that changes the tree. *)
Lemma pd_compute_node_changed fuel g ph n ph' :
  solver_inv g ph → edges_consistent g →
  pd_compute_node fuel g (irg_ret g) ph n = Done (ph', true) →
  ∃ pn p,
    n ≠ irg_ret g ∧ ph !! n = Some pn ∧
    pd_new_idom fuel g ph n = Done p ∧
    parent pn ≠ Some p ∧
    ∀ k, ph' !! k = reparent_node n p (parent pn) k <$> ph !! k.
Proof.
  intros Hinv Hedges Hrun. pose proof Hinv as [Hix Hts].
  unfold pd_compute_node in Hrun.
  apply bind_Done in Hrun as (r & Hr%deref_Done & Hrun).
  case_bool_decide as Hroot; [|done].
  rewrite (ix_irn _ _ Hix _ _ Hr) in Hroot.
  unfold phase_get_irn_data in Hrun.
  destruct (ph !! n) as [pn|] eqn:Hn; [|done].
  apply bind_Done in Hrun as (p & Hp & Hrun).
  case_bool_decide as Hpar; [|done].
  exists pn, p. split_and!; [congruence|done..|].
  destruct (pd_new_idom_rank _ _ _ _ _ Hinv Hedges Hp) as [(pp & Hpp & _) Hlt].
  rewrite (index_of_lookup _ _ _ Hn), (index_of_lookup _ _ _ Hpp) in Hlt.
  assert (p ≠ n) as Hpn by (intros ->; simplify_eq; lia).
  apply bind_Done in Hrun as (ph1 & Hset & Hrun).
  apply bind_Done in Hrun as (pn1 & Hpn1%deref_Done & Hrun).
  injection Hrun as <-.
  unfold pd_set_parent in Hset.
  apply bind_Done in Hset as (? & Hc%deref_Done & Hset). simplify_eq.
  apply bind_Done in Hset as (ph0 & Hold & Hset).
  apply bind_Done in Hset as (pn0 & Hpn0%deref_Done & Hset).
  apply bind_Done in Hset as (pp0 & Hpp0%deref_Done & Hset).
  injection Hset as <-.
  destruct (parent pn) as [o|] eqn:Ho.
  - apply bind_Done in Hold as (po & Hpo%deref_Done & Hold).
    destruct (plist_find_value (children po) n) as [i|] eqn:Hi; [|done].
    injection Hold as <-.
    destruct (ts_parent _ _ _ Hts n pn o Hn Ho) as (_ & _ & Hlto).
    rewrite (index_of_lookup _ _ _ Hn), (index_of_lookup _ _ _ Hpo) in Hlto.
    assert (o ≠ n) as Hon by (intros ->; simplify_eq; lia).
    assert (o ≠ p) as Hop by congruence.
    rewrite lookup_insert_ne in Hpn0 by done.
    rewrite lookup_insert_ne, lookup_insert_ne in Hpp0 by done.
    rewrite lookup_insert_ne, lookup_insert_eq in Hpn1 by done.
    simplify_eq.
    intros k. unfold reparent_node. rewrite !lookup_insert.
    repeat case_decide; simplify_eq;
      repeat match goal with H : ph !! _ = Some _ |- _ => rewrite H end;
      simpl; rewrite ?Hi; try done.
    by destruct (ph !! k).
  - injection Hold as <-.
    rewrite lookup_insert_ne in Hpp0 by done.
    rewrite lookup_insert_ne, lookup_insert_eq in Hpn1 by done.
    simplify_eq.
    intros k. unfold reparent_node. rewrite !lookup_insert.
    repeat case_decide; simplify_eq;
      repeat match goal with H : ph !! _ = Some _ |- _ => rewrite H end;
      simpl; try done.
    by destruct (ph !! k).
Qed.

Lemma same_index_is_Some ph ph' k :
  same_index ph ph' → is_Some (ph' !! k) ↔ is_Some (ph !! k).
Proof.
  intros H. specialize (H k). destruct H; split; intros [? ?]; by eauto.
Qed.

Lemma same_index_index_of ph ph' k :
  same_index ph ph' → index_of ph' k = index_of ph k.
Proof.
  intros H. specialize (H k). unfold index_of.
  destruct H as [a b [_ Hi]|]; simpl; done.
Qed.

Lemma same_index_refl ph : same_index ph ph.
Proof. intros k. destruct (ph !! k); by constructor. Qed.

Lemma same_index_trans ph1 ph2 ph3 :
  same_index ph1 ph2 → same_index ph2 ph3 → same_index ph1 ph3.
Proof.
  intros H12 H23 k. specialize (H12 k). specialize (H23 k).
  destruct H12 as [a b [? ?]|]; inversion H23 as [? c [? ?]|]; subst;
    constructor. split; congruence.
Qed.

Lemma indexed_same_index g ph ph' :
  same_index ph ph' → indexed g ph → indexed g ph'.
Proof.
  intros Hsame [].
  assert (∀ k, index_of ph' k = index_of ph k) as Hidx
    by (intros; by apply same_index_index_of).
  assert (∀ k, is_Some (ph' !! k) ↔ is_Some (ph !! k)) as Hdom
    by (intros; by apply same_index_is_Some).
  split.
  - intros v. by rewrite Hdom.
  - intros v pv' Hv'. specialize (Hsame v). rewrite Hv' in Hsame.
    inversion Hsame as [pv ? [Hirn _] Hv|]; subst. rewrite Hirn. eauto.
  - intros v w. rewrite !Hdom, !Hidx. auto.
  - intros v. rewrite !Hdom, !Hidx. auto.
  - by rewrite Hidx.
  - intros u d. rewrite !Hdom, !Hidx. auto.
Qed.

Lemma tree_shape_rk_ext rk rk' rt ph :
  (∀ v, rk' v = rk v) → tree_shape rk rt ph → tree_shape rk' rt ph.
Proof.
  intros Hrk []. split; try done.
  intros v pv p Hv Hp. rewrite !Hrk. eauto.
Qed.

Section reparent.
Context (g : ir_graph) (ph ph' : gmap ir_node pd_node).
Context (n p : ir_node) (pn : pd_node).
Hypothesis Hinv : solver_inv g ph.
Hypothesis Hn : ph !! n = Some pn.
Hypothesis Hpar : parent pn ≠ Some p.
Hypothesis Hp : ∃ pp, ph !! p = Some pp ∧ defined pp = true.
Hypothesis Hlt : (index_of ph n < index_of ph p)%Z.
Hypothesis Hroot : n ≠ irg_ret g.
Hypothesis Hlook :
  ∀ k, ph' !! k = reparent_node n p (parent pn) k <$> ph !! k.

Lemma reparent_node_fields k pk :
  irn (reparent_node n p (parent pn) k pk) = irn pk ∧
  index (reparent_node n p (parent pn) k pk) = index pk ∧
  max_index (reparent_node n p (parent pn) k pk) = max_index pk ∧
  parent (reparent_node n p (parent pn) k pk)
    = (if decide (k = n) then Some p else parent pk) ∧
  defined (reparent_node n p (parent pn) k pk)
    = (if decide (k = n) then true else defined pk).
Proof. unfold reparent_node. by repeat case_decide. Qed.

Lemma reparent_lookup_inv k pk' :
  ph' !! k = Some pk' →
  ∃ pk, ph !! k = Some pk ∧ pk' = reparent_node n p (parent pn) k pk.
Proof.
  rewrite Hlook. destruct (ph !! k) as [pk|]; [|done].
  intros [= <-]. eauto.
Qed.

Lemma reparent_same_index : same_index ph ph'.
Proof.
  intros k. rewrite Hlook. destruct (ph !! k) as [pk|]; constructor.
  destruct (reparent_node_fields k pk) as (? & ? & _). done.
Qed.

Lemma reparent_parent_edge c k :
  parent_edge ph' c k ↔ (c = n ∧ k = p) ∨ (c ≠ n ∧ parent_edge ph c k).
Proof.
  unfold parent_edge. split.
  - intros (pc' & (pc & Hc & ->)%reparent_lookup_inv & Hk).
    destruct (reparent_node_fields c pc) as (_ & _ & _ & Hpc & _).
    rewrite Hpc in Hk. case_decide; simplify_eq; [by left|right; eauto].
  - intros [[-> ->]|[Hne (pc & Hc & Hk)]].
    + eexists. rewrite Hlook, Hn. split; [done|].
      destruct (reparent_node_fields n pn) as (_ & _ & _ & -> & _).
      by rewrite decide_True.
    + eexists. rewrite Hlook, Hc. split; [done|].
      destruct (reparent_node_fields c pc) as (_ & _ & _ & -> & _).
      by rewrite decide_False.
Qed.

Lemma reparent_tree_shape : tree_shape (index_of ph) (irg_ret g) ph'.
Proof.
  destruct Hinv as [Hix Hts]. destruct Hp as (pp & Hpp & Hppdef).
  assert (p ≠ n) as Hpn by (intros ->; lia).
  split.
  - destruct (ts_root _ _ _ Hts) as (pr & Hr & Hrp & Hrd).
    eexists. rewrite Hlook, Hr. split; [done|].
    destruct (reparent_node_fields (irg_ret g) pr) as (_ & _ & _ & -> & ->).
    by rewrite !decide_False by done.
  - intros v pv' q (pv & Hv & ->)%reparent_lookup_inv.
    destruct (reparent_node_fields v pv) as (_ & _ & _ & -> & ->).
    assert (∀ q pq, ph !! q = Some pq → defined pq = true →
              ∃ pq', ph' !! q = Some pq' ∧ defined pq' = true) as Hdef.
    { intros q' pq Hq Hqd. eexists. rewrite Hlook, Hq. split; [done|].
      destruct (reparent_node_fields q' pq) as (_ & _ & _ & _ & ->).
      by case_decide. }
    case_decide as Hvn.
    + intros [= <-]. subst v. split_and!; [done|by eapply Hdef|done].
    + intros Hq. destruct (ts_parent _ _ _ Hts v pv q Hv Hq)
        as (? & (pq & Hpq & ?) & ?).
      split_and!; [done|by eapply Hdef|done].
  - intros v pv' (pv & Hv & ->)%reparent_lookup_inv.
    destruct (reparent_node_fields v pv) as (_ & _ & _ & -> & ->).
    case_decide; [by eauto|]. by apply (ts_defined _ _ _ Hts).
  - intros k pk' (pk & Hk & ->)%reparent_lookup_inv.
    destruct (ts_children _ _ _ Hts k pk Hk) as [Hnd Hch].
    assert (∀ c, parent_edge ph c k → c ≠ n ∨ parent pn = Some k) as Hedge.
    { intros c (pc & Hc & Hck). destruct (decide (c = n)) as [->|]; [|auto].
      right. congruence. }
    unfold reparent_node.
    destruct (decide (k = n)) as [->|Hkn]; [|destruct (decide (k = p)) as [->|Hkp];
      [|destruct (decide (parent pn = Some k)) as [Hko|Hko]]]; simpl.
    + split; [done|]. intros c. rewrite Hch, reparent_parent_edge.
      split; [|intros [[_ ?]|[_ ?]]; done].
      intros Hc. right. split; [|done]. intros ->.
      destruct Hc as (? & ? & Hc). simplify_eq.
      destruct (ts_parent _ _ _ Hts n pn n Hn Hc) as (_ & _ & ?). lia.
    + unfold plist_insert_back. split.
      * apply NoDup_app. split_and!; [done| |apply NoDup_singleton].
        intros c Hc ->%list_elem_of_singleton. apply Hch in Hc.
        destruct Hc as (? & ? & Hc). simplify_eq.
      * intros c. rewrite elem_of_app, list_elem_of_singleton, Hch,
          reparent_parent_edge.
        split; [|intros [[-> _]|[_ ?]]; auto].
        intros [Hc| ->]; [|by left]. right. split; [|done]. intros ->.
        destruct Hc as (? & ? & Hc). simplify_eq.
    + assert (n ∈ children pk) as Hin by (apply Hch; by exists pn).
      destruct (plist_find_value (children pk) n) as [i|] eqn:Hi;
        [|by apply plist_find_value_None in Hi].
      destruct (plist_erase_spec _ _ _ Hnd Hi) as [Hnd' Hch']. simpl.
      split; [done|]. intros c. rewrite Hch', Hch, reparent_parent_edge.
      split; [intros [? ?]; by right|].
      intros [[_ ->]|[? ?]]; done.
    + split; [done|]. intros c. rewrite Hch, reparent_parent_edge.
      split; [|intros [[_ ?]|[_ ?]]; done].
      intros Hc. right. split; [|done]. intros ->.
      destruct Hc as (? & ? & Hc). simplify_eq.
Qed.

Lemma reparent_solver_inv : solver_inv g ph'.
Proof.
  split.
  - apply (indexed_same_index g ph); [apply reparent_same_index|apply Hinv].
  - apply (tree_shape_rk_ext (index_of ph)); [|apply reparent_tree_shape].
    intros v. apply same_index_index_of, reparent_same_index.
Qed.
End reparent.

(** A step of the solver preserves its invariant. *)
Lemma pd_compute_node_inv fuel g ph n ph' ch :
  solver_inv g ph → edges_consistent g →
  pd_compute_node fuel g (irg_ret g) ph n = Done (ph', ch) →
  solver_inv g ph'.
Proof.
  intros Hinv Hedges Hrun. destruct ch.
  - destruct (pd_compute_node_changed _ _ _ _ _ Hinv Hedges Hrun)
      as (pn & p & Hroot & Hn & Hp & Hpar & Hlook).
    destruct (pd_new_idom_rank _ _ _ _ _ Hinv Hedges Hp) as [Hpp Hlt].
    by eapply reparent_solver_inv.
  - by apply pd_compute_node_unchanged in Hrun as ->.
Qed.

(** ** The tree during construction *)

Lemma construction_state_inv g ph :
  well_formed g → construction_state g ph → solver_inv g ph.
Proof.
  intros [_ Hac Hedges]. induction 1 as [fuel st c Hrun|fuel ph n ph' ch _ IH Hrun].
  - destruct (pd_compute_indices_post_done _ _ _ _ Hac Hrun)
      as (R & -> & Hinv & _ & HR & Hroot).
    by eapply post_inv_solver_inv.
  - by eapply pd_compute_node_inv.
Qed.

(** A pass of the solver only takes steps. *)
Lemma pd_compute_phase_ind (P : gmap ir_node pd_node → Prop) loops g rt :
  (∀ ph n ph' ch,
     P ph → pd_compute_node loops g rt ph n = Done (ph', ch) → P ph') →
  ∀ fuel st n st' ch,
    pd_compute loops fuel g rt st n = Done (st', ch) →
    P (phase st) → P (phase st').
Proof.
  intros Hstep. induction fuel as [|fuel IH]; intros st n st' ch Hrun HP; [done|].
  simpl in Hrun. destruct (irn_visited st n); [by simplify_eq|].
  apply bind_Done in Hrun as ([ph1 ch1] & Hnode & Hrun).
  apply Hstep in Hnode; [|done].
  apply (for_each_inv (λ s, P (phase s.1))) in Hrun; [done..|].
  intros [stA chA] d [stB chB] _ HA ([stC chC] & Hd & Heq)%bind_Done.
  simplify_eq. by eapply IH.
Qed.

Lemma pd_compute_construction_state loops fuel g st n st' ch :
  pd_compute loops fuel g (irg_ret g) st n = Done (st', ch) →
  construction_state g (phase st) → construction_state g (phase st').
Proof.
  apply (pd_compute_phase_ind (construction_state g)).
  intros ph k ph' c Hcs Hstep. by eapply cs_step.
Qed.

Lemma pd_init_loop_construction_state loops fuel g st st' :
  pd_init_loop loops fuel g (irg_ret g) st = Done st' →
  construction_state g (phase st) → construction_state g (phase st').
Proof.
  revert st. induction fuel as [|fuel IH]; intros st Hrun Hcs; [done|].
  simpl in Hrun. apply bind_Done in Hrun as ([st1 ch] & Hpass & Hrun).
  apply pd_compute_construction_state in Hpass; [|done].
  destruct ch; [by eapply IH|by simplify_eq].
Qed.

Lemma tc_parent_edge_rank rk rt ph v a :
  tree_shape rk rt ph → tc (parent_edge ph) v a → (rk v < rk a)%Z.
Proof.
  intros Hts. induction 1 as [v a (pv & Hv & Ha)|v w a (pv & Hv & Hw) _ IH].
  - by apply (ts_parent _ _ _ Hts v pv a).
  - apply (ts_parent _ _ _ Hts v pv w) in Hw as (_ & _ & ?); [lia|done].
Qed.

(** Every defined node is linked to the root. *)
Lemma solver_inv_to_root g ph v pv :
  solver_inv g ph → ph !! v = Some pv → defined pv = true →
  rtc (parent_edge ph) v (irg_ret g).
Proof.
  intros [Hix Hts].
  remember (Z.to_nat (index_of ph (irg_ret g) - index_of ph v)) as m eqn:Hm.
  revert v pv Hm. induction m as [m IH] using lt_wf_ind.
  intros v pv Hm Hv Hdef.
  destruct (ts_defined _ _ _ Hts v pv Hv Hdef) as [->|[p Hp]]; [done|].
  destruct (ts_parent _ _ _ Hts v pv p Hv Hp) as (_ & (pp & Hpp & Hppd) & Hlt).
  eapply rtc_l; [by exists pv|].
  eapply (IH _ _ p pp eq_refl); [done..].
  Unshelve. subst m.
  pose proof (ix_range _ _ Hix p (mk_is_Some _ _ Hpp)). lia.
Qed.

(** C4 (as the code has it): in every phase between two steps of the
    construction of a well-formed graph, the root has no parent, a
    node has at most one parent, every defined node other than the root
    has one, a node is in the child list of exactly its parent and
    occurs there once, no parent chain is cyclic, and every node with a
    parent is linked to the root.  A node that is not yet defined (the
    solver has not linked it yet) has no parent and is in no child
    list. *)
Theorem construction_state_tree g ph :
  well_formed g → construction_state g ph →
  (∃ pr, ph !! irg_ret g = Some pr ∧ parent pr = None) ∧
  (∀ c p p', parent_edge ph c p → parent_edge ph c p' → p = p') ∧
  (∀ v pv, ph !! v = Some pv → defined pv = true → v ≠ irg_ret g →
           ∃ p, parent_edge ph v p) ∧
  (∀ p pp, ph !! p = Some pp →
           NoDup (children pp) ∧
           ∀ c, c ∈ children pp ↔ parent_edge ph c p) ∧
  (∀ v, ¬ tc (parent_edge ph) v v) ∧
  (∀ v p, parent_edge ph v p → rtc (parent_edge ph) v (irg_ret g)) ∧
  (∀ v pv, ph !! v = Some pv → defined pv = false →
           parent pv = None ∧ ∀ p, ¬ child_edge ph p v).
Proof.
  intros Hwf Hcs. pose proof (construction_state_inv _ _ Hwf Hcs) as Hinv.
  pose proof Hinv as [Hix Hts]. split_and!.
  - destruct (ts_root _ _ _ Hts) as (pr & ? & ? & _). eauto.
  - intros c p p' (pc & Hc & Hp) (pc' & Hc' & Hp'). congruence.
  - intros v pv Hv Hdef Hne.
    destruct (ts_defined _ _ _ Hts v pv Hv Hdef) as [?|[p Hp]]; [done|].
    exists p. by exists pv.
  - apply Hts.
  - intros v Hv%(tc_parent_edge_rank _ _ _ _ _ Hts). lia.
  - intros v p (pv & Hv & Hp).
    destruct (ts_parent _ _ _ Hts v pv p Hv Hp) as (Hdef & _).
    by eapply solver_inv_to_root.
  - intros v pv Hv Hdef.
    assert (parent pv = None) as Hnone.
    { destruct (parent pv) as [p|] eqn:Hp; [|done].
      destruct (ts_parent _ _ _ Hts v pv p Hv Hp) as (Hdef' & _).
      congruence. }
    split; [done|]. intros p (pp & Hpp & Hin).
    apply (ts_children _ _ _ Hts p pp Hpp) in Hin as (pv' & Hv' & Hpar).
    congruence.
Qed.

Lemma construction_state_tree_witness :
  ∃ ph p2,
    construction_state (diamond [1; 2] [1; 2]) ph ∧
    parent_edge ph 3 1 ∧ parent_edge ph 1 0 ∧
    ph !! 2 = Some p2 ∧ defined p2 = false ∧
    rtc (parent_edge ph) 3 (irg_ret (diamond [1; 2] [1; 2])) ∧
    parent p2 = None ∧ (∀ p, ¬ child_edge ph p 2).
Proof.
  assert (∃ ph,
    construction_state (diamond [1; 2] [1; 2]) ph ∧
    ph = <[0 := mk_pd_node (Some 0) true 3 0 [1] None]>
         (<[1 := mk_pd_node (Some 1) true 1 0 [3] (Some 0)]>
         (<[2 := mk_pd_node (Some 2) false 2 0 [] None]>
         (<[3 := mk_pd_node (Some 3) true 0 0 [] (Some 1)]> ∅))))
    as (ph & Hcs & Hph).
  { eexists. split.
    - eapply (cs_step _ 8 _ 3); [eapply (cs_step _ 8 _ 1);
        [eapply (cs_indexed _ 4)|]|]; vm_compute; reflexivity.
    - vm_compute. reflexivity. }
  destruct (construction_state_tree _ ph diamond_well_formed Hcs)
    as (_ & _ & _ & _ & _ & Hroot & Hundef).
  assert (parent_edge ph 3 1) as H31.
  { subst ph. eexists. split; [vm_compute; reflexivity|reflexivity]. }
  assert (ph !! 2 = Some (mk_pd_node (Some 2) false 2 0 [] None)) as H2.
  { subst ph. vm_compute. reflexivity. }
  exists ph, (mk_pd_node (Some 2) false 2 0 [] None).
  split_and!; [done|done| |done|done|by eapply Hroot|by eapply Hundef..].
  subst ph. eexists. split; [vm_compute; reflexivity|reflexivity].
Defined.

(** C4 (as stated) fails: right after the post-order indexing, the
    [pd_node] of a node other than the root has no parent. *)
Lemma construction_state_orphan :
  ∃ ph pv,
    construction_state (diamond [1; 2] [1; 2]) ph ∧
    ph !! 3 = Some pv ∧
    3 ≠ irg_ret (diamond [1; 2] [1; 2]) ∧
    parent pv = None.
Proof.
  eexists _, _. split; [eapply (cs_indexed _ 4); vm_compute; reflexivity|].
  split; [vm_compute; reflexivity|]. split; [vm_compute; lia|]. reflexivity.
Qed.

(** ** The intersection walk returns *)

Lemma defined_at_is_Some ph v : defined_at ph v → is_Some (ph !! v).
Proof. intros (pv & ? & _). eauto. Qed.

Lemma pd_climb_total g ph fuel :
  solver_inv g ph →
  ∀ x y,
    defined_at ph x → is_Some (ph !! y) →
    (index_of ph (irg_ret g) - index_of ph x < Z.of_nat fuel)%Z →
    ∃ x', pd_climb fuel ph x y = Done x'.
Proof.
  intros [Hix Hts]. induction fuel as [|fuel IH]; intros x y Hx Hy Hfuel.
  { pose proof (ix_range _ _ Hix x (defined_at_is_Some _ _ Hx)). lia. }
  destruct Hx as (xn & Hxn & Hxd). destruct Hy as [yn Hyn].
  simpl. unfold deref. rewrite Hxn, Hyn. simpl.
  case_bool_decide as Hlt; [|by eauto].
  pose proof (ix_range _ _ Hix y (mk_is_Some _ _ Hyn)) as Hyr.
  rewrite (index_of_lookup _ _ _ Hyn) in Hyr.
  rewrite (index_of_lookup _ _ _ Hxn) in Hfuel.
  destruct (ts_defined _ _ _ Hts x xn Hxn Hxd) as [->|[p Hp]].
  { rewrite (index_of_lookup _ _ _ Hxn) in Hyr. lia. }
  rewrite Hp.
  destruct (ts_parent _ _ _ Hts x xn p Hxn Hp) as (_ & Hpd & Hpl).
  rewrite (index_of_lookup _ _ _ Hxn) in Hpl.
  apply IH; [done|by eauto|lia].
Qed.

(** What a climb that returns gives. *)
Lemma pd_climb_result g ph fuel x y x' :
  solver_inv g ph → defined_at ph x →
  pd_climb fuel ph x y = Done x' →
  defined_at ph x' ∧ (index_of ph x ≤ index_of ph x')%Z ∧
  (index_of ph y ≤ index_of ph x')%Z ∧ rtc (parent_edge ph) x x'.
Proof.
  intros [Hix Hts] Hx (Hrtc & _ & _ & Hle)%pd_climb_spec.
  destruct (tree_shape_ancestor _ _ _ _ _ Hts Hrtc Hx). done.
Qed.

Lemma pd_compute_intersect_total g ph fuel :
  solver_inv g ph →
  ∀ lhs rhs,
    defined_at ph lhs → defined_at ph rhs →
    (2 * index_of ph (irg_ret g) - index_of ph lhs - index_of ph rhs + 1
       < Z.of_nat fuel)%Z →
    ∃ r, pd_compute_intersect fuel ph lhs rhs = Done r.
Proof.
  intros Hinv. pose proof Hinv as [Hix Hts].
  induction fuel as [|fuel IH]; intros lhs rhs Hl Hr Hfuel.
  { pose proof (ix_range _ _ Hix _ (defined_at_is_Some _ _ Hl)).
    pose proof (ix_range _ _ Hix _ (defined_at_is_Some _ _ Hr)). lia. }
  simpl. case_bool_decide as Hne; [|by eauto].
  pose proof (ix_range _ _ Hix _ (defined_at_is_Some _ _ Hl)) as Hlr.
  pose proof (ix_range _ _ Hix _ (defined_at_is_Some _ _ Hr)) as Hrr.
  destruct (pd_climb_total g ph fuel Hinv lhs rhs) as [lhs' Hl'];
    [done|by apply defined_at_is_Some|lia|].
  rewrite Hl', bind_Done_l.
  destruct (pd_climb_result _ _ _ _ _ _ Hinv Hl Hl') as (Hld & Hl1 & Hl2 & _).
  destruct (pd_climb_total g ph fuel Hinv rhs lhs') as [rhs' Hr'];
    [done|by apply defined_at_is_Some|lia|].
  rewrite Hr', bind_Done_l.
  destruct (pd_climb_result _ _ _ _ _ _ Hinv Hr Hr') as (Hrd & Hr1 & Hr2 & _).
  apply IH; [done..|].
  assert (index_of ph lhs ≠ index_of ph rhs) as Hidx.
  { intros Heq. apply Hne. apply (ix_inj _ _ Hix); [..|done];
      by apply defined_at_is_Some. }
  lia.
Qed.

Lemma pd_compute_intersect_result g ph fuel lhs rhs r :
  solver_inv g ph → defined_at ph lhs →
  pd_compute_intersect fuel ph lhs rhs = Done r →
  defined_at ph r ∧ rtc (parent_edge ph) lhs r ∧ rtc (parent_edge ph) rhs r.
Proof.
  intros [Hix Hts] Hl [Hrl Hrr]%pd_compute_intersect_spec.
  destruct (tree_shape_ancestor _ _ _ _ _ Hts Hrl Hl). done.
Qed.

(** The bound on the walks that suffices for every intersection. *)
Lemma intersect_fuel_enough g ph loops lhs rhs :
  solver_inv g ph →
  2 * size (irg_nodes g) ≤ loops →
  defined_at ph lhs → defined_at ph rhs →
  (2 * index_of ph (irg_ret g) - index_of ph lhs - index_of ph rhs + 1
     < Z.of_nat loops)%Z.
Proof.
  intros [Hix Hts] Hloops Hl Hr.
  pose proof (ix_range _ _ Hix _ (defined_at_is_Some _ _ Hl)).
  pose proof (ix_range _ _ Hix _ (defined_at_is_Some _ _ Hr)).
  pose proof (ix_root _ _ Hix). lia.
Qed.

Lemma pd_find_idom_is_Some ph uses u :
  u ∈ uses → defined_at ph u → is_Some (pd_find_idom ph uses).
Proof.
  intros Hu (pu & Hpu & Hd). induction uses as [|s uses IH];
    [by apply elem_of_nil in Hu|].
  simpl. unfold phase_get_irn_data.
  apply elem_of_cons in Hu as [<-|Hu].
  - rewrite Hpu, Hd. eauto.
  - destruct (ph !! s) as [ps|]; [destruct (defined ps)|]; eauto.
Qed.

Lemma pd_intersect_uses_total g ph loops uses :
  solver_inv g ph →
  2 * size (irg_nodes g) ≤ loops →
  ∀ pd_idom, defined_at ph pd_idom →
    ∃ r, pd_intersect_uses loops ph uses pd_idom = Done r.
Proof.
  intros Hinv Hloops. unfold pd_intersect_uses.
  induction uses as [|s uses IH]; intros pd_idom Hd; [by eexists|].
  simpl. unfold phase_get_irn_data.
  destruct (ph !! s) as [ps|] eqn:Hs; [|rewrite bind_Done_l; by apply IH].
  destruct (bool_decide (s ≠ pd_idom) && defined ps) eqn:Hc;
    [|rewrite bind_Done_l; by apply IH].
  apply andb_true_iff in Hc as [_ Hsd].
  assert (defined_at ph s) as Hsdef by (by exists ps).
  destruct (pd_compute_intersect_total g ph loops Hinv s pd_idom) as [r Hr];
    [done..|by apply intersect_fuel_enough|].
  rewrite Hr, bind_Done_l. apply IH.
  by destruct (pd_compute_intersect_result _ _ _ _ _ _ Hinv Hsdef Hr).
Qed.

Lemma pd_new_idom_total g ph loops n u :
  solver_inv g ph →
  2 * size (irg_nodes g) ≤ loops →
  u ∈ get_irn_outs g n → defined_at ph u →
  ∃ p, pd_new_idom loops g ph n = Done p.
Proof.
  intros Hinv Hloops Hu Hud. unfold pd_new_idom.
  destruct (pd_find_idom_is_Some ph _ u Hu Hud) as [q Hq]. rewrite Hq.
  apply pd_find_idom_Some in Hq as (_ & Hqd).
  by eapply pd_intersect_uses_total.
Qed.

(** ** A pass of the solver returns *)

Lemma deref_total ph k : is_Some (ph !! k) → ∃ x, deref ph k = Done x.
Proof. intros [x Hx]. exists x. by apply deref_Done. Qed.

Lemma solver_inv_root_defined g ph : solver_inv g ph → defined_at ph (irg_ret g).
Proof. intros [_ Hts]. destruct (ts_root _ _ _ Hts) as (pr & ? & _ & ?). by exists pr. Qed.

(** After a step on a node other than the root, the node is defined and
    its parent is the candidate computed for it. *)
Lemma pd_compute_node_result loops g ph n ph' ch :
  solver_inv g ph → edges_consistent g →
  pd_compute_node loops g (irg_ret g) ph n = Done (ph', ch) →
  n ≠ irg_ret g →
  ∃ p pn', pd_new_idom loops g ph n = Done p ∧ ph' !! n = Some pn' ∧
           parent pn' = Some p ∧ defined pn' = true.
Proof.
  intros Hinv Hedges Hrun Hne. destruct ch.
  - destruct (pd_compute_node_changed _ _ _ _ _ Hinv Hedges Hrun)
      as (pn & p & _ & Hn & Hp & Hpar & Hlook).
    exists p. eexists. rewrite Hlook, Hn. split_and!; [done..| |].
    + destruct (reparent_node_fields n p pn n pn) as (_ & _ & _ & -> & _).
      by rewrite decide_True.
    + destruct (reparent_node_fields n p pn n pn) as (_ & _ & _ & _ & ->).
      by rewrite decide_True.
  - pose proof (pd_compute_node_unchanged _ _ _ _ _ _ Hrun) as ->.
    destruct Hinv as [Hix Hts]. unfold pd_compute_node in Hrun.
    apply bind_Done in Hrun as (r & Hr%deref_Done & Hrun).
    rewrite (ix_irn _ _ Hix _ _ Hr) in Hrun.
    rewrite bool_decide_eq_true_2 in Hrun by congruence.
    unfold phase_get_irn_data in Hrun.
    destruct (ph !! n) as [pn|] eqn:Hn; [|done].
    apply bind_Done in Hrun as (p & Hp & Hrun).
    case_bool_decide as Hpar.
    { apply bind_Done in Hrun as (? & _ & Hrun).
      by apply bind_Done in Hrun as (? & _ & Hrun). }
    exists p, pn. split_and!; [done..|].
    by destruct (ts_parent _ _ _ Hts n pn p Hn Hpar) as (? & _).
Qed.

Lemma pd_compute_node_defined_mono loops g ph n ph' ch v :
  solver_inv g ph → edges_consistent g →
  pd_compute_node loops g (irg_ret g) ph n = Done (ph', ch) →
  defined_at ph v → defined_at ph' v.
Proof.
  intros Hinv Hedges Hrun (pv & Hv & Hd). destruct ch.
  - destruct (pd_compute_node_changed _ _ _ _ _ Hinv Hedges Hrun)
      as (pn & p & _ & Hn & Hp & Hpar & Hlook).
    eexists. rewrite Hlook, Hv. split; [done|].
    destruct (reparent_node_fields n p pn v pv) as (_ & _ & _ & _ & ->).
    by case_decide.
  - apply pd_compute_node_unchanged in Hrun as ->. by exists pv.
Qed.

Lemma pd_compute_node_total loops g ph n :
  solver_inv g ph → edges_consistent g →
  2 * size (irg_nodes g) ≤ loops →
  n = irg_ret g ∨
    (is_Some (ph !! n) ∧ ∃ u, u ∈ get_irn_outs g n ∧ defined_at ph u) →
  ∃ ph' ch, pd_compute_node loops g (irg_ret g) ph n = Done (ph', ch).
Proof.
  intros Hinv Hedges Hloops Hn. pose proof Hinv as [Hix Hts].
  destruct (ts_root _ _ _ Hts) as (pr & Hr & _ & _).
  unfold pd_compute_node, deref. rewrite Hr, bind_Done_l.
  rewrite (ix_irn _ _ Hix _ _ Hr).
  case_bool_decide as Hne; [|by eauto].
  destruct Hn as [->|[[pn Hn] (u & Hu & Hud)]]; [done|].
  unfold phase_get_irn_data. rewrite Hn.
  destruct (pd_new_idom_total g ph loops n u) as [p Hp]; [done..|].
  rewrite Hp, bind_Done_l.
  case_bool_decide as Hpar; [|by eauto].
  destruct (pd_new_idom_rank _ _ _ _ _ Hinv Hedges Hp) as [(pp & Hpp & _) _].
  assert (∃ ph1, pd_set_parent ph p n = Done ph1 ∧
                 is_Some (ph1 !! n)) as (ph1 & -> & [pn1 Hn1]).
  { unfold pd_set_parent, deref. rewrite Hn, bind_Done_l.
    assert (∃ ph0, match parent pn with
              | Some old =>
                  o ← match ph !! old with Some n0 => Done n0 | None => Fault end;
                  match plist_find_value (children o) n with
                  | Some it =>
                      Done (<[old:=set_children (plist_erase (children o) it) o]> ph)
                  | None => AssertFail
                  end
              | None => Done ph
              end = Done ph0 ∧
              ∀ k, is_Some (ph !! k) → is_Some (ph0 !! k))
      as (ph0 & -> & Hdom).
    { destruct (parent pn) as [o|] eqn:Ho; [|by eauto].
      destruct (ts_parent _ _ _ Hts n pn o Hn Ho) as (_ & (po & Hpo & _) & _).
      rewrite Hpo, bind_Done_l.
      destruct (plist_find_value (children po) n) as [i|] eqn:Hi.
      - eexists. split; [done|]. intros k Hk.
        apply lookup_insert_is_Some'. auto.
      - apply plist_find_value_None in Hi. exfalso. apply Hi.
        apply (ts_children _ _ _ Hts o po Hpo). by exists pn. }
    rewrite bind_Done_l.
    destruct (Hdom n) as [pn0 Hn0]; [by eauto|]. rewrite Hn0, bind_Done_l.
    assert (is_Some (<[n:=set_parent (Some p) pn0]> ph0 !! p)) as [pp0 Hpp0].
    { apply lookup_insert_is_Some'. right. apply Hdom. eauto. }
    rewrite Hpp0, bind_Done_l. eexists. split; [done|].
    apply lookup_insert_is_Some'. right. apply lookup_insert_is_Some'. auto. }
  rewrite bind_Done_l. unfold deref. rewrite Hn1, bind_Done_l. eauto.
Qed.

(** Induction over the steps of a pass: [P] is kept by every step on an
    unvisited reachable node, and a step that reports a change yields
    [C]. *)
Lemma pd_compute_ind (P : pd_state → Prop) (C : Prop) loops g rt :
  (∀ st n ph' ch,
     P st → n ∉ visited st → reachable g n →
     pd_compute_node loops g rt (phase st) n = Done (ph', ch) →
     P (mk_pd_state ({[n]} ∪ visited st) ph') ∧ (ch = true → C)) →
  ∀ fuel st n st' ch,
    pd_compute loops fuel g rt st n = Done (st', ch) →
    reachable g n → P st → P st' ∧ (ch = true → C).
Proof.
  intros Hstep. induction fuel as [|fuel IH]; intros st n st' ch Hrun Hn HP; [done|].
  simpl in Hrun. destruct (irn_visited st n) eqn:Hvis; [by simplify_eq|].
  apply irn_visited_false in Hvis.
  apply bind_Done in Hrun as ([ph1 ch1] & Hnode & Hrun).
  apply Hstep in Hnode; [|done..].
  apply (for_each_inv (λ s, P s.1 ∧ (s.2 = true → C))) in Hrun; [done..|].
  intros [stA chA] d [stB chB] Hd [HA HchA] ([stC chC] & Hrd & Heq)%bind_Done.
  simplify_eq. simpl in *.
  destruct (IH _ _ _ _ Hrd) as [HC HchC]; [by eapply rtc_r|done|].
  split; [done|]. intros [?|?]%orb_true_iff; auto.
Qed.

(** A pass marks the node it is called on, and every node it marks has
    all its dependencies marked when the pass returns. *)
Lemma pd_compute_visited loops g rt fuel :
  ∀ st n st' ch,
    pd_compute loops fuel g rt st n = Done (st', ch) →
    visited st ⊆ visited st' ∧ n ∈ visited st' ∧
    ∀ x, x ∈ visited st' → x ∉ visited st →
         ∀ d, dep g x d → d ∈ visited st'.
Proof.
  induction fuel as [|fuel IH]; intros st n st' ch Hrun; [done|].
  simpl in Hrun. destruct (irn_visited st n) eqn:Hvis.
  { apply irn_visited_true in Hvis. simplify_eq. split_and!; try done. }
  apply irn_visited_false in Hvis.
  apply bind_Done in Hrun as ([ph1 ch1] & _ & Hrun).
  assert (Hfold : ∀ l stA chA,
    for_each (λ '(st, changed) dep,
                '(st, c) ← pd_compute loops fuel g rt st dep;
                Done (st, changed || c)) (stA, chA) l = Done (st', ch) →
    visited stA ⊆ visited st' ∧ (∀ d, d ∈ l → d ∈ visited st') ∧
    ∀ x, x ∈ visited st' → x ∉ visited stA →
         ∀ d, dep g x d → d ∈ visited st').
  { clear Hrun. induction l as [|d l IHl]; intros stA chA Hrun.
    - simpl in Hrun. simplify_eq. split_and!; try done.
      intros d Hd. by apply elem_of_nil in Hd.
    - simpl in Hrun. apply bind_Done in Hrun as ([stB chB] & Hd & Hrun).
      apply bind_Done in Hd as ([stC chC] & Hd & Heq). simplify_eq.
      destruct (IH _ _ _ _ Hd) as (HsubB & HdB & HclB).
      destruct (IHl _ _ Hrun) as (Hsub1 & Hl1 & Hcl1).
      split_and!.
      + etrans; done.
      + intros d' [->|Hd']%elem_of_cons; [by apply Hsub1|by apply Hl1].
      + intros x Hx HxA e He.
        destruct (decide (x ∈ visited stB)) as [HxB|HxB].
        * apply Hsub1. by apply (HclB x HxB HxA).
        * by apply (Hcl1 x Hx HxB). }
  destruct (Hfold _ _ _ Hrun) as (Hsub & Hl & Hcl). simpl in *.
  split_and!.
  - intros x Hx. apply Hsub, elem_of_union. auto.
  - apply Hsub, elem_of_union. left. by apply elem_of_singleton.
  - intros x Hx HxV d Hd. destruct (decide (x = n)) as [->|Hxn].
    + by apply Hl.
    + apply (Hcl x Hx); [|done].
      rewrite not_elem_of_union, not_elem_of_singleton. done.
Qed.

(** A pass started with no node marked marks every reachable node. *)
Lemma pd_compute_visits_reachable loops g fuel st st' ch v :
  pd_compute loops fuel g (irg_ret g) st (irg_ret g) = Done (st', ch) →
  visited st = ∅ → reachable g v → v ∈ visited st'.
Proof.
  intros (_ & Hret & Hcl)%pd_compute_visited Hemp. unfold reachable.
  revert v. apply rtc_ind_r; [done|]. intros u d _ Hd Hu.
  apply (Hcl u Hu); [|done]. rewrite Hemp. apply not_elem_of_empty.
Qed.

Lemma pd_compute_inv loops fuel g st n st' ch :
  solver_inv g (phase st) → edges_consistent g →
  pd_compute loops fuel g (irg_ret g) st n = Done (st', ch) →
  solver_inv g (phase st').
Proof.
  intros Hinv Hedges Hrun. revert Hrun Hinv.
  apply (pd_compute_phase_ind (solver_inv g)).
  intros ph k ph' c Hk Hstep. by eapply pd_compute_node_inv.
Qed.

Lemma pd_compute_defined_mono loops fuel g st n st' ch v :
  solver_inv g (phase st) → edges_consistent g →
  pd_compute loops fuel g (irg_ret g) st n = Done (st', ch) →
  defined_at (phase st) v → defined_at (phase st') v.
Proof.
  intros Hinv Hedges Hrun Hv.
  eapply (pd_compute_phase_ind (λ ph, solver_inv g ph ∧ defined_at ph v));
    [|done|done].
  intros ph k ph' c [Hk Hkv] Hstep. split.
  - by eapply pd_compute_node_inv.
  - by eapply pd_compute_node_defined_mono.
Qed.

(** On a well-formed graph a pass returns: the recursion is bounded by
    the number of unmarked nodes, and every node it reaches has a
    defined use, namely the node it was reached from. *)
Lemma pd_compute_total loops g fuel :
  edges_consistent g →
  2 * size (irg_nodes g) ≤ loops →
  ∀ st n,
    solver_inv g (phase st) →
    reachable g n →
    size (irg_nodes g ∖ visited st) < fuel →
    n ∈ visited st ∨ n = irg_ret g ∨
      (∃ u, u ∈ get_irn_outs g n ∧ defined_at (phase st) u) →
    ∃ st' ch, pd_compute loops fuel g (irg_ret g) st n = Done (st', ch) ∧
              visited st ⊆ visited st'.
Proof.
  intros Hedges Hloops.
  induction fuel as [|fuel IH]; intros st n Hinv Hn Hsize Hcase; [lia|].
  simpl. destruct (irn_visited st n) eqn:Hvis; [by eauto|].
  apply irn_visited_false in Hvis.
  pose proof (size_difference_mark _ _ _ (reachable_irg_nodes _ _ Hn) Hvis) as Hlt.
  destruct (pd_compute_node_total loops g (phase st) n) as (ph1 & ch1 & Hnode);
    [done..| |].
  { destruct Hcase as [?|[?|?]]; [done|by left|right]. split; [|done].
    by apply (ix_dom _ _ (proj1 Hinv)). }
  simpl. rewrite Hnode, bind_Done_l.
  pose proof (pd_compute_node_inv _ _ _ _ _ _ Hinv Hedges Hnode) as Hinv1.
  assert (defined_at ph1 n) as Hdef1.
  { destruct (decide (n = irg_ret g)) as [->|Hne];
      [by apply solver_inv_root_defined|].
    destruct (pd_compute_node_result _ _ _ _ _ _ Hinv Hedges Hnode Hne)
      as (p & pn' & _ & ? & _ & ?). by exists pn'. }
  assert (Hfold : ∀ l stA chA,
    (∀ d, d ∈ l → dep g n d) →
    solver_inv g (phase stA) → defined_at (phase stA) n →
    {[n]} ∪ visited st ⊆ visited stA →
    ∃ st1 ch',
      for_each (λ '(st, changed) dep,
                  '(st, c) ← pd_compute loops fuel g (irg_ret g) st dep;
                  Done (st, changed || c)) (stA, chA) l = Done (st1, ch') ∧
      visited stA ⊆ visited st1).
  { induction l as [|d l IHl]; intros stA chA Hl HinvA HdefA Hsub; [by eauto|].
    assert (dep g n d) as Hd by apply Hl, list_elem_of_here.
    simpl. destruct (IH stA d) as (stB & chB & HrunB & HsubB); [done|..].
    { by eapply rtc_r. }
    { assert (size (irg_nodes g ∖ visited stA)
              ≤ size (irg_nodes g ∖ ({[n]} ∪ visited st))); [|lia].
      apply subseteq_size. intros x. rewrite !elem_of_difference.
      intros [? Hx]; split; [done|]. intros ?; by apply Hx, Hsub. }
    { right; right. exists n. split; [by apply Hedges|done]. }
    rewrite HrunB, !bind_Done_l.
    destruct (IHl stB (chA || chB)) as (st1 & ch' & -> & Hsub1).
    { intros d' Hd'. by apply Hl, list_elem_of_further. }
    { by eapply pd_compute_inv. }
    { by eapply pd_compute_defined_mono. }
    { etrans; done. }
    exists st1, ch'. split; [done|]. etrans; done. }
  destruct (Hfold (get_irn_ins g n)
              (mk_pd_state ({[n]} ∪ visited st) ph1) ch1)
    as (st1 & ch' & -> & Hsub1); [done..|].
  exists st1, ch'. split; [done|].
  intros x Hx. apply Hsub1. simpl. apply elem_of_union; auto.
Qed.

(** ** Nodes that have reached their final place *)

Lemma parent_closed_rtc S ph x y :
  parent_closed S ph → rtc (parent_edge ph) x y → x ∈ S → y ∈ S.
Proof.
  intros Hcl. induction 1 as [|x y z Hxy _ IH]; intros Hx; [done|].
  apply IH. by apply (Hcl x y).
Qed.

Lemma agree_on_lookup S ph ph' k :
  agree_on S ph ph' → k ∈ S →
  (ph !! k = None ∧ ph' !! k = None) ∨
  (∃ a b, ph !! k = Some a ∧ ph' !! k = Some b ∧ same_links a b).
Proof.
  intros H Hk. specialize (H k Hk). destruct H; [right|left]; eauto.
Qed.

Lemma pd_climb_frame S ph ph' fuel :
  agree_on S ph ph' → parent_closed S ph →
  ∀ x y, x ∈ S → y ∈ S → pd_climb fuel ph' x y = pd_climb fuel ph x y.
Proof.
  intros Hag Hcl. induction fuel as [|fuel IH]; intros x y Hx Hy; [done|].
  simpl. unfold deref.
  destruct (agree_on_lookup _ _ _ _ Hag Hx)
    as [[-> ->]|(xn & xn' & Hxn & -> & Hdx & Hix & Hpx)]; [done|].
  rewrite Hxn. simpl.
  destruct (agree_on_lookup _ _ _ _ Hag Hy)
    as [[-> ->]|(yn & yn' & -> & -> & Hdy & Hiy & Hpy)]; [done|].
  simpl. rewrite Hix, Hiy, Hpx. case_bool_decide; [|done].
  destruct (parent xn) as [p|] eqn:Hp; [|done].
  apply IH; [|done]. apply (Hcl x p Hx). by exists xn.
Qed.

Lemma pd_compute_intersect_frame S ph ph' fuel :
  agree_on S ph ph' → parent_closed S ph →
  ∀ lhs rhs, lhs ∈ S → rhs ∈ S →
    pd_compute_intersect fuel ph' lhs rhs = pd_compute_intersect fuel ph lhs rhs.
Proof.
  intros Hag Hcl. induction fuel as [|fuel IH]; intros lhs rhs Hl Hr; [done|].
  simpl. case_bool_decide; [|done].
  rewrite (pd_climb_frame S ph ph') by done.
  destruct (pd_climb fuel ph lhs rhs) as [lhs'| | |] eqn:Hl'; [|done..].
  rewrite !bind_Done_l.
  assert (lhs' ∈ S) as Hl'S.
  { apply pd_climb_spec in Hl' as (? & _). by eapply parent_closed_rtc. }
  rewrite (pd_climb_frame S ph ph') by done.
  destruct (pd_climb fuel ph rhs lhs') as [rhs'| | |] eqn:Hr'; [|done..].
  rewrite !bind_Done_l. apply IH; [done|].
  apply pd_climb_spec in Hr' as (? & _). by eapply parent_closed_rtc.
Qed.

Lemma pd_find_idom_frame S ph ph' uses :
  agree_on S ph ph' → uses_in S ph ph' uses →
  pd_find_idom ph' uses = pd_find_idom ph uses.
Proof.
  intros Hag. induction uses as [|s uses IH]; intros Hu; [done|].
  simpl. unfold phase_get_irn_data.
  assert (pd_find_idom ph' uses = pd_find_idom ph uses) as Hrec.
  { apply IH. intros u Hin. by apply Hu, list_elem_of_further. }
  destruct (Hu s) as [Hs|[-> ->]]; [apply list_elem_of_here| |done].
  destruct (agree_on_lookup _ _ _ _ Hag Hs)
    as [[-> ->]|(a & b & -> & -> & Hd & _)]; [done|].
  by rewrite Hd, Hrec.
Qed.

Lemma pd_intersect_uses_frame S ph ph' fuel uses :
  agree_on S ph ph' → parent_closed S ph → uses_in S ph ph' uses →
  ∀ pd_idom, pd_idom ∈ S →
    pd_intersect_uses fuel ph' uses pd_idom
    = pd_intersect_uses fuel ph uses pd_idom.
Proof.
  intros Hag Hcl. unfold pd_intersect_uses.
  induction uses as [|s uses IH]; intros Hu pd_idom Hp; [done|].
  assert (uses_in S ph ph' uses) as Hu'.
  { intros u Hin. by apply Hu, list_elem_of_further. }
  simpl. unfold phase_get_irn_data.
  destruct (Hu s) as [Hs|[-> ->]]; [apply list_elem_of_here| |].
  - destruct (agree_on_lookup _ _ _ _ Hag Hs)
      as [[-> ->]|(a & b & -> & -> & Hd & _)].
    + rewrite !bind_Done_l. by apply IH.
    + rewrite Hd. destruct (bool_decide (s ≠ pd_idom) && defined a).
      * rewrite (pd_compute_intersect_frame S ph ph') by done.
        destruct (pd_compute_intersect fuel ph s pd_idom) as [r| | |] eqn:Hr;
          [|done..].
        rewrite !bind_Done_l. apply IH; [done|].
        apply pd_compute_intersect_spec in Hr as [? _].
        by eapply parent_closed_rtc.
      * rewrite !bind_Done_l. by apply IH.
  - rewrite !bind_Done_l. by apply IH.
Qed.

Lemma pd_new_idom_frame S ph ph' fuel g n :
  agree_on S ph ph' → parent_closed S ph →
  uses_in S ph ph' (get_irn_outs g n) →
  pd_new_idom fuel g ph' n = pd_new_idom fuel g ph n.
Proof.
  intros Hag Hcl Hu. unfold pd_new_idom.
  rewrite (pd_find_idom_frame S ph ph') by done.
  destruct (pd_find_idom ph (get_irn_outs g n)) as [q|] eqn:Hq; [|done].
  apply (pd_intersect_uses_frame S); [done..|].
  apply pd_find_idom_Some in Hq as (Hin & pq & Hpq & _).
  destruct (Hu q Hin) as [?|[? _]]; [done|congruence].
Qed.

Lemma settled_parent_closed loops g ph S :
  solver_inv g ph → settled loops g ph S → parent_closed S ph.
Proof.
  intros [_ Hts] Hse v p Hv (pv & Hpv & Hp).
  destruct (decide (v = irg_ret g)) as [->|Hne].
  - destruct (ts_root _ _ _ Hts) as (pr & ? & ? & _). congruence.
  - destruct (se_stable _ _ _ _ Hse v pv Hv Hne Hpv) as (q & _ & ? & ?).
    congruence.
Qed.

Lemma settled_uses_in loops g ph ph' S v :
  settled loops g ph S → same_index ph ph' →
  v ∈ S → v ≠ irg_ret g →
  uses_in S ph ph' (get_irn_outs g v).
Proof.
  intros Hse Hsame Hv Hne u Hu.
  destruct (ph !! u) as [pu|] eqn:Hpu.
  - left. apply (se_users _ _ _ _ Hse v u); eauto.
  - right. split; [done|]. apply eq_None_not_Some.
    rewrite (same_index_is_Some ph ph') by done. rewrite Hpu.
    by intros [? ?].
Qed.

(** Changes outside [S] do not unsettle [S]. *)
Lemma settled_frame loops g ph ph' S :
  solver_inv g ph → settled loops g ph S →
  same_index ph ph' → agree_on S ph ph' →
  settled loops g ph' S.
Proof.
  intros Hinv Hse Hsame Hag.
  pose proof (settled_parent_closed _ _ _ _ Hinv Hse) as Hcl.
  split.
  - apply Hse.
  - intros v Hv. rewrite (same_index_is_Some ph ph') by done.
    by apply (se_shadow _ _ _ _ Hse).
  - intros v u Hv Hne Hu. rewrite (same_index_is_Some ph ph') by done.
    by apply (se_users _ _ _ _ Hse v u).
  - intros v pv' Hv Hne Hpv'.
    destruct (agree_on_lookup _ _ _ _ Hag Hv)
      as [[_ ?]|(pv & ? & Hpv & ? & _ & _ & Hpar)]; [congruence|].
    simplify_eq.
    destruct (se_stable _ _ _ _ Hse v pv Hv Hne Hpv) as (p & Hp & ? & ?).
    exists p. split_and!; [|congruence|done].
    rewrite (pd_new_idom_frame S ph ph'); [done..|].
    by eapply settled_uses_in.
Qed.

(** A step changes the links of the processed node only. *)
Lemma pd_compute_node_frame loops g ph n ph' ch :
  solver_inv g ph → edges_consistent g →
  pd_compute_node loops g (irg_ret g) ph n = Done (ph', ch) →
  same_index ph ph' ∧
  ∀ k, k ≠ n → option_Forall2 same_links (ph !! k) (ph' !! k).
Proof.
  intros Hinv Hedges Hrun. destruct ch.
  - destruct (pd_compute_node_changed _ _ _ _ _ Hinv Hedges Hrun)
      as (pn & p & _ & Hn & Hp & Hpar & Hlook).
    split.
    + intros k. rewrite Hlook. destruct (ph !! k) as [pk|]; constructor.
      destruct (reparent_node_fields n p pn k pk) as (? & ? & _). done.
    + intros k Hk. rewrite Hlook. destruct (ph !! k) as [pk|]; constructor.
      destruct (reparent_node_fields n p pn k pk) as (_ & ? & _ & Hpk & Hdk).
      rewrite decide_False in Hpk by done.
      rewrite decide_False in Hdk by done. done.
  - apply pd_compute_node_unchanged in Hrun as ->. split.
    + apply same_index_refl.
    + intros k _. destruct (ph !! k); by constructor.
Qed.

Lemma settled_step_other loops g ph S n ph' ch :
  solver_inv g ph → edges_consistent g → settled loops g ph S →
  n ∉ S →
  pd_compute_node loops g (irg_ret g) ph n = Done (ph', ch) →
  settled loops g ph' S.
Proof.
  intros Hinv Hedges Hse Hn Hrun.
  destruct (pd_compute_node_frame _ _ _ _ _ _ Hinv Hedges Hrun) as [Hsame Hfr].
  eapply settled_frame; [done..|].
  intros k Hk. apply Hfr. by intros ->.
Qed.

Lemma settled_step_in loops g ph S n ph' ch :
  solver_inv g ph → settled loops g ph S →
  n ∈ S →
  pd_compute_node loops g (irg_ret g) ph n = Done (ph', ch) →
  ch = false ∧ ph' = ph.
Proof.
  intros [Hix Hts] Hse Hn Hrun.
  assert (ch = false) as ->; [|split; [done|by eapply pd_compute_node_unchanged]].
  unfold pd_compute_node in Hrun.
  apply bind_Done in Hrun as (r & Hr%deref_Done & Hrun).
  rewrite (ix_irn _ _ Hix _ _ Hr) in Hrun.
  case_bool_decide as Hne; [|by simplify_eq].
  unfold phase_get_irn_data in Hrun.
  destruct (ph !! n) as [pn|] eqn:Hpn; [|done].
  destruct (se_stable _ _ _ _ Hse n pn Hn) as (p & Hp & Hpar & _);
    [congruence|done|].
  rewrite Hp, bind_Done_l in Hrun.
  rewrite bool_decide_eq_false_2 in Hrun by (intros H; by apply H).
  by simplify_eq.
Qed.

Lemma settled_step_add loops g ph S w ph' ch :
  solver_inv g ph → edges_consistent g → settled loops g ph S →
  w ∉ S →
  (∀ u, u ∈ get_irn_outs g w → is_Some (ph !! u) → u ∈ S) →
  pd_compute_node loops g (irg_ret g) ph w = Done (ph', ch) →
  settled loops g ph' (S ∪ {[w]}).
Proof.
  intros Hinv Hedges Hse Hw Husers Hrun.
  pose proof (settled_step_other _ _ _ _ _ _ _ Hinv Hedges Hse Hw Hrun) as Hse'.
  destruct (pd_compute_node_frame _ _ _ _ _ _ Hinv Hedges Hrun) as [Hsame Hfr].
  pose proof (settled_parent_closed _ _ _ _ Hinv Hse) as Hcl.
  assert (w ≠ irg_ret g) as Hne.
  { intros ->. apply Hw, Hse. }
  destruct (pd_compute_node_result _ _ _ _ _ _ Hinv Hedges Hrun Hne)
    as (p & pw' & Hp & Hpw' & Hpar & _).
  assert (p ∈ S) as HpS.
  { destruct (pd_new_idom_spec _ _ _ _ _ Hp) as (u & pu & Hu & Hpu & _ & Hrtc).
    eapply parent_closed_rtc; [done..|]. apply Husers; eauto. }
  split.
  - apply elem_of_union. left. apply Hse.
  - intros v [Hv| ->%elem_of_singleton]%elem_of_union.
    + by apply (se_shadow _ _ _ _ Hse').
    + eauto.
  - intros v u [Hv| ->%elem_of_singleton]%elem_of_union Hvne Hu Hsome;
      apply elem_of_union; left.
    + by apply (se_users _ _ _ _ Hse' v u).
    + apply Husers; [done|]. by apply (same_index_is_Some ph ph').
  - intros v pv [Hv| ->%elem_of_singleton]%elem_of_union Hvne Hpv.
    + destruct (se_stable _ _ _ _ Hse' v pv Hv Hvne Hpv) as (q & ? & ? & ?).
      exists q. split_and!; [done..|]. apply elem_of_union; auto.
    + simplify_eq. exists p. split_and!; [|done|apply elem_of_union; auto].
      rewrite (pd_new_idom_frame S ph ph'); [done| |done|].
      * intros k Hk. apply Hfr. by intros ->.
      * intros u Hu. destruct (ph !! u) as [pu|] eqn:Hpu.
        -- left. apply Husers; eauto.
        -- right. split; [done|]. apply eq_None_not_Some.
           rewrite (same_index_is_Some ph ph') by done. rewrite Hpu.
           by intros [? ?].
Qed.


(** A pass settles a node all of whose uses were settled before. *)
Lemma pd_compute_settles loops fuel g st S w st' ch :
  edges_consistent g →
  solver_inv g (phase st) → settled loops g (phase st) S →
  visited st = ∅ →
  reachable g w → w ∉ S →
  (∀ u, u ∈ get_irn_outs g w → reachable g u → u ∈ S) →
  pd_compute loops fuel g (irg_ret g) st (irg_ret g) = Done (st', ch) →
  solver_inv g (phase st') ∧ settled loops g (phase st') (S ∪ {[w]}).
Proof.
  intros Hedges Hinv Hse Hemp Hw HwS Husers Hrun.
  pose proof (pd_compute_visits_reachable _ _ _ _ _ _ w Hrun Hemp Hw) as Hvis.
  pose (P := λ st : pd_state,
    solver_inv g (phase st) ∧
    settled loops g (phase st)
      (if decide (w ∈ visited st) then S ∪ {[w]} else S)).
  destruct (pd_compute_ind P True loops g (irg_ret g)) with
    (fuel := fuel) (st := st) (n := irg_ret g) (st' := st') (ch := ch)
    as [[Hinv' Hse'] _]; [|done|apply rtc_refl| |].
  - clear st st' ch Hinv Hse Hemp Hrun Hvis.
    intros st n ph' ch [Hinv Hse] Hn Hreach Hrun. split; [|done].
    split; [by eapply pd_compute_node_inv|]. simpl.
    destruct (decide (n = w)) as [->|Hnw].
    + rewrite decide_False in Hse by done.
      rewrite decide_True by (apply elem_of_union; left; by apply elem_of_singleton).
      eapply settled_step_add; [done..| |done].
      intros u Hu Hsome. apply Husers; [done|].
      by apply (ix_dom _ _ (proj1 Hinv)).
    + assert (w ∈ {[n]} ∪ visited st ↔ w ∈ visited st) as Hiff.
      { rewrite elem_of_union, elem_of_singleton. split; [|by auto].
        intros [?|?]; [congruence|done]. }
      rewrite (decide_ext _ _ _ _ Hiff).
      destruct (decide (n ∈ if decide (w ∈ visited st) then S ∪ {[w]} else S))
        as [Hin|Hout].
      * by destruct (settled_step_in _ _ _ _ _ _ _ Hinv Hse Hin Hrun) as [_ ->].
      * by eapply settled_step_other.
  - split; [done|]. rewrite Hemp.
    rewrite decide_False by apply not_elem_of_empty. done.
  - split; [done|]. by rewrite decide_True in Hse' by done.
Qed.

(** When all reachable nodes are settled, a pass changes nothing. *)
Lemma pd_compute_settled loops fuel g st S st' ch :
  solver_inv g (phase st) → settled loops g (phase st) S →
  (∀ v, reachable g v → v ∈ S) →
  pd_compute loops fuel g (irg_ret g) st (irg_ret g) = Done (st', ch) →
  ch = false.
Proof.
  intros Hinv Hse Hall Hrun.
  pose (P := λ st : pd_state,
    solver_inv g (phase st) ∧ settled loops g (phase st) S).
  destruct (pd_compute_ind P False loops g (irg_ret g)) with
    (fuel := fuel) (st := st) (n := irg_ret g) (st' := st') (ch := ch)
    as [_ Hch]; [|done|apply rtc_refl|done|].
  - clear st st' ch Hinv Hse Hrun.
    intros st n ph' ch [Hinv Hse] Hn Hreach Hrun.
    destruct (settled_step_in _ _ _ _ _ _ _ Hinv Hse (Hall n Hreach) Hrun)
      as [-> ->].
    split; [done|]. done.
  - destruct ch; [|done]. by destruct Hch.
Qed.

(** A reachable node outside [S] all of whose reachable uses are in
    [S]: the one with the largest post-order index. *)
Lemma settled_next loops g ph S v :
  solver_inv g ph → edges_consistent g → settled loops g ph S →
  reachable g v → v ∉ S →
  ∃ w, reachable g w ∧ (w ∉ S) ∧
       ∀ u, u ∈ get_irn_outs g w → reachable g u → u ∈ S.
Proof.
  intros [Hix Hts] Hedges Hse.
  remember (Z.to_nat (index_of ph (irg_ret g) - index_of ph v)) as m eqn:Hm.
  revert v Hm. induction m as [m IH] using lt_wf_ind. intros v Hm Hv HvS.
  destruct (decide (Forall (λ u, is_Some (ph !! u) → u ∈ S)
                      (get_irn_outs g v))) as [Hall|Hex].
  - exists v. split_and!; [done..|]. intros u Hu Hru.
    rewrite Forall_forall in Hall. apply Hall; [done|].
    by apply (ix_dom _ _ Hix).
  - apply not_Forall_Exists in Hex; [|apply _].
    apply Exists_exists in Hex as (u & Hu & Hnot).
    destruct (decide (is_Some (ph !! u))) as [Hsome|Hnone];
      [|by elim Hnot].
    assert (u ∉ S) as HuS by (intros ?; by apply Hnot).
    apply Hedges in Hu.
    destruct (ix_dep _ _ Hix u v Hsome Hu) as [Hvs Hlt].
    pose proof (ix_range _ _ Hix u Hsome).
    eapply (IH _ _ u eq_refl); [by apply (ix_dom _ _ Hix)|done].
    Unshelve. lia.
Qed.

Lemma settled_init loops g ph :
  solver_inv g ph → settled loops g ph {[irg_ret g]}.
Proof.
  intros [Hix Hts]. split.
  - by apply elem_of_singleton.
  - intros v ->%elem_of_singleton. apply (ix_dom _ _ Hix), rtc_refl.
  - by intros v u ->%elem_of_singleton.
  - by intros v pv ->%elem_of_singleton.
Qed.

Lemma solver_inv_dom_size g ph :
  solver_inv g ph → size (dom ph) ≤ size (irg_nodes g).
Proof.
  intros [Hix _]. apply subseteq_size. intros v Hv%elem_of_dom.
  by apply reachable_irg_nodes, (ix_dom _ _ Hix).
Qed.

(** The fixpoint loop returns: each pass that reports a change settles
    one more node. *)
Lemma pd_init_loop_total loops g fuel :
  edges_consistent g →
  2 * size (irg_nodes g) ≤ loops →
  size (irg_nodes g) < loops →
  ∀ st S,
    solver_inv g (phase st) → settled loops g (phase st) S →
    size (dom (phase st)) - size S < fuel →
    ∃ st', pd_init_loop loops fuel g (irg_ret g) st = Done st' ∧
           solver_inv g (phase st').
Proof.
  intros Hedges Hloops Hdepth.
  induction fuel as [|fuel IH]; intros st S Hinv Hse Hfuel; [lia|].
  simpl.
  destruct (pd_compute_total loops g loops Hedges Hloops
              (inc_irg_visited st) (irg_ret g)) as (st1 & ch & Hrun & _);
    [done|apply rtc_refl| |by auto|].
  { simpl. eapply Nat.le_lt_trans; [|done]. apply subseteq_size.
    intros x. rewrite elem_of_difference. tauto. }
  rewrite Hrun, bind_Done_l.
  pose proof (pd_compute_inv loops loops g (inc_irg_visited st) _ _ _
                Hinv Hedges Hrun) as Hinv1.
  destruct ch; [|by eauto].
  destruct (decide (dom (phase st) ⊆ S)) as [Hsub|Hnsub].
  { assert (true = false); [|done].
    eapply (pd_compute_settled loops loops g (inc_irg_visited st) S);
      [done..| |done].
    intros v Hv. apply Hsub, elem_of_dom. by apply (ix_dom _ _ (proj1 Hinv)). }
  assert (∃ v, v ∈ dom (phase st) ∧ v ∉ S) as (v & Hv & HvS).
  { destruct (set_choose_L (dom (phase st) ∖ S)) as [v Hv].
    - intros Hemp. apply Hnsub. intros x Hx.
      destruct (decide (x ∈ S)) as [|Hout]; [done|].
      assert (x ∈ dom (phase st) ∖ S) as Hin by (by apply elem_of_difference).
      rewrite Hemp in Hin. by apply not_elem_of_empty in Hin.
    - apply elem_of_difference in Hv. eauto. }
  apply elem_of_dom, (ix_dom _ _ (proj1 Hinv)) in Hv.
  destruct (settled_next _ _ _ _ _ Hinv Hedges Hse Hv HvS)
    as (w & Hw & HwS & Husers).
  destruct (pd_compute_settles loops loops g (inc_irg_visited st) S w st1 true)
    as [_ Hse1]; [done..|].
  apply (IH st1 (S ∪ {[w]})); [done..|].
  assert (dom (phase st1) = dom (phase st)) as ->.
  { apply set_eq. intros x. rewrite !elem_of_dom.
    by rewrite (ix_dom _ _ (proj1 Hinv)), (ix_dom _ _ (proj1 Hinv1)). }
  rewrite size_union, size_singleton by (by apply disjoint_singleton_r).
  assert (size (S ∪ {[w]}) ≤ size (dom (phase st))) as Hle.
  { apply subseteq_size. intros x [Hx| ->%elem_of_singleton]%elem_of_union.
    - by apply elem_of_dom, (se_shadow _ _ _ _ Hse).
    - by apply elem_of_dom, (ix_dom _ _ (proj1 Hinv)). }
  rewrite size_union, size_singleton in Hle by (by apply disjoint_singleton_r).
  lia.
Qed.

(** ** The indexing of the finished tree *)

Lemma same_tree_refl ph : same_tree ph ph.
Proof. intros k. destruct (ph !! k); by constructor. Qed.

Lemma same_tree_trans ph1 ph2 ph3 :
  same_tree ph1 ph2 → same_tree ph2 ph3 → same_tree ph1 ph3.
Proof.
  intros H12 H23 k. specialize (H12 k). specialize (H23 k).
  destruct H12 as [a b (? & ? & ? & ?)|]; inversion H23 as [? c (? & ? & ? & ?)|];
    subst; constructor. split_and!; congruence.
Qed.

Lemma same_tree_insert ph k pk pk' :
  ph !! k = Some pk →
  irn pk' = irn pk → defined pk' = defined pk →
  children pk' = children pk → parent pk' = parent pk →
  same_tree ph (<[k := pk']> ph).
Proof.
  intros Hk ? ? ? ? j. rewrite lookup_insert.
  destruct (decide (k = j)) as [<-|].
  - rewrite Hk. by constructor.
  - destruct (ph !! j); by constructor.
Qed.

Lemma same_tree_lookup ph ph' k pk :
  same_tree ph ph' → ph !! k = Some pk →
  ∃ pk', ph' !! k = Some pk' ∧ irn pk' = irn pk ∧ defined pk' = defined pk ∧
         children pk' = children pk ∧ parent pk' = parent pk.
Proof.
  intros H Hk. specialize (H k). rewrite Hk in H.
  destruct (ph' !! k) as [pk'|]; inversion H; subst. eauto.
Qed.

Lemma same_tree_parent_edge ph ph' v p :
  same_tree ph ph' → parent_edge ph v p ↔ parent_edge ph' v p.
Proof.
  intros H. specialize (H v). unfold parent_edge. split.
  - intros (pv & Hv & Hp). rewrite Hv in H.
    inversion H as [? pv' (_ & _ & _ & Hpar)|]; subst.
    exists pv'. split; [done|congruence].
  - intros (pv' & Hv & Hp). rewrite Hv in H.
    inversion H as [pv ? (_ & _ & _ & Hpar)|]; subst.
    exists pv. split; [done|congruence].
Qed.

Lemma parent_edge_functional ph v p q :
  parent_edge ph v p → parent_edge ph v q → p = q.
Proof. intros (? & ? & ?) (? & ? & ?). congruence. Qed.

(** Two ancestors of a node lie on one chain. *)
Lemma parent_chain_linear ph k a b :
  rtc (parent_edge ph) k a → rtc (parent_edge ph) k b →
  rtc (parent_edge ph) a b ∨ rtc (parent_edge ph) b a.
Proof.
  induction 1 as [|k k' a Hk Hka IH]; intros Hb; [by left|].
  destruct Hb as [|k k'' b Hk' Hb].
  - right. by eapply rtc_l.
  - rewrite <-(parent_edge_functional _ _ _ _ Hk Hk') in Hb. auto.
Qed.

Lemma rtc_parent_edge_rank rk rt ph v a :
  tree_shape rk rt ph → rtc (parent_edge ph) v a → (rk v ≤ rk a)%Z.
Proof.
  intros Hts [->|Htc]%rtc_tc; [lia|].
  apply (tc_parent_edge_rank _ _ _ _ _ Hts) in Htc. lia.
Qed.

(** The subtrees of two children of a node are disjoint, and the node
    is in neither. *)
Lemma subtrees_disjoint rk rt ph v c d k :
  tree_shape rk rt ph →
  parent_edge ph c v → parent_edge ph d v → c ≠ d →
  rtc (parent_edge ph) k c → ¬ rtc (parent_edge ph) k d.
Proof.
  intros Hts Hc Hd Hne Hkc Hkd.
  pose proof (tc_parent_edge_rank _ _ _ _ _ Hts (tc_once _ _ _ Hc)) as Hrc.
  pose proof (tc_parent_edge_rank _ _ _ _ _ Hts (tc_once _ _ _ Hd)) as Hrd.
  destruct (parent_chain_linear _ _ _ _ Hkc Hkd) as [Hcd|Hcd];
    apply rtc_inv in Hcd as [?|(x & Hx & Hrest)]; try done.
  - rewrite <-(parent_edge_functional _ _ _ _ Hc Hx) in Hrest.
    apply (rtc_parent_edge_rank _ _ _ _ _ Hts) in Hrest. lia.
  - rewrite <-(parent_edge_functional _ _ _ _ Hd Hx) in Hrest.
    apply (rtc_parent_edge_rank _ _ _ _ _ Hts) in Hrest. lia.
Qed.

Lemma subtree_not_parent rk rt ph v c :
  tree_shape rk rt ph → parent_edge ph c v → ¬ rtc (parent_edge ph) v c.
Proof.
  intros Hts Hc Hvc.
  pose proof (tc_parent_edge_rank _ _ _ _ _ Hts (tc_once _ _ _ Hc)).
  apply (rtc_parent_edge_rank _ _ _ _ _ Hts) in Hvc. lia.
Qed.

Lemma lookup_eq_index_of ph ph' k :
  ph' !! k = ph !! k →
  index_of ph' k = index_of ph k ∧ max_index_of ph' k = max_index_of ph k.
Proof. unfold index_of, max_index_of. by intros ->. Qed.

Section dom_index.
Context (rk : ir_node → Z) (rt : ir_node) (ph0 : gmap ir_node pd_node).
Hypothesis Hts : tree_shape rk rt ph0.

(** Indexing the subtree of one more child. *)
Lemma dom_loop_inv_step ph1 phA phB done d v c cA cB :
  parent_edge ph0 d v →
  (∀ ch, ch ∈ done → parent_edge ph0 ch v ∧ ch ≠ d) →
  dom_loop_inv ph0 ph1 phA done c cA →
  dom_indexed ph0 phA phB d (cA + 1) cB →
  dom_loop_inv ph0 ph1 phB (done ++ [d]) c cB.
Proof.
  intros Hd Hdone Hloop Hd_ix.
  destruct (di_range _ _ _ _ _ _ Hd_ix d) as [(Hlo & Hmid & Hhi) _];
    [done|].
  pose proof (dl_le _ _ _ _ _ _ Hloop) as Hle.
  assert (Hkeep : ∀ ch k, ch ∈ done → rtc (parent_edge ph0) k ch →
            phB !! k = phA !! k).
  { intros ch k Hch Hk. apply (di_frame _ _ _ _ _ _ Hd_ix).
    destruct (Hdone ch Hch) as [Hchv Hne].
    by eapply subtrees_disjoint. }
  assert (Hold : ∀ ch k, ch ∈ done → rtc (parent_edge ph0) k ch →
            index_of phB k = index_of phA k ∧
            max_index_of phB k = max_index_of phA k ∧
            interval_in phA (c + 1) cA k).
  { intros ch k Hch Hk.
    destruct (lookup_eq_index_of _ _ _ (Hkeep ch k Hch Hk)).
    split_and!; [done..|]. by eapply dl_range. }
  assert (Hnew : ∀ k, rtc (parent_edge ph0) k d →
            interval_in phB (cA + 1) cB k).
  { intros k Hk. by apply (di_range _ _ _ _ _ _ Hd_ix). }
  split.
  - lia.
  - intros k Hk. rewrite (di_frame _ _ _ _ _ _ Hd_ix).
    + apply (dl_frame _ _ _ _ _ _ Hloop). intros ch Hch.
      apply Hk, elem_of_app. auto.
    + apply Hk, elem_of_app. right. by apply list_elem_of_singleton.
  - intros ch k [Hch| ->%list_elem_of_singleton]%elem_of_app Hk.
    + destruct (Hold ch k Hch Hk) as (Hi & Hm & ? & ? & ?).
      unfold interval_in. rewrite Hi, Hm. lia.
    + destruct (Hnew k Hk) as (? & ? & ?). unfold interval_in. lia.
  - intros ch k p [Hch| ->%list_elem_of_singleton]%elem_of_app Hp Hk.
    + assert (rtc (parent_edge ph0) k ch) as Hkc by (by eapply rtc_l).
      destruct (Hold ch k Hch Hkc) as (Hi & Hm & _).
      destruct (Hold ch p Hch Hp) as (Hi' & Hm' & _).
      unfold nested. rewrite Hi, Hm, Hi', Hm'.
      by apply (dl_nested _ _ _ _ _ _ Hloop ch).
    + by apply (di_nested _ _ _ _ _ _ Hd_ix).
  - intros ch ch' x y [Hch| ->%list_elem_of_singleton]%elem_of_app
      [Hch'| ->%list_elem_of_singleton]%elem_of_app Hx Hy Hxy.
    + destruct (Hold ch x Hch Hx) as (Hi & Hm & _).
      destruct (Hold ch' y Hch' Hy) as (Hi' & Hm' & _).
      rewrite Hi, Hm, Hi' in Hxy.
      by apply (dl_sep _ _ _ _ _ _ Hloop ch ch').
    + destruct (Hold ch x Hch Hx) as (Hi & Hm & ? & ? & ?).
      destruct (Hnew y Hy) as (? & ? & ?). lia.
    + destruct (Hold ch' y Hch' Hy) as (Hi & Hm & ? & ? & ?).
      destruct (Hnew x Hx) as (? & ? & ?). lia.
    + by apply (di_sep _ _ _ _ _ _ Hd_ix).
Qed.

(** Closing the interval of a node all of whose children are done. *)
Lemma dom_indexed_finish ph ph2 v pv0 pn c c2 :
  ph0 !! v = Some pv0 → ph !! v = Some pn →
  same_tree ph0 ph2 →
  dom_loop_inv ph0 (<[v := set_index c pn]> ph) ph2 (children pv0) c c2 →
  dom_indexed ph0 ph (<[v := set_max_index c2 (set_index c pn)]> ph2) v c c2.
Proof.
  intros Hv0 Hv Hsame Hloop.
  set (ph3 := <[v := set_max_index c2 (set_index c pn)]> ph2).
  pose proof (dl_le _ _ _ _ _ _ Hloop) as Hle.
  destruct (ts_children _ _ _ Hts v pv0 Hv0) as [_ Hch].
  assert (Hv2 : ph2 !! v = Some (set_index c pn)).
  { rewrite (dl_frame _ _ _ _ _ _ Hloop), lookup_insert_eq; [done|].
    intros ch Hin%Hch. by eapply subtree_not_parent. }
  assert (Hsub : ∀ k, rtc (parent_edge ph0) k v → k ≠ v →
            ∃ ch, ch ∈ children pv0 ∧ rtc (parent_edge ph0) k ch).
  { intros k Hk Hne. apply rtc_inv_r in Hk as [?|(ch & Hkc & Hcv)]; [done|].
    exists ch. split; [by apply Hch|done]. }
  assert (Hne3 : ∀ k, k ≠ v →
            index_of ph3 k = index_of ph2 k ∧
            max_index_of ph3 k = max_index_of ph2 k).
  { intros k Hne. apply lookup_eq_index_of. unfold ph3.
    by rewrite lookup_insert_ne. }
  assert (Hv3 : index_of ph3 v = c ∧ max_index_of ph3 v = c2).
  { unfold index_of, max_index_of, ph3. by rewrite lookup_insert_eq. }
  destruct Hv3 as [Hv3i Hv3m].
  assert (Hin : ∀ k, rtc (parent_edge ph0) k v → k ≠ v →
            interval_in ph3 (c + 1) c2 k).
  { intros k Hk Hne. destruct (Hsub k Hk Hne) as (ch & Hin & Hkc).
    destruct (Hne3 k Hne) as [Hi Hm]. unfold interval_in. rewrite Hi, Hm.
    by apply (dl_range _ _ _ _ _ _ Hloop ch). }
  split.
  - eapply same_tree_trans; [done|]. by eapply same_tree_insert.
  - intros k Hk. assert (k ≠ v) as Hne by (intros ->; by apply Hk).
    unfold ph3. rewrite lookup_insert_ne by done.
    rewrite (dl_frame _ _ _ _ _ _ Hloop); [by rewrite lookup_insert_ne|].
    intros ch Hin'%Hch Hkc. apply Hk. eapply rtc_r; done.
  - done.
  - done.
  - intros k Hk. destruct (decide (k = v)) as [->|Hne].
    + split; [|done]. unfold interval_in. rewrite Hv3i, Hv3m. lia.
    + destruct (Hin k Hk Hne) as (? & ? & ?). unfold interval_in.
      split; [lia|]. intros _. lia.
  - intros k p Hp Hk.
    assert (rtc (parent_edge ph0) k v) as Hkv by (by eapply rtc_l).
    assert (k ≠ v) as Hkne.
    { intros ->. by apply (subtree_not_parent _ _ _ _ _ Hts Hk). }
    destruct (decide (p = v)) as [->|Hpne].
    + destruct (Hin k Hkv Hkne) as (? & ? & ?). unfold nested.
      rewrite Hv3i, Hv3m. lia.
    + destruct (Hsub p Hp Hpne) as (ch & Hin' & Hpc).
      destruct (Hne3 k Hkne) as [Hi Hm]. destruct (Hne3 p Hpne) as [Hi' Hm'].
      unfold nested. rewrite Hi, Hm, Hi', Hm'.
      by apply (dl_nested _ _ _ _ _ _ Hloop ch).
  - intros x y Hx Hy Hxy. destruct (decide (x = v)) as [->|Hxne]; [done|].
    destruct (Hin x Hx Hxne) as (? & ? & ?).
    destruct (decide (y = v)) as [->|Hyne]; [rewrite Hv3i in Hxy; lia|].
    destruct (Hsub x Hx Hxne) as (ch & Hin1 & Hxc).
    destruct (Hsub y Hy Hyne) as (ch' & Hin2 & Hyc).
    destruct (Hne3 x Hxne) as [Hi Hm]. destruct (Hne3 y Hyne) as [Hi' Hm'].
    rewrite Hi, Hm, Hi' in Hxy.
    by apply (dl_sep _ _ _ _ _ _ Hloop ch ch').
Qed.

(** The indexing of a subtree returns and establishes [dom_indexed]. *)
Lemma pd_compute_indices_dom_spec fuel :
  (∀ k, is_Some (ph0 !! k) → (0 ≤ rk k)%Z) →
  ∀ ph v c,
    same_tree ph0 ph → is_Some (ph0 !! v) →
    (rk v < Z.of_nat fuel)%Z →
    ∃ ph' c', pd_compute_indices_dom fuel ph v c = Done (ph', c') ∧
              dom_indexed ph0 ph ph' v c c'.
Proof.
  intros Hrk. induction fuel as [|fuel IH]; intros ph v c Hsame Hv Hfuel.
  { specialize (Hrk v Hv). lia. }
  destruct Hv as [pv0 Hv0].
  destruct (same_tree_lookup _ _ _ _ Hsame Hv0) as (pn & Hv & _ & _ & Hchn & _).
  assert (deref ph v = Done pn) as Hderef by (by apply deref_Done).
  simpl. rewrite Hderef, bind_Done_l, Hchn.
  destruct (ts_children _ _ _ Hts v pv0 Hv0) as [Hnd Hch].
  set (ph1 := <[v := set_index c pn]> ph).
  assert (same_tree ph0 ph1) as Hsame1.
  { eapply same_tree_trans; [done|]. by eapply same_tree_insert. }
  assert (Hfold : ∀ todo done phA cA,
    children pv0 = done ++ todo →
    same_tree ph0 phA →
    dom_loop_inv ph0 ph1 phA done c cA →
    ∃ ph2 c2,
      for_each (λ '(ph, counter) it,
                  pd_compute_indices_dom fuel ph it (counter + 1)%Z)
               (phA, cA) todo = Done (ph2, c2) ∧
      same_tree ph0 ph2 ∧
      dom_loop_inv ph0 ph1 ph2 (children pv0) c c2).
  { induction todo as [|d todo IHt]; intros done phA cA Heq HsameA Hloop.
    - rewrite app_nil_r in Heq. subst done. by eauto.
    - assert (parent_edge ph0 d v) as Hd.
      { apply Hch. rewrite Heq. apply elem_of_app. right.
        apply list_elem_of_here. }
      pose proof (tc_parent_edge_rank _ _ _ _ _ Hts (tc_once _ _ _ Hd)) as Hlt.
      assert (is_Some (ph0 !! d)) as Hds.
      { destruct Hd as (? & ? & _). eauto. }
      destruct (IH phA d (cA + 1)%Z) as (phB & cB & HrunB & HixB);
        [done..|lia|].
      simpl. rewrite HrunB, bind_Done_l.
      apply (IHt (done ++ [d])).
      + by rewrite <-app_assoc.
      + apply HixB.
      + eapply dom_loop_inv_step; [done| |done..].
        intros ch Hin. split.
        * apply Hch. rewrite Heq. apply elem_of_app. auto.
        * intros ->. rewrite Heq in Hnd.
          apply NoDup_app in Hnd as (_ & Hdisj & _).
          apply (Hdisj d Hin), list_elem_of_here. }
  destruct (Hfold (children pv0) [] ph1 c) as (ph2 & c2 & -> & Hsame2 & Hloop);
    [done..| |].
  { split.
    - lia.
    - done.
    - intros ch k Hin. by apply elem_of_nil in Hin.
    - intros ch k p Hin. by apply elem_of_nil in Hin.
    - intros ch ch' x y Hin. by apply elem_of_nil in Hin. }
  rewrite bind_Done_l.
  assert (Hv2 : ph2 !! v = Some (set_index c pn)).
  { rewrite (dl_frame _ _ _ _ _ _ Hloop); [by apply lookup_insert_eq|].
    intros ch Hin%Hch. by eapply subtree_not_parent. }
  unfold deref. rewrite Hv2, bind_Done_l.
  eexists _, _. split; [done|]. by eapply dom_indexed_finish.
Qed.
End dom_index.

(** ** The whole construction *)

Lemma for_each_Done_impl {A S} (body body' : S → A → result S) l s r :
  (∀ s x s', body s x = Done s' → body' s x = Done s') →
  for_each body s l = Done r → for_each body' s l = Done r.
Proof.
  intros Himpl. revert s. induction l as [|x l IH]; intros s Hrun; [done|].
  simpl in *. apply bind_Done in Hrun as (s1 & Hx & Hrun).
  rewrite (Himpl _ _ _ Hx), bind_Done_l. by apply IH.
Qed.

Lemma pd_compute_indices_dom_fuel_mono f f' :
  f ≤ f' →
  ∀ ph v c r,
    pd_compute_indices_dom f ph v c = Done r →
    pd_compute_indices_dom f' ph v c = Done r.
Proof.
  revert f'. induction f as [|f IH]; intros f' Hle ph v c r Hrun; [done|].
  destruct f' as [|f']; [lia|]. simpl in *.
  apply bind_Done in Hrun as (n & Hn & Hrun). rewrite Hn, bind_Done_l.
  apply bind_Done in Hrun as ([ph1 c1] & Hfold & Hrun).
  apply (for_each_Done_impl _
           (λ '(ph0, counter) it,
              pd_compute_indices_dom f' ph0 it (counter + 1)%Z)) in Hfold.
  - by rewrite Hfold, bind_Done_l.
  - intros [phA cA] x s'. apply IH. lia.
Qed.

(** After a pass, every node it has marked is defined. *)
Lemma pd_compute_defines loops fuel g st n st' ch :
  solver_inv g (phase st) → edges_consistent g →
  reachable g n →
  (∀ v, v ∈ visited st → defined_at (phase st) v) →
  pd_compute loops fuel g (irg_ret g) st n = Done (st', ch) →
  ∀ v, v ∈ visited st' → defined_at (phase st') v.
Proof.
  intros Hinv Hedges Hn Hdef Hrun.
  pose (P := λ st : pd_state,
    solver_inv g (phase st) ∧ ∀ v, v ∈ visited st → defined_at (phase st) v).
  destruct (pd_compute_ind P True loops g (irg_ret g)) with
    (fuel := fuel) (st := st) (n := n) (st' := st') (ch := ch)
    as [[_ Hdef'] _]; [|done..|by split|done].
  clear st st' n ch Hinv Hdef Hrun Hn.
  intros st n ph' ch [Hinv Hdef] Hn Hreach Hrun. split; [|done].
  split; [by eapply pd_compute_node_inv|]. simpl.
  intros v [->%elem_of_singleton|Hv]%elem_of_union.
  - destruct (decide (n = irg_ret g)) as [->|Hne].
    + eapply solver_inv_root_defined, pd_compute_node_inv; done.
    + destruct (pd_compute_node_result _ _ _ _ _ _ Hinv Hedges Hrun Hne)
        as (p & pn' & _ & ? & _ & ?). by exists pn'.
  - eapply pd_compute_node_defined_mono; [done..|]. by apply Hdef.
Qed.

Lemma pd_init_loop_defines loops fuel g :
  edges_consistent g →
  ∀ st st',
    solver_inv g (phase st) →
    pd_init_loop loops fuel g (irg_ret g) st = Done st' →
    ∀ v, reachable g v → defined_at (phase st') v.
Proof.
  intros Hedges. induction fuel as [|fuel IH]; intros st st' Hinv Hrun; [done|].
  simpl in Hrun. apply bind_Done in Hrun as ([st1 ch] & Hpass & Hrun).
  pose proof (pd_compute_inv loops loops g (inc_irg_visited st) _ _ _
                Hinv Hedges Hpass) as Hinv1.
  destruct ch; [by eapply IH|]. injection Hrun as <-.
  intros v Hv.
  eapply (pd_compute_defines loops loops g (inc_irg_visited st));
    [done|done|apply rtc_refl| |done|].
  - simpl. intros x Hx. by apply not_elem_of_empty in Hx.
  - by eapply (pd_compute_visits_reachable _ _ _ (inc_irg_visited st)).
Qed.

Lemma solver_inv_same_tree_shape g ph ph' :
  solver_inv g ph → same_tree ph ph' →
  tree_shape (index_of ph) (irg_ret g) ph'.
Proof.
  intros [_ Hts] Hsame.
  assert (∀ k pk', ph' !! k = Some pk' →
            ∃ pk, ph !! k = Some pk ∧ defined pk' = defined pk ∧
                  children pk' = children pk ∧ parent pk' = parent pk) as Hback.
  { intros k pk' Hk. specialize (Hsame k). rewrite Hk in Hsame.
    destruct (ph !! k) as [pk|]; inversion Hsame as [? ? (? & ? & ? & ?)|];
      subst. eauto. }
  split.
  - destruct (ts_root _ _ _ Hts) as (pr & Hr & ? & ?).
    destruct (same_tree_lookup _ _ _ _ Hsame Hr) as (pr' & ? & _ & ? & _ & ?).
    exists pr'. split_and!; congruence.
  - intros v pv' p (pv & Hv & Hd & _ & Hp)%Hback Hpar.
    rewrite Hp in Hpar.
    destruct (ts_parent _ _ _ Hts v pv p Hv Hpar) as (? & (pp & Hpp & ?) & ?).
    split_and!; [congruence| |done].
    destruct (same_tree_lookup _ _ _ _ Hsame Hpp) as (pp' & ? & _ & ? & _).
    exists pp'. split; congruence.
  - intros v pv' (pv & Hv & Hd & _ & Hp)%Hback Hdef. rewrite Hp.
    apply (ts_defined _ _ _ Hts v pv Hv). congruence.
  - intros p pp' (pp & Hpp & _ & Hc & _)%Hback. rewrite Hc.
    destruct (ts_children _ _ _ Hts p pp Hpp) as [? Hch]. split; [done|].
    intros c. rewrite Hch. by apply same_tree_parent_edge.
Qed.

(** What a run of [pd_init] that returns has built. *)
Lemma pd_init_built g fuel pdt :
  well_formed g →
  pd_init fuel g = Done pdt →
  ∃ ph last, built g pdt ph last.
Proof.
  intros Hwf Hrun. pose proof Hwf as [_ Hac Hedges]. unfold pd_init in Hrun.
  apply bind_Done in Hrun as (_ & _ & Hrun).
  apply bind_Done in Hrun as ([st1 c1] & Hpost & Hrun).
  apply bind_Done in Hrun as (st2 & Hloop & Hrun).
  apply bind_Done in Hrun as ([ph3 c3] & Hdom & Hrun).
  injection Hrun as <-.
  assert (construction_state g (phase st1)) as Hcs1 by (by eapply cs_indexed).
  pose proof (pd_init_loop_construction_state _ _ _ _ _ Hloop Hcs1) as Hcs2.
  pose proof (construction_state_inv _ _ Hwf Hcs1) as Hinv1.
  pose proof (construction_state_inv _ _ Hwf Hcs2) as Hinv2.
  pose proof Hinv2 as [Hix2 Hts2].
  destruct (pd_compute_indices_dom_spec (index_of (phase st2)) (irg_ret g)
              (phase st2) Hts2
              (fuel `max` S (Z.to_nat (index_of (phase st2) (irg_ret g)))))
    with (ph := phase st2) (v := irg_ret g) (c := 0%Z)
    as (ph' & c' & Hrun' & Hix').
  { intros k Hk. by apply (ix_range _ _ Hix2). }
  { apply same_tree_refl. }
  { apply (ix_dom _ _ Hix2), rtc_refl. }
  { lia. }
  rewrite (pd_compute_indices_dom_fuel_mono fuel _ (Nat.le_max_l _ _)
             _ _ _ _ Hdom) in Hrun'.
  injection Hrun' as <- <-.
  exists (phase st2), c3. split; simpl; [done..| |done].
  exact (pd_init_loop_defines fuel fuel g Hedges st1 st2 Hinv1 Hloop).
Qed.

(** On a well-formed graph [pd_init] returns, given fuel above twice
    the number of nodes. *)
Lemma pd_init_total g fuel :
  well_formed g →
  2 * size (irg_nodes g) < fuel →
  ∃ pdt, pd_init fuel g = Done pdt.
Proof.
  intros Hwf Hfuel. pose proof Hwf as [Hret Hac Hedges].
  unfold pd_init. rewrite Hret. simpl assert. rewrite bind_Done_l.
  assert (0 < size (irg_nodes g)) as Hpos.
  { assert (size ({[irg_ret g]} : gset nat) ≤ size (irg_nodes g)) as Hle.
    - apply subseteq_size. intros x ->%elem_of_singleton.
      apply irg_nodes_ret.
    - rewrite size_singleton in Hle. lia. }
  destruct (pd_compute_indices_post_init g fuel Hac) as
    (st1 & R & Hpost & Hinv & Hvis & HR & Hroot); [lia|].
  cbv zeta. rewrite Hpost, bind_Done_l. cbv beta iota.
  assert (solver_inv g (phase st1)) as Hinv1
    by (by eapply post_inv_solver_inv).
  destruct (pd_init_loop_total fuel g fuel Hedges) with
    (st := st1) (S := {[irg_ret g]} : gset nat) as (st2 & Hloop & Hinv2);
    [lia|lia|done|by apply settled_init| |].
  { pose proof (solver_inv_dom_size _ _ Hinv1). rewrite size_singleton. lia. }
  rewrite Hloop, bind_Done_l.
  pose proof Hinv2 as [Hix2 Hts2].
  destruct (pd_compute_indices_dom_spec (index_of (phase st2)) (irg_ret g)
              (phase st2) Hts2 fuel)
    with (ph := phase st2) (v := irg_ret g) (c := 0%Z)
    as (ph' & c' & Hrun' & _).
  { intros k Hk. by apply (ix_range _ _ Hix2). }
  { apply same_tree_refl. }
  { apply (ix_dom _ _ Hix2), rtc_refl. }
  { pose proof (ix_root _ _ Hix2). lia. }
  rewrite Hrun', bind_Done_l. eauto.
Qed.

(** ** The built tree *)

Lemma built_solver_inv g pdt ph last :
  well_formed g → built g pdt ph last → solver_inv g ph.
Proof. intros Hwf Hb. eapply construction_state_inv; [done|apply Hb]. Qed.

Lemma built_same_tree g pdt ph last :
  built g pdt ph last → same_tree ph (tree_phase pdt).
Proof. intros Hb. apply (di_same _ _ _ _ _ _ (bt_indexed _ _ _ _ Hb)). Qed.

Lemma built_tree_shape g pdt ph last :
  well_formed g → built g pdt ph last →
  tree_shape (index_of ph) (irg_ret g) (tree_phase pdt).
Proof.
  intros Hwf Hb. eapply solver_inv_same_tree_shape.
  - by eapply built_solver_inv.
  - by eapply built_same_tree.
Qed.

Lemma same_tree_is_Some ph ph' k :
  same_tree ph ph' → is_Some (ph' !! k) ↔ is_Some (ph !! k).
Proof.
  intros H. specialize (H k). destruct H; split; intros [? ?]; by eauto.
Qed.

(** The nodes with a [pd_node] are the reachable ones. *)
Lemma built_lookup g pdt ph last k :
  well_formed g → built g pdt ph last →
  is_Some (tree_phase pdt !! k) ↔ reachable g k.
Proof.
  intros Hwf Hb. rewrite (same_tree_is_Some ph) by (by eapply built_same_tree).
  apply (ix_dom g ph), (built_solver_inv g pdt ph last); done.
Qed.

Lemma built_irn g pdt ph last k pk :
  well_formed g → built g pdt ph last →
  tree_phase pdt !! k = Some pk → irn pk = Some k.
Proof.
  intros Hwf Hb Hk. pose proof (built_same_tree _ _ _ _ Hb k) as Hs.
  rewrite Hk in Hs. destruct (ph !! k) as [pk0|] eqn:Hk0;
    inversion Hs as [? ? (Hirn & _)|]; subst.
  rewrite Hirn. eapply ix_irn; [|done].
  apply (built_solver_inv g pdt ph last); done.
Qed.

(** Every reachable node is linked to the root. *)
Lemma built_to_root g pdt ph last k :
  well_formed g → built g pdt ph last → reachable g k →
  rtc (parent_edge ph) k (irg_ret g).
Proof.
  intros Hwf Hb Hk. destruct (bt_defined _ _ _ _ Hb k Hk) as (pk & ? & ?).
  eapply solver_inv_to_root; [by eapply built_solver_inv|done..].
Qed.

Lemma built_parent_edge g pdt ph last v p :
  built g pdt ph last →
  parent_edge (tree_phase pdt) v p ↔ parent_edge ph v p.
Proof.
  intros Hb. symmetry. apply same_tree_parent_edge. by eapply built_same_tree.
Qed.

Lemma built_rtc_parent_edge g pdt ph last v a :
  built g pdt ph last →
  rtc (parent_edge (tree_phase pdt)) v a ↔ rtc (parent_edge ph) v a.
Proof.
  intros Hb.
  split; apply rtc_subrel; intros x y Hxy;
    by apply (built_parent_edge g pdt ph last x y Hb).
Qed.

Lemma parent_edge_reachable g ph v p :
  solver_inv g ph → parent_edge ph v p → reachable g v ∧ reachable g p.
Proof.
  intros [Hix Hts] (pv & Hv & Hp).
  destruct (ts_parent _ _ _ Hts v pv p Hv Hp) as (_ & (pp & Hpp & _) & _).
  split; apply (ix_dom _ _ Hix); eauto.
Qed.

(** The interval of a node holds the intervals of its ancestors'
    descendants: along a parent chain the intervals grow. *)
Lemma built_chain_nested g pdt ph last b a :
  well_formed g → built g pdt ph last →
  reachable g b → rtc (parent_edge ph) b a →
  (index_of (tree_phase pdt) a ≤ index_of (tree_phase pdt) b ∧
   index_of (tree_phase pdt) b ≤ max_index_of (tree_phase pdt) b ∧
   max_index_of (tree_phase pdt) b ≤ max_index_of (tree_phase pdt) a)%Z.
Proof.
  intros Hwf Hb Hrb Hchain.
  pose proof (built_solver_inv _ _ _ _ Hwf Hb) as Hinv.
  pose proof (bt_indexed _ _ _ _ Hb) as Hix.
  assert (index_of (tree_phase pdt) b ≤ max_index_of (tree_phase pdt) b)%Z
    as Hself.
  { destruct (di_range _ _ _ _ _ _ Hix b) as [(_ & ? & _) _]; [|done].
    by eapply built_to_root. }
  split_and!; [|done|]; clear Hself.
  - induction Hchain as [|b b' a Hbb' _ IH]; [lia|].
    destruct (parent_edge_reachable _ _ _ _ Hinv Hbb') as [_ Hrb'].
    destruct (di_nested _ _ _ _ _ _ Hix b b') as [? _];
      [by eapply built_to_root|done|].
    specialize (IH Hrb'). lia.
  - induction Hchain as [|b b' a Hbb' _ IH]; [lia|].
    destruct (parent_edge_reachable _ _ _ _ Hinv Hbb') as [_ Hrb'].
    destruct (di_nested _ _ _ _ _ _ Hix b b') as [_ ?];
      [by eapply built_to_root|done|].
    specialize (IH Hrb'). lia.
Qed.

(** The interval test is the ancestor test. *)
Lemma built_dominates g pdt ph last A B :
  well_formed g → built g pdt ph last →
  reachable g A → reachable g B →
  ∃ r, pd_dominates pdt A B = Done r ∧
       (r = true ↔ rtc (parent_edge (tree_phase pdt)) B A).
Proof.
  intros Hwf Hb HA HB.
  destruct (proj2 (built_lookup _ _ _ _ A Hwf Hb) HA) as [a Ha].
  destruct (proj2 (built_lookup _ _ _ _ B Hwf Hb) HB) as [b Hb'].
  unfold pd_dominates, phase_get_irn_data. rewrite Ha, Hb'.
  eexists. split; [done|].
  rewrite andb_true_iff, !bool_decide_eq_true.
  rewrite (built_rtc_parent_edge _ _ _ _ _ _ Hb).
  rewrite <-(index_of_lookup _ _ _ Ha), <-(index_of_lookup _ _ _ Hb').
  assert (max_index a = max_index_of (tree_phase pdt) A) as ->.
  { unfold max_index_of. by rewrite Ha. }
  split.
  - intros [? ?].
    apply (di_sep _ _ _ _ _ _ (bt_indexed _ _ _ _ Hb));
      [by eapply built_to_root..|lia].
  - intros Hchain.
    destruct (built_chain_nested _ _ _ _ _ _ Hwf Hb HB Hchain) as (? & ? & ?).
    lia.
Qed.

(** The three phases of a run of [pd_init] that returns. *)
Lemma pd_init_inv g fuel pdt :
  pd_init fuel g = Done pdt →
  ∃ st1 c1 st2 c3,
    is_Return g (irg_ret g) = true ∧
    pd_compute_indices_post fuel g (inc_irg_visited (pd_init_root g))
      (irg_ret g) 0 = Done (st1, c1) ∧
    pd_init_loop fuel fuel g (irg_ret g) st1 = Done st2 ∧
    pd_compute_indices_dom fuel (phase st2) (irg_ret g) 0
      = Done (tree_phase pdt, c3) ∧
    root pdt = irg_ret g.
Proof.
  unfold pd_init. intros Hrun.
  destruct (is_Return g (irg_ret g)) eqn:Hret; [|done].
  apply bind_Done in Hrun as (_ & _ & Hrun).
  apply bind_Done in Hrun as ([st1 c1] & Hpost & Hrun).
  apply bind_Done in Hrun as (st2 & Hloop & Hrun).
  apply bind_Done in Hrun as ([ph3 c3] & Hdom & Hrun).
  injection Hrun as <-. by exists st1, c1, st2, c3.
Qed.

Lemma child_edge_parent_edge rk rt ph p c :
  tree_shape rk rt ph → child_edge ph p c ↔ parent_edge ph c p.
Proof.
  intros Hts. split.
  - intros (pp & Hp & Hc). by apply (ts_children _ _ _ Hts p pp Hp).
  - intros Hc. pose proof Hc as (pc & Hpc & Hpar).
    destruct (ts_parent _ _ _ Hts c pc p Hpc Hpar) as (_ & (pp & Hpp & _) & _).
    exists pp. split; [done|]. by apply (ts_children _ _ _ Hts p pp Hpp).
Qed.

Lemma rtc_child_edge_parent_edge rk rt ph v c :
  tree_shape rk rt ph →
  rtc (child_edge ph) v c ↔ rtc (parent_edge ph) c v.
Proof.
  intros Hts. split.
  - induction 1 as [|v w c Hvw _ IH]; [done|].
    eapply rtc_r; [done|]. by apply (child_edge_parent_edge _ _ _ _ _ Hts).
  - induction 1 as [|c w v Hcw _ IH]; [done|].
    eapply rtc_r; [done|]. by apply (child_edge_parent_edge _ _ _ _ _ Hts).
Qed.

Lemma rtc_parent_edge_is_Some ph v a :
  rtc (parent_edge ph) v a → is_Some (ph !! a) → is_Some (ph !! v).
Proof. intros [|? w ? (pv & Hv & _) _] ?; eauto. Qed.

(** X1: on a well-formed graph, [pd_init] returns when the fuel exceeds
    twice the number of nodes; the root of the tree is the sink, the
    nodes with a [pd_node] are exactly those reachable from the sink,
    all of them are defined and record their node, and the sink is the
    only one without a parent. *)
Theorem pd_init_terminates g fuel :
  well_formed g →
  2 * size (irg_nodes g) < fuel →
  ∃ pdt,
    pd_init fuel g = Done pdt ∧
    root pdt = irg_ret g ∧
    (∀ v, is_Some (tree_phase pdt !! v) ↔ reachable g v) ∧
    (∀ v pv, tree_phase pdt !! v = Some pv →
             irn pv = Some v ∧ defined pv = true ∧
             (parent pv = None ↔ v = irg_ret g)).
Proof.
  intros Hwf Hfuel. destruct (pd_init_total g fuel Hwf Hfuel) as [pdt Hrun].
  destruct (pd_init_built g fuel pdt Hwf Hrun) as (ph & last & Hb).
  pose proof (built_tree_shape _ _ _ _ Hwf Hb) as Hts.
  exists pdt. split_and!; [done|apply Hb| |].
  - intros v. by eapply built_lookup.
  - intros v pv Hv. split_and!.
    + by eapply built_irn.
    + assert (reachable g v) as Hr by (eapply built_lookup; eauto).
      destruct (bt_defined _ _ _ _ Hb v Hr) as (pv0 & Hv0 & Hd).
      destruct (same_tree_lookup _ _ _ _ (built_same_tree _ _ _ _ Hb) Hv0)
        as (pv' & ? & _ & ? & _). simplify_eq. congruence.
    + destruct (ts_root _ _ _ Hts) as (pr & Hr & Hrp & _). split.
      * intros Hnone. assert (defined pv = true) as Hd.
        { assert (reachable g v) as Hrv by (eapply built_lookup; eauto).
          destruct (bt_defined _ _ _ _ Hb v Hrv) as (pv0 & Hv0 & Hd).
          destruct (same_tree_lookup _ _ _ _ (built_same_tree _ _ _ _ Hb) Hv0)
            as (pv' & ? & _ & ? & _). simplify_eq. congruence. }
        destruct (ts_defined _ _ _ Hts v pv Hv Hd) as [?|[? ?]];
          [done|congruence].
      * intros ->. congruence.
Qed.

Lemma pd_init_terminates_witness :
  ∃ pdt,
    pd_init 9 (diamond [1; 2] [1; 2]) = Done pdt ∧
    root pdt = irg_ret (diamond [1; 2] [1; 2]) ∧
    (∀ v, is_Some (tree_phase pdt !! v) ↔ reachable (diamond [1; 2] [1; 2]) v) ∧
    (∀ v pv, tree_phase pdt !! v = Some pv →
             irn pv = Some v ∧ defined pv = true ∧
             (parent pv = None ↔ v = irg_ret (diamond [1; 2] [1; 2]))).
Proof.
  apply (pd_init_terminates (diamond [1; 2] [1; 2]) 9).
  - apply diamond_well_formed.
  - vm_compute. lia.
Defined.

(** X2: after [pd_init] on a well-formed graph, the interval of every
    node lies within the interval of each of its tree ancestors: for a
    node [c] reached from [v] via children lists,
    [index(v) <= index(c) <= max_index(c) <= max_index(v)]. *)
Theorem pd_init_interval_nesting g fuel pdt v c :
  well_formed g →
  pd_init fuel g = Done pdt →
  is_Some (tree_phase pdt !! v) →
  rtc (child_edge (tree_phase pdt)) v c →
  (index_of (tree_phase pdt) v ≤ index_of (tree_phase pdt) c ∧
   index_of (tree_phase pdt) c ≤ max_index_of (tree_phase pdt) c ∧
   max_index_of (tree_phase pdt) c ≤ max_index_of (tree_phase pdt) v)%Z.
Proof.
  intros Hwf Hrun Hv Hvc.
  destruct (pd_init_built g fuel pdt Hwf Hrun) as (ph & last & Hb).
  pose proof (built_tree_shape _ _ _ _ Hwf Hb) as Hts.
  apply (rtc_child_edge_parent_edge _ _ _ _ _ Hts) in Hvc.
  assert (reachable g c) as Hc.
  { eapply built_lookup; [done..|]. by eapply rtc_parent_edge_is_Some. }
  eapply built_chain_nested; [done..|].
  by apply (built_rtc_parent_edge _ _ _ _ _ _ Hb).
Qed.

Lemma pd_init_interval_nesting_witness :
  ∃ pdt,
    pd_init 4 (diamond [1; 2] [1; 2]) = Done pdt ∧
    (index_of (tree_phase pdt) 0 ≤ index_of (tree_phase pdt) 3 ∧
     index_of (tree_phase pdt) 3 ≤ max_index_of (tree_phase pdt) 3 ∧
     max_index_of (tree_phase pdt) 3 ≤ max_index_of (tree_phase pdt) 0)%Z.
Proof.
  eexists. split; [vm_compute; reflexivity|].
  apply (pd_init_interval_nesting (diamond [1; 2] [1; 2]) 4).
  - apply diamond_well_formed.
  - vm_compute; reflexivity.
  - vm_compute; eauto.
  - apply rtc_once. eexists. split; [vm_compute; reflexivity|].
    vm_compute. apply list_elem_of_In. simpl. auto.
Defined.

(** X3: after [pd_init] on a well-formed graph, [pd_dominates(A, B)]
    returns true exactly when A is B or a tree ancestor of B, for all
    nodes A and B that have a [pd_node]. *)
Theorem pd_dominates_ancestor g fuel pdt A B :
  well_formed g →
  pd_init fuel g = Done pdt →
  is_Some (tree_phase pdt !! A) → is_Some (tree_phase pdt !! B) →
  ∃ r, pd_dominates pdt A B = Done r ∧
       (r = true ↔ rtc (parent_edge (tree_phase pdt)) B A).
Proof.
  intros Hwf Hrun HA HB.
  destruct (pd_init_built g fuel pdt Hwf Hrun) as (ph & last & Hb).
  eapply built_dominates; [done..| |]; by eapply built_lookup.
Qed.

Lemma pd_dominates_ancestor_witness :
  ∃ pdt,
    pd_init 4 (diamond [1; 2] [1; 2]) = Done pdt ∧
    ∃ r, pd_dominates pdt 0 3 = Done r ∧
         (r = true ↔ rtc (parent_edge (tree_phase pdt)) 3 0).
Proof.
  eexists. split; [vm_compute; reflexivity|].
  apply (pd_dominates_ancestor (diamond [1; 2] [1; 2]) 4).
  - apply diamond_well_formed.
  - vm_compute; reflexivity.
  - vm_compute; eauto.
  - vm_compute; eauto.
Defined.

Lemma rtc_parent_edge_antisym rk rt ph a b :
  tree_shape rk rt ph →
  rtc (parent_edge ph) a b → rtc (parent_edge ph) b a → a = b.
Proof.
  intros Hts [->|Hab]%rtc_tc Hba; [done|].
  apply (tc_parent_edge_rank _ _ _ _ _ Hts) in Hab.
  apply (rtc_parent_edge_rank _ _ _ _ _ Hts) in Hba. lia.
Qed.

(** X4: after [pd_init] on a well-formed graph, [pd_dominates] is a
    partial order on the nodes that have a [pd_node], with the root as
    least element: every node dominates itself, the root dominates
    every node, two nodes that dominate each other are equal, and
    dominance is transitive. *)
Theorem pd_dominates_partial_order g fuel pdt :
  well_formed g →
  pd_init fuel g = Done pdt →
  (∀ A, is_Some (tree_phase pdt !! A) →
        pd_dominates pdt A A = Done true ∧
        pd_dominates pdt (root pdt) A = Done true) ∧
  (∀ A B, pd_dominates pdt A B = Done true →
          pd_dominates pdt B A = Done true → A = B) ∧
  (∀ A B C, pd_dominates pdt A B = Done true →
            pd_dominates pdt B C = Done true →
            pd_dominates pdt A C = Done true).
Proof.
  intros Hwf Hrun.
  destruct (pd_init_built g fuel pdt Hwf Hrun) as (ph & last & Hb).
  pose proof (built_tree_shape _ _ _ _ Hwf Hb) as Hts.
  assert (Hshadow : ∀ A B, pd_dominates pdt A B = Done true →
            reachable g A ∧ reachable g B).
  { intros A B. unfold pd_dominates, phase_get_irn_data.
    destruct (tree_phase pdt !! A) eqn:HA; [|done].
    destruct (tree_phase pdt !! B) eqn:HB; [|done].
    intros _. split; eapply built_lookup; eauto. }
  assert (Hiff : ∀ A B, reachable g A → reachable g B →
            pd_dominates pdt A B = Done true ↔
            rtc (parent_edge (tree_phase pdt)) B A).
  { intros A B HA HB.
    destruct (built_dominates _ _ _ _ A B Hwf Hb HA HB) as (r & Hr & Hiff).
    rewrite Hr. rewrite <-Hiff. split; [by intros [= ->]|by intros ->]. }
  split_and!.
  - intros A HA%(built_lookup g pdt ph last A Hwf Hb). split.
    + by apply Hiff.
    + rewrite (bt_root _ _ _ _ Hb). apply Hiff; [apply rtc_refl|done|].
      apply (built_rtc_parent_edge _ _ _ _ _ _ Hb). by eapply built_to_root.
  - intros A B HAB HBA. destruct (Hshadow _ _ HAB) as [HA HB].
    apply Hiff in HAB; [|done..]. apply Hiff in HBA; [|done..].
    by eapply rtc_parent_edge_antisym.
  - intros A B C HAB HBC. destruct (Hshadow _ _ HAB) as [HA HB].
    destruct (Hshadow _ _ HBC) as [_ HC].
    apply Hiff in HAB; [|done..]. apply Hiff in HBC; [|done..].
    apply Hiff; [done..|]. etrans; done.
Qed.

Lemma pd_dominates_partial_order_witness :
  ∃ pdt,
    pd_init 4 (diamond [1; 2] [1; 2]) = Done pdt ∧
    (∀ A B, pd_dominates pdt A B = Done true →
            pd_dominates pdt B A = Done true → A = B).
Proof.
  eexists. split; [vm_compute; reflexivity|].
  apply (pd_dominates_partial_order (diamond [1; 2] [1; 2]) 4).
  - apply diamond_well_formed.
  - vm_compute; reflexivity.
Defined.

Lemma pd_children_iter_nexts_nil pdt m :
  pd_children_iter_nexts pdt m [] = Done (replicate m None, []).
Proof. induction m as [|m IH]; [done|]. simpl. by rewrite IH. Qed.

Lemma pd_children_iter_nexts_list pdt l m :
  (∀ c, c ∈ l → ∃ pc, tree_phase pdt !! c = Some pc ∧ irn pc = Some c) →
  pd_children_iter_nexts pdt (length l + m) l
  = Done ((Some <$> l) ++ replicate m None, []).
Proof.
  induction l as [|c l IH]; intros Hl; [apply pd_children_iter_nexts_nil|].
  destruct (Hl c) as (pc & Hc & Hirn); [apply list_elem_of_here|].
  simpl. unfold deref. rewrite Hc. simpl. rewrite Hirn, IH; [done|].
  intros c' Hc'. by apply Hl, list_elem_of_further.
Qed.

(** X5: after [pd_init] on a well-formed graph, for a node A with a
    [pd_node], [pd_children_iter_init] followed by calls of
    [pd_children_iter_next] yields the nodes of the children list of A
    in list order and after them null on every further call;
    [pd_get_children_count] is the number of nodes yielded. *)
Theorem pd_children_iter_yields g fuel pdt A pa m :
  well_formed g →
  pd_init fuel g = Done pdt →
  tree_phase pdt !! A = Some pa →
  pd_children_iter_init pdt A = Done (children pa) ∧
  pd_get_children_count pdt A = Done (Z.of_nat (length (children pa))) ∧
  pd_children_iter_nexts pdt (length (children pa) + m) (children pa)
  = Done ((Some <$> children pa) ++ replicate m None, []).
Proof.
  intros Hwf Hrun HA.
  destruct (pd_init_built g fuel pdt Hwf Hrun) as (ph & last & Hb).
  pose proof (built_tree_shape _ _ _ _ Hwf Hb) as Hts.
  unfold pd_children_iter_init, pd_get_children_count, phase_get_irn_data.
  rewrite HA. split_and!; [done..|].
  apply pd_children_iter_nexts_list. intros c Hc.
  apply (ts_children _ _ _ Hts A pa HA) in Hc as (pc & Hpc & _).
  exists pc. split; [done|]. by eapply built_irn.
Qed.

Lemma pd_children_iter_yields_witness :
  ∃ pdt pa,
    pd_init 4 (diamond [1; 2] [1; 2]) = Done pdt ∧
    tree_phase pdt !! 0 = Some pa ∧
    children pa = [1; 2; 3] ∧
    pd_children_iter_init pdt 0 = Done (children pa) ∧
    pd_get_children_count pdt 0 = Done (Z.of_nat (length (children pa))) ∧
    pd_children_iter_nexts pdt (length (children pa) + 2) (children pa)
    = Done ((Some <$> children pa) ++ replicate 2 None, []).
Proof.
  eexists _, _. split; [vm_compute; reflexivity|].
  split; [vm_compute; reflexivity|]. split; [reflexivity|].
  apply (pd_children_iter_yields (diamond [1; 2] [1; 2]) 4).
  - apply diamond_well_formed.
  - vm_compute; reflexivity.
  - vm_compute; reflexivity.
Defined.

(** X6: after [pd_init] on a well-formed graph, [pd_get_parent] returns
    null for the root only; for any other node with a [pd_node] it
    returns a node whose children list holds the node exactly once,
    and a node is in the children list of [p] only if [pd_get_parent]
    returns [p] for it. *)
Theorem pd_get_parent_children g fuel pdt :
  well_formed g →
  pd_init fuel g = Done pdt →
  pd_get_parent pdt (root pdt) = Done None ∧
  (∀ v, is_Some (tree_phase pdt !! v) → v ≠ root pdt →
        ∃ p pp, pd_get_parent pdt v = Done (Some p) ∧
                tree_phase pdt !! p = Some pp ∧
                v ∈ children pp ∧ NoDup (children pp)) ∧
  (∀ p pp c, tree_phase pdt !! p = Some pp → c ∈ children pp →
             pd_get_parent pdt c = Done (Some p)).
Proof.
  intros Hwf Hrun.
  destruct (pd_init_built g fuel pdt Hwf Hrun) as (ph & last & Hb).
  pose proof (built_tree_shape _ _ _ _ Hwf Hb) as Hts.
  assert (Hget : ∀ c p, parent_edge (tree_phase pdt) c p →
            pd_get_parent pdt c = Done (Some p)).
  { intros c p (pc & Hpc & Hpar).
    destruct (ts_parent _ _ _ Hts c pc p Hpc Hpar) as (_ & (pp & Hpp & _) & _).
    unfold pd_get_parent, phase_get_irn_data, deref.
    rewrite Hpc, Hpar, Hpp. simpl.
    by rewrite (built_irn _ _ _ _ _ _ Hwf Hb Hpp). }
  rewrite (bt_root _ _ _ _ Hb). split_and!.
  - destruct (ts_root _ _ _ Hts) as (pr & Hr & Hrp & _).
    unfold pd_get_parent, phase_get_irn_data. by rewrite Hr, Hrp.
  - intros v [pv Hv] Hne.
    assert (defined pv = true) as Hd.
    { assert (reachable g v) as Hrv by (eapply built_lookup; eauto).
      destruct (bt_defined _ _ _ _ Hb v Hrv) as (pv0 & Hv0 & Hd).
      destruct (same_tree_lookup _ _ _ _ (built_same_tree _ _ _ _ Hb) Hv0)
        as (pv' & ? & _ & ? & _). simplify_eq. congruence. }
    destruct (ts_defined _ _ _ Hts v pv Hv Hd) as [?|[p Hp]]; [done|].
    destruct (ts_parent _ _ _ Hts v pv p Hv Hp) as (_ & (pp & Hpp & _) & _).
    destruct (ts_children _ _ _ Hts p pp Hpp) as [Hnd Hch].
    exists p, pp. split_and!; [|done| |done].
    + apply Hget. by exists pv.
    + apply Hch. by exists pv.
  - intros p pp c Hp Hc. apply Hget.
    by apply (ts_children _ _ _ Hts p pp Hp).
Qed.

Lemma pd_get_parent_children_witness :
  ∃ pdt,
    pd_init 4 (diamond [1; 2] [1; 2]) = Done pdt ∧
    pd_get_parent pdt (root pdt) = Done None.
Proof.
  eexists. split; [vm_compute; reflexivity|].
  apply (pd_get_parent_children (diamond [1; 2] [1; 2]) 4).
  - apply diamond_well_formed.
  - vm_compute; reflexivity.
Defined.

(** X7: after [pd_init] on a well-formed graph, [pd_get_root] returns
    the sink of the graph. *)
Theorem pd_get_root_sink g fuel pdt :
  well_formed g →
  pd_init fuel g = Done pdt →
  pd_get_root pdt = Done (Some (irg_ret g)).
Proof.
  intros Hwf Hrun.
  destruct (pd_init_built g fuel pdt Hwf Hrun) as (ph & last & Hb).
  destruct (ts_root _ _ _ (built_tree_shape _ _ _ _ Hwf Hb))
    as (pr & Hr & _).
  unfold pd_get_root, deref. rewrite (bt_root _ _ _ _ Hb), Hr. simpl.
  by rewrite (built_irn _ _ _ _ _ _ Hwf Hb Hr).
Qed.

Lemma pd_get_root_sink_witness :
  ∃ pdt,
    pd_init 4 (diamond [1; 2] [1; 2]) = Done pdt ∧
    pd_get_root pdt = Done (Some (irg_ret (diamond [1; 2] [1; 2]))).
Proof.
  eexists. split; [vm_compute; reflexivity|].
  apply (pd_get_root_sink (diamond [1; 2] [1; 2]) 4).
  - apply diamond_well_formed.
  - vm_compute; reflexivity.
Defined.

(** ** The fixpoint *)

(** A pass that reports no change has changed nothing, and the step on
    each node it marked found the node in place. *)
Lemma pd_compute_no_change loops g rt fuel :
  ∀ st n st',
    pd_compute loops fuel g rt st n = Done (st', false) →
    phase st' = phase st ∧
    ∀ v, v ∈ visited st' → v ∉ visited st →
         pd_compute_node loops g rt (phase st) v = Done (phase st, false).
Proof.
  induction fuel as [|fuel IH]; intros st n st' Hrun; [done|].
  simpl in Hrun. destruct (irn_visited st n) eqn:Hvis.
  { injection Hrun as <-. split; [done|]. intros v ? ?; done. }
  apply irn_visited_false in Hvis.
  apply bind_Done in Hrun as ([ph1 ch1] & Hnode & Hrun).
  assert (Hfold : ∀ l stA chA,
    for_each (λ '(st, changed) dep,
                '(st, c) ← pd_compute loops fuel g rt st dep;
                Done (st, changed || c)) (stA, chA) l = Done (st', false) →
    chA = false ∧ phase st' = phase stA ∧
    ∀ v, v ∈ visited st' → v ∉ visited stA →
         pd_compute_node loops g rt (phase stA) v = Done (phase stA, false)).
  { clear Hrun Hnode. induction l as [|d l IHl]; intros stA chA Hrun.
    - simpl in Hrun. injection Hrun as <- <-. split_and!; [done..|].
      intros v ? ?; done.
    - simpl in Hrun. apply bind_Done in Hrun as ([stB chB] & Hd & Hrun).
      apply bind_Done in Hd as ([stC chC] & Hd & Heq).
      injection Heq as <- <-.
      destruct (IHl _ _ Hrun) as (Hor & Hph & Hst).
      apply orb_false_iff in Hor as [-> ->].
      destruct (IH _ _ _ Hd) as [HphC HstC].
      split_and!; [done|congruence|].
      intros v Hv HvA. destruct (decide (v ∈ visited stC)) as [HvC|HvC].
      + by apply HstC.
      + rewrite <-HphC. by apply Hst. }
  destruct (Hfold _ _ _ Hrun) as (-> & Hph & Hst). simpl in *.
  pose proof (pd_compute_node_unchanged _ _ _ _ _ _ Hnode) as ->.
  split; [done|]. intros v Hv HvV.
  destruct (decide (v = n)) as [->|Hne]; [done|].
  apply Hst; [done|]. rewrite not_elem_of_union, not_elem_of_singleton. done.
Qed.

(** When the loop of [pd_init] ends, the step on every reachable node
    finds the node in place. *)
Lemma pd_init_loop_fixpoint loops g fuel :
  ∀ st st',
    pd_init_loop loops fuel g (irg_ret g) st = Done st' →
    ∀ v, reachable g v →
         pd_compute_node loops g (irg_ret g) (phase st') v
         = Done (phase st', false).
Proof.
  induction fuel as [|fuel IH]; intros st st' Hrun; [done|].
  simpl in Hrun. apply bind_Done in Hrun as ([st1 ch] & Hpass & Hrun).
  destruct ch; [by eapply IH|]. injection Hrun as <-.
  intros v Hv.
  destruct (pd_compute_no_change _ _ _ _ _ _ _ Hpass) as [Hph Hst].
  rewrite Hph. apply Hst.
  - by eapply (pd_compute_visits_reachable _ _ _ (inc_irg_visited st)).
  - simpl. apply not_elem_of_empty.
Qed.

Lemma pd_init_built_at g fuel pdt st1 c1 st2 c3 :
  well_formed g →
  pd_compute_indices_post fuel g (inc_irg_visited (pd_init_root g))
    (irg_ret g) 0 = Done (st1, c1) →
  pd_init_loop fuel fuel g (irg_ret g) st1 = Done st2 →
  pd_compute_indices_dom fuel (phase st2) (irg_ret g) 0
    = Done (tree_phase pdt, c3) →
  root pdt = irg_ret g →
  built g pdt (phase st2) c3.
Proof.
  intros Hwf Hpost Hloop Hdom Hroot. pose proof Hwf as [_ Hac Hedges].
  assert (construction_state g (phase st1)) as Hcs1 by (by eapply cs_indexed).
  pose proof (pd_init_loop_construction_state _ _ _ _ _ Hloop Hcs1) as Hcs2.
  pose proof (construction_state_inv _ _ Hwf Hcs1) as Hinv1.
  pose proof (construction_state_inv _ _ Hwf Hcs2) as Hinv2.
  pose proof Hinv2 as [Hix2 Hts2].
  destruct (pd_compute_indices_dom_spec (index_of (phase st2)) (irg_ret g)
              (phase st2) Hts2
              (fuel `max` S (Z.to_nat (index_of (phase st2) (irg_ret g)))))
    with (ph := phase st2) (v := irg_ret g) (c := 0%Z)
    as (ph' & c' & Hrun' & Hix').
  { intros k Hk. by apply (ix_range _ _ Hix2). }
  { apply same_tree_refl. }
  { apply (ix_dom _ _ Hix2), rtc_refl. }
  { lia. }
  rewrite (pd_compute_indices_dom_fuel_mono fuel _ (Nat.le_max_l _ _)
             _ _ _ _ Hdom) in Hrun'.
  injection Hrun' as <- <-.
  split; [done..| |done].
  exact (pd_init_loop_defines fuel fuel g Hedges st1 st2 Hinv1 Hloop).
Qed.

(** X8: the tree that [pd_init] builds for a well-formed graph is a
    fixpoint of the solver: in the phase [ph] that the solver leaves
    (the built tree up to the final re-indexing), the candidate that
    [pd_compute] computes for any reachable node other than the sink,
    by intersecting its defined uses, is the parent the node has in the
    built tree. *)
Theorem pd_init_fixpoint g fuel pdt :
  well_formed g →
  pd_init fuel g = Done pdt →
  ∃ ph,
    construction_state g ph ∧
    same_tree ph (tree_phase pdt) ∧
    ∀ v, reachable g v → v ≠ irg_ret g →
         ∃ p, pd_new_idom fuel g ph v = Done p ∧
              parent_edge (tree_phase pdt) v p.
Proof.
  intros Hwf Hrun. pose proof Hwf as [_ _ Hedges].
  destruct (pd_init_inv _ _ _ Hrun)
    as (st1 & c1 & st2 & c3 & _ & Hpost & Hloop & Hdom & Hroot).
  pose proof (pd_init_built_at _ _ _ _ _ _ _ Hwf Hpost Hloop Hdom Hroot) as Hb.
  exists (phase st2). split_and!; [apply Hb|by eapply built_same_tree|].
  intros v Hv Hne.
  pose proof (pd_init_loop_fixpoint _ _ _ _ _ Hloop v Hv) as Hstep.
  destruct (pd_compute_node_result _ _ _ _ _ _
              (built_solver_inv _ _ _ _ Hwf Hb) Hedges Hstep Hne)
    as (p & pv & Hp & Hpv & Hpar & _).
  exists p. split; [done|].
  apply (built_parent_edge _ _ _ _ _ _ Hb). by exists pv.
Qed.

Lemma pd_init_fixpoint_witness :
  ∃ pdt ph,
    pd_init 4 (diamond [1; 2] [1; 2]) = Done pdt ∧
    construction_state (diamond [1; 2] [1; 2]) ph ∧
    same_tree ph (tree_phase pdt) ∧
    ∀ v, reachable (diamond [1; 2] [1; 2]) v →
         v ≠ irg_ret (diamond [1; 2] [1; 2]) →
         ∃ p, pd_new_idom 4 (diamond [1; 2] [1; 2]) ph v = Done p ∧
              parent_edge (tree_phase pdt) v p.
Proof.
  assert (∃ pdt, pd_init 4 (diamond [1; 2] [1; 2]) = Done pdt) as [pdt Hrun]
    by (eexists; vm_compute; reflexivity).
  destruct (pd_init_fixpoint (diamond [1; 2] [1; 2]) 4 pdt
              diamond_well_formed Hrun) as (ph & ? & ? & ?).
  by exists pdt, ph.
Defined.

(** ** The intersection is the lowest common ancestor *)

Lemma pd_climb_below g ph fuel :
  solver_inv g ph →
  ∀ x y x' z,
    pd_climb fuel ph x y = Done x' →
    rtc (parent_edge ph) x z → rtc (parent_edge ph) y z →
    rtc (parent_edge ph) x' z.
Proof.
  intros [Hix Hts]. induction fuel as [|fuel IH]; intros x y x' z Hrun Hx Hy;
    [done|].
  simpl in Hrun.
  apply bind_Done in Hrun as (xn & Hxn%deref_Done & Hrun).
  apply bind_Done in Hrun as (yn & Hyn%deref_Done & Hrun).
  case_bool_decide as Hlt; [|by injection Hrun as <-].
  destruct (parent xn) as [p|] eqn:Hp; [|done].
  apply (IH _ _ _ z Hrun); [|done].
  apply rtc_inv in Hx as [->|(p' & Hp' & Hrest)].
  - apply (rtc_parent_edge_rank _ _ _ _ _ Hts) in Hy.
    rewrite (index_of_lookup _ _ _ Hxn), (index_of_lookup _ _ _ Hyn) in Hy.
    lia.
  - assert (parent_edge ph x p) as Hxp by (by exists xn).
    by rewrite (parent_edge_functional _ _ _ _ Hxp Hp').
Qed.

Lemma pd_compute_intersect_below g ph fuel :
  solver_inv g ph →
  ∀ lhs rhs r z,
    pd_compute_intersect fuel ph lhs rhs = Done r →
    rtc (parent_edge ph) lhs z → rtc (parent_edge ph) rhs z →
    rtc (parent_edge ph) r z.
Proof.
  intros Hinv. induction fuel as [|fuel IH]; intros lhs rhs r z Hrun Hl Hr;
    [done|].
  simpl in Hrun. case_bool_decide; [|by injection Hrun as <-].
  apply bind_Done in Hrun as (lhs' & Hl' & Hrun).
  apply bind_Done in Hrun as (rhs' & Hr' & Hrun).
  pose proof (pd_climb_below _ _ _ Hinv _ _ _ z Hl' Hl Hr) as Hlz.
  pose proof (pd_climb_below _ _ _ Hinv _ _ _ z Hr' Hr Hlz) as Hrz.
  by apply (IH _ _ _ z Hrun).
Qed.

(** X9: in every phase of the construction of a well-formed graph, the
    intersection walk on two defined nodes returns, given a bound of
    twice the number of nodes; the node it returns is defined, is an
    ancestor of (or equal to) both nodes, and lies below every other
    common ancestor: it is their lowest common ancestor. *)
Theorem pd_compute_intersect_lca g ph loops lhs rhs :
  well_formed g →
  construction_state g ph →
  2 * size (irg_nodes g) ≤ loops →
  defined_at ph lhs → defined_at ph rhs →
  ∃ r,
    pd_compute_intersect loops ph lhs rhs = Done r ∧
    defined_at ph r ∧
    rtc (parent_edge ph) lhs r ∧ rtc (parent_edge ph) rhs r ∧
    ∀ z, rtc (parent_edge ph) lhs z → rtc (parent_edge ph) rhs z →
         rtc (parent_edge ph) r z.
Proof.
  intros Hwf Hcs Hloops Hl Hr.
  pose proof (construction_state_inv _ _ Hwf Hcs) as Hinv.
  destruct (pd_compute_intersect_total g ph loops Hinv lhs rhs) as [r Hrun];
    [done..|by apply intersect_fuel_enough|].
  destruct (pd_compute_intersect_result _ _ _ _ _ _ Hinv Hl Hrun)
    as (? & ? & ?).
  exists r. split_and!; [done..|].
  intros z. by apply (pd_compute_intersect_below g ph loops Hinv lhs rhs r z).
Qed.

(** The state of the diamond graph after the post-order indexing, and
    after one pass of the solver. *)
Definition diamond_indexed_state : pd_state :=
  match diamond_indexed with
  | Done (st, _) => st
  | _ => mk_pd_state ∅ ∅
  end.
Definition diamond_pass_state : pd_state :=
  match pd_compute 8 8 (diamond [1; 2] [1; 2]) 0
          (inc_irg_visited diamond_indexed_state) 0 with
  | Done (st, _) => st
  | _ => mk_pd_state ∅ ∅
  end.

Lemma diamond_indexed_state_cs :
  construction_state (diamond [1; 2] [1; 2]) (phase diamond_indexed_state).
Proof. apply (cs_indexed _ 4 diamond_indexed_state 4%Z). vm_compute. reflexivity. Qed.

Lemma diamond_pass_state_cs :
  construction_state (diamond [1; 2] [1; 2]) (phase diamond_pass_state).
Proof.
  apply (pd_compute_construction_state 8 8 (diamond [1; 2] [1; 2])
           (inc_irg_visited diamond_indexed_state) 0 diamond_pass_state true).
  - vm_compute. reflexivity.
  - apply diamond_indexed_state_cs.
Qed.

Lemma pd_compute_intersect_lca_witness :
  ∃ r,
    pd_compute_intersect 8 (phase diamond_pass_state) 2 3 = Done r ∧
    defined_at (phase diamond_pass_state) r ∧
    rtc (parent_edge (phase diamond_pass_state)) 2 r ∧
    rtc (parent_edge (phase diamond_pass_state)) 3 r ∧
    ∀ z, rtc (parent_edge (phase diamond_pass_state)) 2 z →
         rtc (parent_edge (phase diamond_pass_state)) 3 z →
         rtc (parent_edge (phase diamond_pass_state)) r z.
Proof.
  apply (pd_compute_intersect_lca (diamond [1; 2] [1; 2])
           (phase diamond_pass_state) 8 2 3).
  - apply diamond_well_formed.
  - apply diamond_pass_state_cs.
  - vm_compute. lia.
  - eexists. split; vm_compute; reflexivity.
  - eexists. split; vm_compute; reflexivity.
Defined.

(** ** How a step moves a node *)

Lemma filter_ne_notin (l : list nat) n :
  n ∉ l → filter (λ x, x ≠ n) l = l.
Proof.
  induction l as [|x l IH]; [done|].
  rewrite not_elem_of_cons. intros [Hne Hl].
  rewrite filter_cons_True by done. by rewrite IH.
Qed.

Lemma plist_erase_filter l n i :
  NoDup l → plist_find_value l n = Some i →
  plist_erase l i = filter (λ x, x ≠ n) l.
Proof.
  intros Hnd (l1 & l2 & -> & <- & Hn1)%plist_find_value_Some.
  unfold plist_erase. rewrite delete_middle.
  apply NoDup_app in Hnd as (_ & _ & [Hn2 _]%NoDup_cons).
  rewrite filter_app, filter_cons_False by (intros H; by apply H).
  by rewrite !filter_ne_notin.
Qed.

(** X10: a solver step that reports a change, taken in any phase of the
    construction of a well-formed graph, appends the node to the end of
    the children list of the computed candidate, which becomes its
    parent and was not before, and removes it from every other children
    list; the lists keep their order otherwise. *)
Theorem pd_compute_node_moves g loops ph n ph' :
  well_formed g →
  construction_state g ph →
  pd_compute_node loops g (irg_ret g) ph n = Done (ph', true) →
  ∃ p,
    pd_new_idom loops g ph n = Done p ∧
    parent_edge ph' n p ∧ ¬ parent_edge ph n p ∧
    ∀ k pk, ph !! k = Some pk →
      ∃ pk', ph' !! k = Some pk' ∧
             children pk' =
               if decide (k = p) then children pk ++ [n]
               else filter (λ x, x ≠ n) (children pk).
Proof.
  intros Hwf Hcs Hrun. pose proof Hwf as [_ _ Hedges].
  pose proof (construction_state_inv _ _ Hwf Hcs) as Hinv.
  pose proof Hinv as [Hix Hts].
  destruct (pd_compute_node_changed _ _ _ _ _ Hinv Hedges Hrun)
    as (pn & p & Hroot & Hn & Hp & Hpar & Hlook).
  destruct (pd_new_idom_rank _ _ _ _ _ Hinv Hedges Hp) as [_ Hlt].
  assert (p ≠ n) as Hpn by (intros ->; lia).
  exists p. split_and!; [done| | |].
  - eexists. rewrite Hlook, Hn. split; [done|].
    destruct (reparent_node_fields n p pn n pn) as (_ & _ & _ & -> & _).
    by rewrite decide_True.
  - intros (? & ? & ?). simplify_eq.
  - intros k pk Hk. eexists. rewrite Hlook, Hk. split; [done|].
    destruct (ts_children _ _ _ Hts k pk Hk) as [Hnd Hch].
    unfold reparent_node.
    destruct (decide (k = n)) as [->|Hkn].
    + rewrite decide_False by done. simpl. rewrite filter_ne_notin; [done|].
      intros (? & ? & Hself)%Hch. simplify_eq.
      destruct (ts_parent _ _ _ Hts n pn n Hn Hself) as (_ & _ & ?). lia.
    + destruct (decide (k = p)) as [->|Hkp]; [done|].
      destruct (decide (parent pn = Some k)) as [Hold|Hold]; simpl.
      * assert (n ∈ children pk) as Hin by (apply Hch; by exists pn).
        destruct (plist_find_value (children pk) n) as [i|] eqn:Hi;
          [|by apply plist_find_value_None in Hi].
        simpl. by apply plist_erase_filter.
      * rewrite filter_ne_notin; [done|].
        intros (? & ? & ?)%Hch. simplify_eq.
Qed.

Lemma pd_compute_node_moves_witness :
  ∃ ph' p,
    pd_compute_node 8 (diamond [1; 2] [1; 2]) 0
      (phase diamond_pass_state) 3 = Done (ph', true) ∧
    pd_new_idom 8 (diamond [1; 2] [1; 2]) (phase diamond_pass_state) 3
      = Done p ∧
    parent_edge ph' 3 p ∧ ¬ parent_edge (phase diamond_pass_state) 3 p ∧
    ∀ k pk, phase diamond_pass_state !! k = Some pk →
      ∃ pk', ph' !! k = Some pk' ∧
             children pk' =
               if decide (k = p) then children pk ++ [3]
               else filter (λ x, x ≠ 3) (children pk).
Proof.
  assert (∃ ph', pd_compute_node 8 (diamond [1; 2] [1; 2]) 0
                   (phase diamond_pass_state) 3 = Done (ph', true))
    as [ph' Hrun] by (eexists; vm_compute; reflexivity).
  destruct (pd_compute_node_moves (diamond [1; 2] [1; 2]) 8
              (phase diamond_pass_state) 3 ph' diamond_well_formed
              diamond_pass_state_cs Hrun) as (p & ?).
  by exists ph', p.
Defined.

(** X11: a pass of the solver, started in any phase of the construction
    of a well-formed graph, neither creates nor removes a [pd_node] and
    leaves the [irn] and [index] of every [pd_node] as they are; nodes
    that are defined stay defined; and a pass that reports no change
    has left the whole phase as it was. *)
Theorem pd_compute_keeps_indices g loops fuel st n st' ch :
  well_formed g →
  construction_state g (phase st) →
  pd_compute loops fuel g (irg_ret g) st n = Done (st', ch) →
  same_index (phase st) (phase st') ∧
  (∀ v, defined_at (phase st) v → defined_at (phase st') v) ∧
  (ch = false → phase st' = phase st).
Proof.
  intros Hwf Hcs Hrun. pose proof Hwf as [_ _ Hedges].
  pose proof (construction_state_inv _ _ Hwf Hcs) as Hinv.
  split_and!.
  - eapply (pd_compute_phase_ind
              (λ ph, solver_inv g ph ∧ same_index (phase st) ph));
      [|done|split; [done|apply same_index_refl]].
    intros ph k ph' c [Hk Hsame] Hstep. split.
    + by eapply pd_compute_node_inv.
    + eapply same_index_trans; [done|].
      by destruct (pd_compute_node_frame _ _ _ _ _ _ Hk Hedges Hstep).
  - intros v. by eapply pd_compute_defined_mono.
  - intros ->. by destruct (pd_compute_no_change _ _ _ _ _ _ _ Hrun).
Qed.

Lemma pd_compute_keeps_indices_witness :
  same_index (phase (inc_irg_visited diamond_indexed_state))
    (phase diamond_pass_state) ∧
  (∀ v, defined_at (phase (inc_irg_visited diamond_indexed_state)) v →
        defined_at (phase diamond_pass_state) v) ∧
  (true = false →
   phase diamond_pass_state = phase (inc_irg_visited diamond_indexed_state)).
Proof.
  apply (pd_compute_keeps_indices (diamond [1; 2] [1; 2]) 8 8
           (inc_irg_visited diamond_indexed_state) 0 diamond_pass_state true).
  - apply diamond_well_formed.
  - apply diamond_indexed_state_cs.
  - vm_compute. reflexivity.
Defined.

(** ** The dump *)

Section dump.
Context (rk : ir_node → Z) (rt : ir_node) (ph : gmap ir_node pd_node).
Hypothesis Hts : tree_shape rk rt ph.
Hypothesis Hirn : ∀ k pk, ph !! k = Some pk → irn pk = Some k.
Hypothesis Hrk : ∀ k, is_Some (ph !! k) → (0 ≤ rk k)%Z.

Lemma dumped_children_step v indent done d L Ld :
  parent_edge ph d v →
  (∀ ch, ch ∈ done → parent_edge ph ch v ∧ ch ≠ d) →
  dumped_children ph v indent done L →
  dumped ph d (indent + 1) Ld →
  dumped_children ph v indent (done ++ [d]) (L ++ Ld).
Proof.
  intros Hd Hdone (Hnd & Hnodes & Hdepth) [Hnd' Hnodes' Hdepth'].
  split_and!.
  - rewrite fmap_app. apply NoDup_app. split_and!; [done| |done].
    intros k (ch & Hch & Hk)%Hnodes Hk'%Hnodes'.
    destruct (Hdone ch Hch) as [Hchv Hne].
    by eapply (subtrees_disjoint _ _ _ v ch d k Hts).
  - intros k. rewrite fmap_app, elem_of_app, Hnodes, Hnodes'. split.
    + intros [(ch & Hch & Hk)|Hk].
      * exists ch. split; [apply elem_of_app; auto|done].
      * exists d. split; [|done]. apply elem_of_app. right.
        by apply list_elem_of_singleton.
    + intros (ch & [Hch| ->%list_elem_of_singleton]%elem_of_app & Hk);
        [left; eauto|by right].
  - intros i k [Hin|Hin]%elem_of_app; [by apply Hdepth|].
    destruct (Hdepth' i k Hin) as (m & Hm & ->).
    exists (S m). split; [by eapply nsteps_r|lia].
Qed.

Lemma pd_dump_node_spec fuel :
  ∀ v indent f,
    is_Some (ph !! v) → (rk v < Z.of_nat fuel)%Z →
    ∃ L, pd_dump_node fuel ph v indent f = Done (f ++ (indent, v) :: L) ∧
         dumped ph v indent ((indent, v) :: L).
Proof.
  induction fuel as [|fuel IH]; intros v indent f Hv Hfuel.
  { specialize (Hrk v Hv). lia. }
  destruct Hv as [pv Hv].
  assert (deref ph v = Done pv) as Hderef by (by apply deref_Done).
  simpl. rewrite Hderef, bind_Done_l, (Hirn v pv Hv), bind_Done_l.
  destruct (ts_children _ _ _ Hts v pv Hv) as [Hnd Hch].
  assert (Hfold : ∀ todo done L,
    children pv = done ++ todo →
    dumped_children ph v indent done L →
    ∃ L', for_each (λ f it, pd_dump_node fuel ph it (indent + 1)%Z f)
            (f ++ (indent, v) :: L) todo = Done (f ++ (indent, v) :: L') ∧
          dumped_children ph v indent (children pv) L').
  { induction todo as [|d todo IHt]; intros done L Heq HL.
    - rewrite app_nil_r in Heq. subst done. by eauto.
    - assert (parent_edge ph d v) as Hd.
      { apply Hch. rewrite Heq. apply elem_of_app. right.
        apply list_elem_of_here. }
      pose proof (tc_parent_edge_rank _ _ _ _ _ Hts (tc_once _ _ _ Hd)) as Hlt.
      assert (is_Some (ph !! d)) as Hds.
      { destruct Hd as (? & ? & _). eauto. }
      destruct (IH d (indent + 1)%Z (f ++ (indent, v) :: L))
        as (Ld & HrunD & HLd); [done|lia|].
      simpl. rewrite HrunD, bind_Done_l.
      replace ((f ++ (indent, v) :: L) ++ (indent + 1, d)%Z :: Ld)
        with (f ++ (indent, v) :: (L ++ (indent + 1, d)%Z :: Ld))
        by (by rewrite <-!app_assoc).
      apply (IHt (done ++ [d])); [by rewrite <-app_assoc|].
      eapply dumped_children_step; [done| |done..].
      intros ch Hin. split.
      + apply Hch. rewrite Heq. apply elem_of_app. auto.
      + intros ->. rewrite Heq in Hnd.
        apply NoDup_app in Hnd as (_ & Hdisj & _).
        apply (Hdisj d Hin), list_elem_of_here. }
  destruct (Hfold (children pv) [] []) as (L & Hrun & HnL & HnodesL & HdepthL);
    [done| |].
  { split_and!.
    - apply NoDup_nil_2.
    - intros k. split; [by intros ?%elem_of_nil|].
      by intros (ch & ?%elem_of_nil & _).
    - intros d k ?%elem_of_nil. done. }
  replace (f ++ [(indent, v)]) with (f ++ (indent, v) :: []) by done.
  exists L. split; [done|]. split.
  - simpl. apply NoDup_cons. split; [|done].
    intros (ch & Hin%Hch & Hk)%HnodesL.
    by eapply subtree_not_parent.
  - intros k. simpl. rewrite elem_of_cons, HnodesL. split.
    + intros [->|(ch & Hin%Hch & Hk)]; [done|]. by eapply rtc_r.
    + intros [->|(ch & Hk & Hcv)]%rtc_inv_r; [by left|].
      right. exists ch. split; [by apply Hch|done].
  - intros d k [[= -> ->]|Hin]%elem_of_cons; [|by apply HdepthL].
    exists 0. split; [constructor|lia].
Qed.
End dump.

(** X12: after [pd_init] on a well-formed graph, [pd_dump] writes one
    line for each node that has a [pd_node] and no other line: the
    first line is that of the root with indentation 0, no node is
    written twice, and the indentation of a line is the depth of its
    node in the tree (the number of parent steps to the root). *)
Theorem pd_dump_lists_tree g fuel pdt fuel' f :
  well_formed g →
  pd_init fuel g = Done pdt →
  size (irg_nodes g) ≤ fuel' →
  ∃ L,
    pd_dump fuel' pdt f = Done (f ++ (0%Z, root pdt) :: L) ∧
    NoDup (root pdt :: L.*2) ∧
    (∀ k, k ∈ root pdt :: L.*2 ↔ is_Some (tree_phase pdt !! k)) ∧
    (∀ d k, (d, k) ∈ (0%Z, root pdt) :: L →
       ∃ m, nsteps (parent_edge (tree_phase pdt)) m k (root pdt) ∧
            d = Z.of_nat m).
Proof.
  intros Hwf Hrun Hfuel'.
  destruct (pd_init_built g fuel pdt Hwf Hrun) as (ph & last & Hb).
  pose proof (built_tree_shape _ _ _ _ Hwf Hb) as Hts.
  pose proof (built_solver_inv _ _ _ _ Hwf Hb) as [Hix _].
  assert (∀ k, is_Some (tree_phase pdt !! k) → is_Some (ph !! k)) as Hsome.
  { intros k.
    by rewrite (same_tree_is_Some ph) by (by eapply built_same_tree). }
  destruct (pd_dump_node_spec (index_of ph) (irg_ret g) (tree_phase pdt) Hts)
    with (fuel := fuel') (v := irg_ret g) (indent := 0%Z) (f := f)
    as (L & HrunL & [Hnd Hnodes Hdepth]).
  - intros k pk Hk. by eapply built_irn.
  - intros k Hk%Hsome. by apply (ix_range _ _ Hix).
  - apply (built_lookup g pdt ph last); [done..|apply rtc_refl].
  - pose proof (ix_root _ _ Hix). lia.
  - unfold pd_dump. rewrite (bt_root _ _ _ _ Hb).
    exists L. split_and!; [done..| |].
    + intros k. rewrite (Hnodes k). split.
      * intros Hk. eapply rtc_parent_edge_is_Some; [done|].
        apply (built_lookup g pdt ph last); [done..|apply rtc_refl].
      * intros Hk%(built_lookup g pdt ph last k Hwf Hb).
        apply (built_rtc_parent_edge _ _ _ _ _ _ Hb).
        by eapply built_to_root.
    + intros d k Hin. destruct (Hdepth d k Hin) as (m & Hm & ->).
      exists m. split; [done|lia].
Qed.

Lemma pd_dump_lists_tree_witness :
  ∃ pdt L,
    pd_init 4 (diamond [1; 2] [1; 2]) = Done pdt ∧
    pd_dump 4 pdt [] = Done ([] ++ (0%Z, root pdt) :: L) ∧
    NoDup (root pdt :: L.*2) ∧
    (∀ k, k ∈ root pdt :: L.*2 ↔ is_Some (tree_phase pdt !! k)) ∧
    (∀ d k, (d, k) ∈ (0%Z, root pdt) :: L →
       ∃ m, nsteps (parent_edge (tree_phase pdt)) m k (root pdt) ∧
            d = Z.of_nat m).
Proof.
  assert (∃ pdt, pd_init 4 (diamond [1; 2] [1; 2]) = Done pdt) as [pdt Hrun]
    by (eexists; vm_compute; reflexivity).
  destruct (pd_dump_lists_tree (diamond [1; 2] [1; 2]) 4 pdt 4 []
              diamond_well_formed Hrun) as (L & ?).
  - vm_compute. lia.
  - by exists pdt, L.
Defined.

(** ** The numbering of the built tree *)

(** X13: after [pd_init] on a well-formed graph, the indices are
    pre-order numbers: the root has index 0, a child has a larger index
    than its parent, distinct nodes have distinct indices, and every
    index lies between 0 and the [max_index] of the root. *)
Theorem pd_init_preorder g fuel pdt :
  well_formed g →
  pd_init fuel g = Done pdt →
  index_of (tree_phase pdt) (root pdt) = 0%Z ∧
  (∀ c p, parent_edge (tree_phase pdt) c p →
          (index_of (tree_phase pdt) p < index_of (tree_phase pdt) c)%Z) ∧
  (∀ A B, is_Some (tree_phase pdt !! A) → is_Some (tree_phase pdt !! B) →
          index_of (tree_phase pdt) A = index_of (tree_phase pdt) B →
          A = B) ∧
  (∀ A, is_Some (tree_phase pdt !! A) →
        (0 ≤ index_of (tree_phase pdt) A
           ≤ max_index_of (tree_phase pdt) (root pdt))%Z).
Proof.
  intros Hwf Hrun.
  destruct (pd_init_built g fuel pdt Hwf Hrun) as (ph & last & Hb).
  pose proof (built_solver_inv _ _ _ _ Hwf Hb) as Hinv.
  pose proof Hinv as [_ Hts].
  pose proof (bt_indexed _ _ _ _ Hb) as Hix.
  rewrite (bt_root _ _ _ _ Hb).
  assert (∀ A, is_Some (tree_phase pdt !! A) →
            rtc (parent_edge ph) A (irg_ret g)) as Hroot.
  { intros A HA. eapply built_to_root; [done..|]. by eapply built_lookup. }
  split_and!.
  - apply (di_index _ _ _ _ _ _ Hix).
  - intros c p Hcp%(built_parent_edge _ _ _ _ _ _ Hb).
    destruct (parent_edge_reachable _ _ _ _ Hinv Hcp) as [_ Hp].
    apply (di_nested _ _ _ _ _ _ Hix c p); [|done].
    by eapply built_to_root.
  - intros A B HA HB Heq.
    destruct (di_range _ _ _ _ _ _ Hix A (Hroot A HA)) as [(_ & ? & _) _].
    destruct (di_range _ _ _ _ _ _ Hix B (Hroot B HB)) as [(_ & ? & _) _].
    eapply (rtc_parent_edge_antisym _ _ ph); [done| |].
    + apply (di_sep _ _ _ _ _ _ Hix); [by apply Hroot..|lia].
    + apply (di_sep _ _ _ _ _ _ Hix); [by apply Hroot..|lia].
  - intros A HA.
    destruct (di_range _ _ _ _ _ _ Hix A (Hroot A HA)) as [(? & ? & ?) _].
    rewrite (di_max_index _ _ _ _ _ _ Hix). lia.
Qed.

Lemma pd_init_preorder_witness :
  ∃ pdt,
    pd_init 4 (diamond [1; 2] [1; 2]) = Done pdt ∧
    index_of (tree_phase pdt) (root pdt) = 0%Z.
Proof.
  eexists. split; [vm_compute; reflexivity|].
  apply (pd_init_preorder (diamond [1; 2] [1; 2]) 4).
  - apply diamond_well_formed.
  - vm_compute; reflexivity.
Defined.

(** ** The post-order indexing on any graph *)

Lemma pd_compute_indices_post_grows g fuel :
  ∀ st n c st' c',
    pd_compute_indices_post fuel g st n c = Done (st', c') →
    visited st ⊆ visited st' ∧ n ∈ visited st' ∧ (c ≤ c')%Z ∧
    (∀ k, is_Some (phase st !! k) → is_Some (phase st' !! k)).
Proof.
  induction fuel as [|fuel IH]; intros st n c st' c' Hrun; [done|].
  simpl in Hrun. destruct (irn_visited st n) eqn:Hvis.
  { apply irn_visited_true in Hvis. by simplify_eq. }
  apply bind_Done in Hrun as ([st1 c1] & Hfold & Hrun).
  apply bind_Done in Hrun as (pdn & Hpdn & Hrun).
  injection Hrun as <- <-. simpl.
  apply (for_each_inv (λ s, {[n]} ∪ visited st ⊆ visited s.1 ∧ (c ≤ s.2)%Z ∧
           ∀ k, is_Some (phase st !! k) → is_Some (phase s.1 !! k)))
    in Hfold.
  - destruct Hfold as (Hsub & Hc & Hdom). simpl in *.
    split_and!; [| |lia|].
    + intros x Hx. apply Hsub, elem_of_union. by right.
    + apply Hsub, elem_of_union. left. by apply elem_of_singleton.
    + intros k Hk%Hdom. apply lookup_insert_is_Some'. right.
      unfold phase_get_or_set_irn_data.
      destruct (phase st1 !! n); [done|].
      apply lookup_insert_is_Some'. by right.
  - simpl. split_and!; [done|lia|done].
  - intros [stA cA] d [stB cB] _ (HsubA & HcA & HdomA) Hd. simpl in *.
    destruct (IH _ _ _ _ _ Hd) as (HsubB & _ & ? & HdomB).
    split_and!; [by etrans|lia|by auto].
Qed.

(** The counter advances by at most the number of graph nodes that the
    call marks. *)
Lemma pd_compute_indices_post_counter g fuel :
  ∀ st n c st' c',
    n ∈ irg_nodes g →
    pd_compute_indices_post fuel g st n c = Done (st', c') →
    (c' + Z.of_nat (size (irg_nodes g ∖ visited st'))
       ≤ c + Z.of_nat (size (irg_nodes g ∖ visited st)))%Z.
Proof.
  induction fuel as [|fuel IH]; intros st n c st' c' Hn Hrun; [done|].
  simpl in Hrun. destruct (irn_visited st n) eqn:Hvis.
  { by simplify_eq. }
  apply irn_visited_false in Hvis.
  pose proof (size_difference_mark _ _ _ Hn Hvis) as Hlt.
  apply bind_Done in Hrun as ([st1 c1] & Hfold & Hrun).
  apply bind_Done in Hrun as (pdn & Hpdn & Hrun).
  injection Hrun as <- <-. simpl.
  apply (for_each_inv (λ s,
           (s.2 + Z.of_nat (size (irg_nodes g ∖ visited s.1))
              ≤ c + Z.of_nat (size (irg_nodes g ∖ ({[n]} ∪ visited st))))%Z))
    in Hfold.
  - simpl in Hfold. lia.
  - simpl. lia.
  - intros [stA cA] d [stB cB] Hd HA HrunB. simpl in *.
    pose proof (IH _ _ _ _ _ (irg_nodes_dep g n d Hd) HrunB). lia.
Qed.

(** X14: the post-order indexing returns on every graph, cyclic or not,
    when the fuel exceeds the number of unmarked nodes: the visited
    marks stop the recursion.  It marks the node it is called on,
    unmarks nothing and removes no [pd_node].  When the start counter
    is an [int] that leaves room for one number per unmarked node, the
    counter never leaves the range of [int]: it does not decrease, and
    it advances by at most the number of unmarked nodes. *)
Theorem pd_compute_indices_post_returns g fuel st n c :
  n ∈ irg_nodes g →
  size (irg_nodes g ∖ visited st) < fuel →
  (INT_MIN ≤ c)%Z →
  (c + Z.of_nat (size (irg_nodes g ∖ visited st)) ≤ INT_MAX)%Z →
  ∃ st' c',
    pd_compute_indices_post fuel g st n c = Done (st', c') ∧
    visited st ⊆ visited st' ∧ n ∈ visited st' ∧
    (c ≤ c' ≤ c + Z.of_nat (size (irg_nodes g ∖ visited st)))%Z ∧
    (INT_MIN ≤ c' ≤ INT_MAX)%Z ∧
    (∀ k, is_Some (phase st !! k) → is_Some (phase st' !! k)).
Proof.
  intros Hn Hfuel Hmin Hmax.
  destruct (pd_compute_indices_post_total g fuel st n c Hn Hfuel)
    as (st' & c' & Hrun & _).
  destruct (pd_compute_indices_post_grows _ _ _ _ _ _ _ Hrun)
    as (Hsub & Hin & Hle & Hdom).
  pose proof (pd_compute_indices_post_counter _ _ _ _ _ _ _ Hn Hrun) as Hc.
  exists st', c'. split_and!; [done..|lia|lia|lia|lia|done].
Qed.

Lemma pd_compute_indices_post_returns_witness :
  tc (dep cyclic_graph) 1 1 ∧
  ∃ st' c',
    pd_compute_indices_post 4 cyclic_graph
      (inc_irg_visited (pd_init_root cyclic_graph)) 0 0 = Done (st', c') ∧
    0 ∈ visited st' ∧ (0 ≤ c' ≤ 3)%Z.
Proof.
  split.
  - apply (tc_l _ 1 2 1); [|apply tc_once]; unfold dep; vm_compute;
      apply list_elem_of_here.
  - destruct (pd_compute_indices_post_returns cyclic_graph 4
                (inc_irg_visited (pd_init_root cyclic_graph)) 0 0)
      as (st' & c' & Hrun & _ & Hin & Hc & _).
    + apply irg_nodes_ret.
    + vm_compute. lia.
    + vm_compute. discriminate.
    + vm_compute. discriminate.
    + exists st', c'. split_and!; [done..|lia|].
      assert (size (irg_nodes cyclic_graph
                      ∖ visited (inc_irg_visited (pd_init_root cyclic_graph)))
              = 3) as Hsize by (vm_compute; reflexivity).
      rewrite Hsize in Hc. lia.
Defined.

(** ** Uses without a [pd_node] *)

Lemma pd_find_idom_uses_with_data ph uses :
  pd_find_idom ph (uses_with_data ph uses) = pd_find_idom ph uses.
Proof.
  unfold uses_with_data. induction uses as [|u uses IH]; [done|].
  simpl. unfold phase_get_irn_data.
  destruct (ph !! u) as [pu|] eqn:Hu.
  - rewrite filter_cons_True by (rewrite Hu; eauto). simpl.
    unfold phase_get_irn_data. by rewrite Hu, IH.
  - rewrite filter_cons_False by (rewrite Hu; by intros [? ?]). done.
Qed.

Lemma pd_intersect_uses_with_data fuel ph uses pd_idom :
  pd_intersect_uses fuel ph (uses_with_data ph uses) pd_idom
  = pd_intersect_uses fuel ph uses pd_idom.
Proof.
  unfold uses_with_data, pd_intersect_uses. revert pd_idom.
  induction uses as [|u uses IH]; intros pd_idom; [done|].
  simpl. unfold phase_get_irn_data.
  destruct (ph !! u) as [pu|] eqn:Hu.
  - rewrite filter_cons_True by (rewrite Hu; eauto). simpl.
    unfold phase_get_irn_data. rewrite Hu.
    destruct (bool_decide (u ≠ pd_idom) && defined pu).
    + destruct (pd_compute_intersect fuel ph u pd_idom); simpl; [apply IH|done..].
    + rewrite !bind_Done_l. apply IH.
  - rewrite filter_cons_False by (rewrite Hu; by intros [? ?]).
    rewrite bind_Done_l. apply IH.
Qed.

(** X15: the candidate that [pd_compute] computes for a node depends
    only on those uses of the node that have a [pd_node]: two graphs
    whose out-edge lists of the node agree on the uses with a
    [pd_node] give the same candidate (or the same failure). *)
Theorem pd_new_idom_ignores_unreached fuel g g' ph n :
  uses_with_data ph (get_irn_outs g n) = uses_with_data ph (get_irn_outs g' n) →
  pd_new_idom fuel g ph n = pd_new_idom fuel g' ph n.
Proof.
  intros Heq. unfold pd_new_idom.
  rewrite <-(pd_find_idom_uses_with_data ph (get_irn_outs g n)).
  rewrite <-(pd_find_idom_uses_with_data ph (get_irn_outs g' n)).
  rewrite Heq.
  destruct (pd_find_idom ph (uses_with_data ph (get_irn_outs g' n)));
    [|done].
  rewrite <-(pd_intersect_uses_with_data fuel ph (get_irn_outs g n)).
  rewrite <-(pd_intersect_uses_with_data fuel ph (get_irn_outs g' n)).
  by rewrite Heq.
Qed.

Lemma pd_new_idom_ignores_unreached_witness :
  pd_new_idom 8 (diamond [1; 2] [1; 2]) (phase diamond_pass_state) 3
  = pd_new_idom 8 (diamond [1; 2] [1; 7; 2; 9]) (phase diamond_pass_state) 3.
Proof.
  apply pd_new_idom_ignores_unreached. vm_compute. reflexivity.
Defined.

(** ** The pre-order numbers of the tree indexer *)



Section dom_preorder.
Context (rk : ir_node → Z) (rt : ir_node) (ph0 : gmap ir_node pd_node).
Hypothesis Hts : tree_shape rk rt ph0.
Hypothesis Hrk : ∀ k, is_Some (ph0 !! k) → (0 ≤ rk k)%Z.



End dom_preorder.




(** ** The intervals of subtrees *)

(** C2: after the tree-indexing pass of [pd_init] on a well-formed
    graph, every node [v] of the tree has [index(v) <= max_index(v)],
    every node [c] reached from [v] via children lists has
    [index(v) <= index(c) <= max_index(c) <= max_index(v)], and the
    nesting is strict: when [c] is not [v] itself, its interval starts
    behind [index(v)]. *)
Theorem pd_compute_indices_dom_nesting g fuel pdt :
  well_formed g →
  pd_init fuel g = Done pdt →
  (∀ v, is_Some (tree_phase pdt !! v) →
        (index_of (tree_phase pdt) v ≤ max_index_of (tree_phase pdt) v)%Z) ∧
  (∀ v c, is_Some (tree_phase pdt !! v) →
          rtc (child_edge (tree_phase pdt)) v c →
          (index_of (tree_phase pdt) v ≤ index_of (tree_phase pdt) c ∧
           index_of (tree_phase pdt) c ≤ max_index_of (tree_phase pdt) c ∧
           max_index_of (tree_phase pdt) c
             ≤ max_index_of (tree_phase pdt) v)%Z) ∧
  (∀ v c, is_Some (tree_phase pdt !! v) →
          tc (child_edge (tree_phase pdt)) v c →
          (index_of (tree_phase pdt) v < index_of (tree_phase pdt) c)%Z).
Proof.
  intros Hwf Hrun.
  destruct (pd_init_built g fuel pdt Hwf Hrun) as (ph & last & Hb).
  pose proof (built_tree_shape _ _ _ _ Hwf Hb) as Hts.
  pose proof (built_solver_inv _ _ _ _ Hwf Hb) as Hinv.
  assert (Hchain : ∀ v c, is_Some (tree_phase pdt !! v) →
            rtc (child_edge (tree_phase pdt)) v c →
            reachable g c ∧ rtc (parent_edge ph) c v).
  { intros v c Hv Hvc.
    apply (rtc_child_edge_parent_edge _ _ _ _ _ Hts) in Hvc.
    split.
    - eapply built_lookup; [done..|]. by eapply rtc_parent_edge_is_Some.
    - by apply (built_rtc_parent_edge _ _ _ _ _ _ Hb). }
  split_and!.
  - intros v Hv. destruct (Hchain v v Hv (rtc_refl _ _)) as [Hr Hvv].
    destruct (built_chain_nested _ _ _ _ _ _ Hwf Hb Hr Hvv) as (_ & ? & _).
    done.
  - intros v c Hv Hvc. destruct (Hchain v c Hv Hvc) as [Hr Hcv].
    by eapply built_chain_nested.
  - intros v c Hv Hvc.
    assert (∃ p, rtc (child_edge (tree_phase pdt)) v p ∧
                 child_edge (tree_phase pdt) p c) as (p & Hvp & Hpc).
    { clear Hv. induction Hvc as [v c Hvc|v w c Hvw _ (p & Hwp & Hpc)].
      - exists v. by split.
      - exists p. split; [by eapply rtc_l|done]. }
    destruct (Hchain v p Hv Hvp) as [Hr Hpv].
    destruct (built_chain_nested _ _ _ _ _ _ Hwf Hb Hr Hpv) as (? & _).
    apply (child_edge_parent_edge _ _ _ _ _ Hts) in Hpc.
    apply (built_parent_edge _ _ _ _ _ _ Hb) in Hpc.
    destruct (di_nested _ _ _ _ _ _ (bt_indexed _ _ _ _ Hb) c p) as [? _];
      [by eapply built_to_root|done|lia].
Qed.

Lemma pd_compute_indices_dom_nesting_witness :
  ∃ pdt,
    pd_init 4 (diamond [1; 2] [1; 2]) = Done pdt ∧
    child_edge (tree_phase pdt) 0 3 ∧
    (∀ v, is_Some (tree_phase pdt !! v) →
          (index_of (tree_phase pdt) v ≤ max_index_of (tree_phase pdt) v)%Z) ∧
    (∀ v c, is_Some (tree_phase pdt !! v) →
            rtc (child_edge (tree_phase pdt)) v c →
            (index_of (tree_phase pdt) v ≤ index_of (tree_phase pdt) c ∧
             index_of (tree_phase pdt) c ≤ max_index_of (tree_phase pdt) c ∧
             max_index_of (tree_phase pdt) c
               ≤ max_index_of (tree_phase pdt) v)%Z) ∧
    (∀ v c, is_Some (tree_phase pdt !! v) →
            tc (child_edge (tree_phase pdt)) v c →
            (index_of (tree_phase pdt) v < index_of (tree_phase pdt) c)%Z).
Proof.
  eexists. split; [vm_compute; reflexivity|]. split.
  - eexists. split; [vm_compute; reflexivity|].
    vm_compute. apply list_elem_of_In. simpl. auto.
  - apply (pd_compute_indices_dom_nesting (diamond [1; 2] [1; 2]) 4).
    + apply diamond_well_formed.
    + vm_compute; reflexivity.
Defined.

(** ** Termination of the construction *)

(** The loop ends with a pass that reports no change. *)
Lemma pd_init_loop_last loops g fuel :
  ∀ st st',
    construction_state g (phase st) →
    pd_init_loop loops fuel g (irg_ret g) st = Done st' →
    ∃ st0, construction_state g (phase st0) ∧
           pd_compute loops loops g (irg_ret g) (inc_irg_visited st0) (irg_ret g)
           = Done (st', false).
Proof.
  induction fuel as [|fuel IH]; intros st st' Hcs Hrun; [done|].
  simpl in Hrun. apply bind_Done in Hrun as ([st1 ch] & Hpass & Hrun).
  destruct ch.
  - apply (IH st1 st'); [|done].
    by apply (pd_compute_construction_state _ _ _ _ _ _ _ Hpass).
  - injection Hrun as <-. by exists st.
Qed.

(** C5: on a well-formed graph the construction terminates.  Every
    intersection walk on two defined nodes, in any phase of the
    construction, reaches a common ancestor after finitely many parent
    steps; the [do ... while] loop of [pd_init] performs at most as many
    passes as the graph has nodes (the second argument of
    [pd_init_loop] bounds the number of passes) and ends with a pass
    that makes no change; and [pd_init] returns. *)
Theorem pd_init_loop_terminates g fuel :
  well_formed g →
  2 * size (irg_nodes g) < fuel →
  (∀ ph lhs rhs,
     construction_state g ph → defined_at ph lhs → defined_at ph rhs →
     ∃ r, pd_compute_intersect fuel ph lhs rhs = Done r ∧
          rtc (parent_edge ph) lhs r ∧ rtc (parent_edge ph) rhs r) ∧
  (∃ st1 c1 st2 st,
     pd_compute_indices_post fuel g (inc_irg_visited (pd_init_root g))
       (irg_ret g) 0 = Done (st1, c1) ∧
     pd_init_loop fuel (size (irg_nodes g)) g (irg_ret g) st1 = Done st2 ∧
     construction_state g (phase st) ∧
     pd_compute fuel fuel g (irg_ret g) (inc_irg_visited st) (irg_ret g)
     = Done (st2, false)) ∧
  (∃ pdt, pd_init fuel g = Done pdt).
Proof.
  intros Hwf Hfuel. pose proof Hwf as [Hret Hac Hedges].
  split_and!.
  - intros ph lhs rhs Hcs Hl Hr.
    pose proof (construction_state_inv _ _ Hwf Hcs) as Hinv.
    destruct (pd_compute_intersect_total g ph fuel Hinv lhs rhs) as [r Hrun];
      [done..|apply intersect_fuel_enough; [done|lia|done..]|].
    destruct (pd_compute_intersect_result _ _ _ _ _ _ Hinv Hl Hrun)
      as (_ & ? & ?).
    by exists r.
  - assert (0 < size (irg_nodes g)) as Hpos.
    { assert (size ({[irg_ret g]} : gset nat) ≤ size (irg_nodes g)) as Hle.
      - apply subseteq_size. intros x ->%elem_of_singleton.
        apply irg_nodes_ret.
      - rewrite size_singleton in Hle. lia. }
    destruct (pd_compute_indices_post_init g fuel Hac) as
      (st1 & R & Hpost & Hinv & Hvis & HR & Hroot); [lia|].
    assert (solver_inv g (phase st1)) as Hinv1
      by (by eapply post_inv_solver_inv).
    assert (construction_state g (phase st1)) as Hcs1
      by (by eapply cs_indexed).
    destruct (pd_init_loop_total fuel g (size (irg_nodes g)) Hedges) with
      (st := st1) (S := {[irg_ret g]} : gset nat) as (st2 & Hloop & Hinv2);
      [lia|lia|done|by apply settled_init| |].
    { pose proof (solver_inv_dom_size _ _ Hinv1). rewrite size_singleton.
      lia. }
    destruct (pd_init_loop_last _ _ _ _ _ Hcs1 Hloop) as (st & Hcs & Hlast).
    by exists st1, (Z.of_nat (size R)), st2, st.
  - apply pd_init_total; [done|lia].
Qed.

Lemma pd_init_loop_terminates_witness :
  (∃ r, pd_compute_intersect 9 (phase diamond_pass_state) 2 3 = Done r ∧
        rtc (parent_edge (phase diamond_pass_state)) 2 r ∧
        rtc (parent_edge (phase diamond_pass_state)) 3 r) ∧
  (∃ pdt, pd_init 9 (diamond [1; 2] [1; 2]) = Done pdt).
Proof.
  destruct (pd_init_loop_terminates (diamond [1; 2] [1; 2]) 9
              diamond_well_formed) as (Hwalk & _ & Hinit).
  - vm_compute. lia.
  - split; [|exact Hinit].
    apply Hwalk.
    + apply diamond_pass_state_cs.
    + eexists. split; vm_compute; reflexivity.
    + eexists. split; vm_compute; reflexivity.
Defined.

(** ** Iterating over the children *)

(** Any number of calls of [pd_children_iter_next]: the nodes of the
    list as far as it reaches, then null. *)
Lemma pd_children_iter_nexts_prefix pdt l :
  (∀ c, c ∈ l → ∃ pc, tree_phase pdt !! c = Some pc ∧ irn pc = Some c) →
  ∀ n, pd_children_iter_nexts pdt n l
       = Done (take n (Some <$> l) ++ replicate (n - length l) None, drop n l).
Proof.
  induction l as [|c l IH]; intros Hl n.
  - rewrite pd_children_iter_nexts_nil. simpl.
    by rewrite take_nil, drop_nil, Nat.sub_0_r.
  - destruct n as [|n]; [done|].
    destruct (Hl c) as (pc & Hc & Hirn); [apply list_elem_of_here|].
    simpl. unfold deref. rewrite Hc. simpl. rewrite Hirn, IH; [done|].
    intros c' Hc'. by apply Hl, list_elem_of_further.
Qed.

(** C10: after [pd_init] on a well-formed graph, for a node A with a
    [pd_node], [pd_children_iter_init] returns an iterator from which
    [n] calls of [pd_children_iter_next], for any [n], yield the first
    [n] nodes of the children list of A in the order of the list (the
    order in which [pd_set_parent] appended them) and null for every
    call beyond the end of the list; the nodes yielded are those of the
    list, each once, and their number is what [pd_get_children_count]
    returns. *)
Theorem pd_children_iter_complete g fuel pdt A pa :
  well_formed g →
  pd_init fuel g = Done pdt →
  tree_phase pdt !! A = Some pa →
  ∃ it,
    pd_children_iter_init pdt A = Done it ∧
    (∀ n, pd_children_iter_nexts pdt n it
          = Done (take n (Some <$> children pa)
                    ++ replicate (n - length (children pa)) None,
                  drop n it)) ∧
    NoDup (children pa) ∧
    (∀ c, c ∈ children pa ↔ parent_edge (tree_phase pdt) c A) ∧
    pd_get_children_count pdt A = Done (Z.of_nat (length (children pa))).
Proof.
  intros Hwf Hrun HA.
  destruct (pd_init_built g fuel pdt Hwf Hrun) as (ph & last & Hb).
  pose proof (built_tree_shape _ _ _ _ Hwf Hb) as Hts.
  destruct (ts_children _ _ _ Hts A pa HA) as [Hnd Hch].
  exists (children pa).
  unfold pd_children_iter_init, pd_get_children_count, phase_get_irn_data.
  rewrite HA. split_and!; [done| |done..].
  apply pd_children_iter_nexts_prefix. intros c Hc.
  apply Hch in Hc as (pc & Hpc & _).
  exists pc. split; [done|]. by eapply built_irn.
Qed.

Lemma pd_children_iter_complete_witness :
  ∃ pdt pa,
    pd_init 4 (diamond [1; 2] [1; 2]) = Done pdt ∧
    tree_phase pdt !! 0 = Some pa ∧
    children pa = [1; 2; 3] ∧
    ∃ it,
      pd_children_iter_init pdt 0 = Done it ∧
      (∀ n, pd_children_iter_nexts pdt n it
            = Done (take n (Some <$> children pa)
                      ++ replicate (n - length (children pa)) None,
                    drop n it)) ∧
      NoDup (children pa) ∧
      (∀ c, c ∈ children pa ↔ parent_edge (tree_phase pdt) c 0) ∧
      pd_get_children_count pdt 0 = Done (Z.of_nat (length (children pa))).
Proof.
  eexists _, _. split; [vm_compute; reflexivity|].
  split; [vm_compute; reflexivity|]. split; [reflexivity|].
  apply (pd_children_iter_complete (diamond [1; 2] [1; 2]) 4).
  - apply diamond_well_formed.
  - vm_compute; reflexivity.
  - vm_compute; reflexivity.
Defined.

(** ** The first pass of the solver *)

(** X16: on a well-formed graph the first pass of the solver, started
    on the phase that the post-order indexing leaves, returns and
    defines every reachable node: each node other than the sink has a
    parent after it, so that no node is left without a parent for a
    later pass; later passes only move nodes. *)
Theorem pd_compute_first_pass_defines g fuel :
  well_formed g →
  2 * size (irg_nodes g) < fuel →
  ∃ st1 c1 st2 ch,
    pd_compute_indices_post fuel g (inc_irg_visited (pd_init_root g))
      (irg_ret g) 0 = Done (st1, c1) ∧
    pd_compute fuel fuel g (irg_ret g) (inc_irg_visited st1) (irg_ret g)
    = Done (st2, ch) ∧
    ∀ v, reachable g v →
         defined_at (phase st2) v ∧
         (v ≠ irg_ret g → ∃ p, parent_edge (phase st2) v p).
Proof.
  intros Hwf Hfuel. pose proof Hwf as [Hret Hac Hedges].
  destruct (pd_compute_indices_post_init g fuel Hac) as
    (st1 & R & Hpost & Hinv & Hvis & HR & Hroot); [lia|].
  assert (solver_inv g (phase st1)) as Hinv1
    by (by eapply post_inv_solver_inv).
  destruct (pd_compute_total fuel g fuel Hedges) with
    (st := inc_irg_visited st1) (n := irg_ret g)
    as (st2 & ch & Hpass & _); [lia|done|apply rtc_refl| |by auto|].
  { simpl. rewrite difference_empty_L. lia. }
  pose proof (pd_compute_inv fuel fuel g (inc_irg_visited st1) _ _ _
                Hinv1 Hedges Hpass) as [Hix2 Hts2].
  exists st1, (Z.of_nat (size R)), st2, ch. split_and!; [done..|].
  intros v Hv.
  assert (defined_at (phase st2) v) as Hdef.
  { eapply (pd_compute_defines fuel fuel g (inc_irg_visited st1));
      [done|done|apply rtc_refl| |done|].
    - simpl. intros x Hx. by apply not_elem_of_empty in Hx.
    - by eapply (pd_compute_visits_reachable _ _ _ (inc_irg_visited st1)). }
  split; [done|]. intros Hne. destruct Hdef as (pv & Hpv & Hd).
  destruct (ts_defined _ _ _ Hts2 v pv Hpv Hd) as [?|[p Hp]]; [done|].
  exists p. by exists pv.
Qed.

Lemma pd_compute_first_pass_defines_witness :
  ∃ st1 c1 st2 ch,
    pd_compute_indices_post 9 (diamond [1; 2] [1; 2])
      (inc_irg_visited (pd_init_root (diamond [1; 2] [1; 2])))
      (irg_ret (diamond [1; 2] [1; 2])) 0 = Done (st1, c1) ∧
    pd_compute 9 9 (diamond [1; 2] [1; 2]) (irg_ret (diamond [1; 2] [1; 2]))
      (inc_irg_visited st1) (irg_ret (diamond [1; 2] [1; 2]))
    = Done (st2, ch) ∧
    ∀ v, reachable (diamond [1; 2] [1; 2]) v →
         defined_at (phase st2) v ∧
         (v ≠ irg_ret (diamond [1; 2] [1; 2]) →
          ∃ p, parent_edge (phase st2) v p).
Proof.
  apply (pd_compute_first_pass_defines (diamond [1; 2] [1; 2]) 9).
  - apply diamond_well_formed.
  - vm_compute. lia.
Defined.
